(** * Grouped (scatter) reductions of dpvslam/scatter_ops.py

    A shallow embedding of [scatter_sum], [_expand_index], [scatter_max] and
    [scatter_softmax], together with the part of the tensor runtime they
    call: dense row-major tensors, Python list indexing and the PyTorch
    primitives [expand], [view], [zeros], [full], [scatter_add],
    [scatter_reduce], [gather], [where] and the element-wise operations. *)

From Stdlib Require Import ZArith List Bool Lia.
From Stdlib Require Import Floats.SpecFloat.
From stdpp Require Import base tactics option list sorting.

(** ** Exceptions *)

(** The two exception classes the code can raise: Python's [IndexError]
    (list and tuple indexing, dimension wrapping) and PyTorch's
    [RuntimeError] (every shape, size, bound and conversion check). *)
Inductive error : Type :=
  | IndexError
  | RuntimeError.

Inductive result (X : Type) : Type :=
  | Ok (x : X)
  | Raise (e : error).
Arguments Ok {X} x.
Arguments Raise {X} e.

Definition bind {X Y : Type} (m : result X) (k : X -> result Y) : result Y :=
  match m with
  | Ok x => k x
  | Raise e => Raise e
  end.

Notation "'let*' x ':=' m 'in' k" := (bind m (fun x => k))
  (at level 10, x name, m at level 100, k at level 200).

(** ** Python sequences *)

Module Py.

(** Index normalisation of [list.__getitem__], [list.__setitem__] and
    [tuple.__getitem__]: [-len <= i < 0] counts from the end, anything
    outside [-len, len) raises [IndexError]. *)
Definition index (len : nat) (i : Z) : result nat :=
  if ((0 <=? i) && (i <? Z.of_nat len))%Z then Ok (Z.to_nat i)
  else if ((- Z.of_nat len <=? i) && (i <? 0))%Z then Ok (Z.to_nat (i + Z.of_nat len))
  else Raise IndexError.

(** [l[i] = x] *)
Definition setitem {X : Type} (l : list X) (i : Z) (x : X) : result (list X) :=
  let* n := index (length l) i in Ok (<[n := x]> l).

(** [l[i]] *)
Definition getitem {X : Type} `{Inhabited X} (l : list X) (i : Z) : result X :=
  let* n := index (length l) i in Ok (l !!! n).

End Py.

(** ** Dense tensors *)

(** A tensor is its shape and its elements in row-major order: every
    tensor is taken to be contiguous. Strides and devices are not
    modelled, so a transposed or sliced operand is represented by the
    contiguous tensor of the same shape and elements. *)
Record tensor (X : Type) : Type := Tensor {
  shape : list nat;
  data : list X
}.
Arguments Tensor {X} shape data.
Arguments shape {X} t.
Arguments data {X} t.

(** Number of elements of a tensor of shape [sh]. *)
Definition volume (sh : list nat) : nat := foldr Nat.mul 1 sh.

(** [t.dim()] and [t.numel()] *)
Definition ndim {X : Type} (t : tensor X) : nat := length (shape t).
Definition numel {X : Type} (t : tensor X) : nat := volume (shape t).

(** A well-formed tensor holds exactly [numel] elements. *)
Definition wf {X : Type} (t : tensor X) : Prop := length (data t) = numel t.

(** Row-major offset of a coordinate list, and the coordinates of an
    offset. *)
Fixpoint ravel (sh c : list nat) : nat :=
  match sh, c with
  | _ :: sh', i :: c' => i * volume sh' + ravel sh' c'
  | _, _ => 0
  end.

Fixpoint unravel (sh : list nat) (q : nat) : list nat :=
  match sh with
  | [] => []
  | _ :: sh' => q / volume sh' :: unravel sh' (q mod volume sh')
  end.

(** [c] is a coordinate of a tensor of shape [sh]. *)
Definition in_bounds (sh c : list nat) : Prop := Forall2 (fun i s => i < s) c sh.

(** The element at coordinate [c]. *)
Definition tget {X : Type} `{Inhabited X} (t : tensor X) (c : list nat) : X :=
  data t !!! ravel (shape t) c.

(** ** Element types *)

(** What [scatter_sum] needs of the element type ([src.dtype]): the value
    [torch.zeros] fills with and the addition of [scatter_add]. No law is
    assumed; for floating-point types [add] rounds. *)
Class Additive (A : Type) : Type := {
  zero : A;
  add : A -> A -> A
}.

#[global] Instance Additive_inhabited {A : Type} {dtype : Additive A} : Inhabited A :=
  populate zero.

(** What [scatter_max] and [scatter_softmax] need besides: they only run
    on floating-point types, since [torch.full(shape, float("-inf"),
    dtype=src.dtype)] raises for an integer [dtype]. *)
Class Floating (A : Type) {additive : Additive A} : Type := {
  neg_inf : A;              (* float("-inf") *)
  is_nan : A -> bool;
  ltb : A -> A -> bool;     (* <, false when an operand is NaN *)
  eqb : A -> A -> bool;     (* ==, false when an operand is NaN *)
  sub : A -> A -> A;
  div : A -> A -> A;
  exp : A -> A;
  eps : A                   (* the Python float 1e-12, converted *)
}.

(** ** The tensor runtime *)

Module Torch.

(** [c10::maybe_wrap_dim]: a dimension in [-r, r) is wrapped to [0, r);
    a tensor of rank 0 is indexed as if it had rank 1. *)
Definition maybe_wrap_dim (r : nat) (dim : Z) : result nat :=
  Py.index (Nat.max r 1) dim.

(** [t.shape[dim]]: [torch.Size] is a tuple. *)
Definition size {X : Type} (t : tensor X) (dim : Z) : result nat :=
  Py.getitem (shape t) dim.

(** [torch.full(shape, v)]; a negative size raises. *)
Definition full {X : Type} (sh : list Z) (v : X) : result (tensor X) :=
  if forallb (fun s => (0 <=? s)%Z) sh
  then let sh' := Z.to_nat <$> sh in Ok (Tensor sh' (replicate (volume sh') v))
  else Raise RuntimeError.

(** [torch.zeros(shape, dtype=...)] *)
Definition zeros {A : Type} {dtype : Additive A} (sh : list Z) : result (tensor A) :=
  full sh zero.

(** [torch.zeros_like(t)] and [torch.zeros_like(t, dtype=torch.long)] *)
Definition zeros_like {A : Type} {dtype : Additive A} {X : Type} (t : tensor X) : tensor A :=
  Tensor (shape t) (replicate (numel t) zero).
Definition zeros_like_long {X : Type} (t : tensor X) : tensor Z :=
  Tensor (shape t) (replicate (numel t) 0%Z).

(** [t.view(sizes)] of a contiguous tensor: same elements, new shape,
    provided the element counts agree. The code only passes explicit
    sizes (never [-1]). On a tensor that is not contiguous the runtime
    also raises [RuntimeError] when the strides do not fit the new
    shape; that cannot happen for a tensor with at most one dimension
    of a size other than 1 ([lone_dimension] below), whatever its
    strides. *)
Definition view {X : Type} (t : tensor X) (sizes : list nat) : result (tensor X) :=
  if volume sizes =? numel t then Ok (Tensor sizes (data t))
  else Raise RuntimeError.

(** Broadcasting rule of [expand]: the shape is aligned with [sizes] at
    the trailing dimensions; an existing dimension must have the
    requested size or size 1. *)
Definition expandable (sh sizes : list nat) : bool :=
  (length sh <=? length sizes) &&
  forallb (fun p => (p.1 =? p.2) || (p.1 =? 1))
          (zip sh (drop (length sizes - length sh) sizes)).

(** The coordinate of the operand that a coordinate [c] of the expanded
    tensor reads: leading new dimensions are dropped, and stretched
    dimensions (size 1) read index 0. *)
Definition bcast_coords (sh c : list nat) : list nat :=
  zip_with (fun s i => if s =? 1 then 0 else i) sh (drop (length c - length sh) c).

(** [t.expand(sizes)] *)
Definition expand {X : Type} `{Inhabited X} (t : tensor X) (sizes : list nat)
  : result (tensor X) :=
  if expandable (shape t) sizes
  then Ok (Tensor sizes
             ((fun q => tget t (bcast_coords (shape t) (unravel sizes q)))
                <$> seq 0 (volume sizes)))
  else Raise RuntimeError.

(** [t.expand_as(other)] *)
Definition expand_as {X Y : Type} `{Inhabited X} (t : tensor X) (other : tensor Y)
  : result (tensor X) :=
  expand t (shape other).

(** [int(index.max().item())]: the reduction over all elements raises
    on a tensor without elements. *)
Definition max_item (index : tensor Z) : result Z :=
  match data index with
  | [] => Raise RuntimeError
  | v :: vs => Ok (foldl Z.max v vs)
  end.

(** *** Scatter and gather along a dimension *)

(** The position of [self] that element [q] of [index] selects: the
    coordinate of [q] with its entry at dimension [d] replaced by the
    index value found there. *)
Definition scatter_target (sh : list nat) (d : nat) (index : tensor Z) (q : nat) : nat :=
  ravel sh (<[d := Z.to_nat (data index !!! q)]> (unravel (shape index) q)).

(** One pass of a scatter kernel over the elements of [index], in
    row-major order: element [q] updates the position it selects. *)
Definition scatter_pass {A : Type} (upd : nat -> A -> A) (sh : list nat) (d : nat)
    (index : tensor Z) (out : list A) : list A :=
  foldl (fun o q => alter (upd q) (scatter_target sh d index q) o) out
        (seq 0 (numel index)).

(** [scatter_shape_check]: equal ranks, [index.size(k) <= self.size(k)]
    for [k <> d] and [index.size(k) <= src.size(k)] for all [k]. *)
Definition scatter_shape_ok (self_sh : list nat) (d : nat) (idx_sh src_sh : list nat) : bool :=
  (length self_sh =? length idx_sh) && (length src_sh =? length idx_sh) &&
  forallb (fun k => (k =? d) || (idx_sh !!! k <=? self_sh !!! k)) (seq 0 (length idx_sh)) &&
  forallb (fun k => idx_sh !!! k <=? src_sh !!! k) (seq 0 (length idx_sh)).

(** Every index value addresses dimension [d] of [self]. *)
Definition index_in_range (self_sh : list nat) (d : nat) (index : tensor Z) : bool :=
  forallb (fun g => (0 <=? g)%Z && (g <? Z.of_nat (self_sh !!! d))%Z) (data index).

(** The checks shared by [scatter_add] and [scatter_reduce]; an index
    without elements skips them and leaves [self] as it is. *)
Definition scatter_checked {A : Type} (self : tensor A) (dim : Z) (index : tensor Z)
    (src : tensor A) (kernel : nat -> list A) : result (tensor A) :=
  let* d := maybe_wrap_dim (ndim self) dim in
  if numel index =? 0 then Ok self
  else if negb (scatter_shape_ok (shape self) d (shape index) (shape src))
  then Raise RuntimeError
  else if negb (index_in_range (shape self) d index) then Raise RuntimeError
  else Ok (Tensor (shape self) (kernel d)).

(** The element of [src] that travels with element [q] of [index]. *)
Definition src_at {A : Type} `{Inhabited A} (src : tensor A) (index : tensor Z) (q : nat) : A :=
  tget src (unravel (shape index) q).

(** [self.scatter_add(dim, index, src)]:
    [self[index[i][j][k]][j][k] += src[i][j][k]] (for [dim = 0]), one
    element of [index] after the other, each addition made in the
    element type. This is the CPU kernel for the integer types,
    [torch.float32] and [torch.float64] ([native_sum] below). For
    [torch.float16] and [torch.bfloat16] the kernel accumulates in
    float32 and rounds each total once, which a fold of the element
    type's addition does not describe. *)
Definition scatter_add {A : Type} {dtype : Additive A} (self : tensor A) (dim : Z)
    (index : tensor Z) (src : tensor A) : result (tensor A) :=
  scatter_checked self dim index src (fun d =>
    scatter_pass (fun q o => add o (src_at src index q)) (shape self) d index (data self)).

(** The combining step of the [amax] reduction: a NaN operand wins,
    otherwise [std::max(self, src)]. *)
Definition amax {A : Type} {additive : Additive A} {dtype : Floating A} (o x : A) : A :=
  if is_nan x then x else if ltb o x then x else o.

(** [self.scatter_reduce(dim, index, src, reduce="amax",
    include_self=False)]: the selected positions are first reset to the
    identity of the reduction (negative infinity), then reduced. *)
Definition scatter_reduce_amax {A : Type} {additive : Additive A} {dtype : Floating A}
    (self : tensor A) (dim : Z)
    (index : tensor Z) (src : tensor A) : result (tensor A) :=
  scatter_checked self dim index src (fun d =>
    let init := scatter_pass (fun _ _ => neg_inf) (shape self) d index (data self) in
    scatter_pass (fun q o => amax o (src_at src index q)) (shape self) d index init).

(** [gather_shape_check]: equal ranks and
    [index.size(k) <= self.size(k)] for [k <> d]. *)
Definition gather_shape_ok (self_sh : list nat) (d : nat) (idx_sh : list nat) : bool :=
  (length self_sh =? length idx_sh) &&
  forallb (fun k => (k =? d) || (idx_sh !!! k <=? self_sh !!! k)) (seq 0 (length idx_sh)).

(** [self.gather(dim, index)]:
    [out[i][j][k] = self[index[i][j][k]][j][k]] (for [dim = 0]). *)
Definition gather {A : Type} `{Inhabited A} (self : tensor A) (dim : Z)
    (index : tensor Z) : result (tensor A) :=
  let* d := maybe_wrap_dim (ndim self) dim in
  if negb (gather_shape_ok (shape self) d (shape index)) then Raise RuntimeError
  else if negb (index_in_range (shape self) d index) then Raise RuntimeError
  else Ok (Tensor (shape index)
             ((fun q => data self !!! scatter_target (shape self) d index q)
                <$> seq 0 (numel index))).

(** *** Element-wise operations *)

Definition tmap {X Y : Type} (f : X -> Y) (t : tensor X) : tensor Y :=
  Tensor (shape t) (f <$> data t).

(** [t == v] for a scalar [v] *)
Definition eq_scalar {A : Type} {additive : Additive A} {dtype : Floating A}
    (t : tensor A) (v : A) : tensor bool :=
  tmap (fun x => eqb x v) t.

(** [torch.where(cond, a, b)] for operands of one shape *)
Definition where_ {A : Type} (cond : tensor bool) (a b : tensor A) : tensor A :=
  Tensor (shape cond)
         (zip_with (fun (c : bool) (p : A * A) => if c then p.1 else p.2)
                   (data cond) (zip (data a) (data b))).

(** [t + c] for a scalar [c] *)
Definition add_scalar {A : Type} {dtype : Additive A} (t : tensor A) (c : A) : tensor A :=
  tmap (fun x => add x c) t.

(** [t.clamp(min=1e-12)]: NaN is kept, smaller values are raised. *)
Definition clamp_min_eps {A : Type} {additive : Additive A} {dtype : Floating A}
    (t : tensor A) : tensor A :=
  tmap (fun x => if is_nan x then x else if ltb x eps then eps else x) t.

(** [torch.broadcast_shapes] on reversed shapes *)
Fixpoint broadcast_rev (a b : list nat) : result (list nat) :=
  match a, b with
  | [], _ => Ok b
  | _, [] => Ok a
  | x :: a', y :: b' =>
      let* r := broadcast_rev a' b' in
      if x =? y then Ok (x :: r)
      else if x =? 1 then Ok (y :: r)
      else if y =? 1 then Ok (x :: r)
      else Raise RuntimeError
  end.

Definition broadcast_shapes (a b : list nat) : result (list nat) :=
  let* r := broadcast_rev (rev a) (rev b) in Ok (rev r).

(** A binary element-wise operation ([a - b], [a / b]): the operands
    are broadcast to a common shape. *)
Definition binop {A : Type} `{Inhabited A} (f : A -> A -> A) (a b : tensor A)
  : result (tensor A) :=
  let* sh := broadcast_shapes (shape a) (shape b) in
  let* a' := expand a sh in
  let* b' := expand b sh in
  Ok (Tensor sh (zip_with f (data a') (data b'))).

End Torch.

(** ** dpvslam/scatter_ops.py *)

(** [dim_size] when the caller leaves it out: [int(index.max().item()) + 1]. *)
Definition infer_dim_size (index : tensor Z) (dim_size : option Z) : result Z :=
  match dim_size with
  | Some n => Ok n
  | None => let* m := Torch.max_item index in Ok (m + 1)%Z
  end.

(** [list(src.shape)] *)
Definition shape_list {X : Type} (t : tensor X) : list Z := Z.of_nat <$> shape t.

Definition _expand_index {X : Type} (index : tensor Z) (src : tensor X) (dim : Z)
  : result (tensor Z) :=
  if ndim index =? ndim src then Torch.expand_as index src
  else
    let* view_shape := Py.setitem (replicate (ndim src) 1) dim (numel index) in
    let* index := Torch.view index view_shape in
    let* n := Torch.size index dim in
    let* expand_shape := Py.setitem (shape src) dim n in
    Torch.expand index expand_shape.

Definition scatter_sum {A : Type} {dtype : Additive A} (src : tensor A) (index : tensor Z)
    (dim : Z) (dim_size : option Z) : result (tensor A) :=
  let* dim_size := infer_dim_size index dim_size in
  let* shape := Py.setitem (shape_list src) dim dim_size in
  let* index_expanded := _expand_index index src dim in
  let* out := Torch.zeros shape in
  Torch.scatter_add out dim index_expanded src.

Definition scatter_max {A : Type} {additive : Additive A} {dtype : Floating A}
    (src : tensor A) (index : tensor Z) (dim : Z) (dim_size : option Z)
  : result (tensor A * tensor Z) :=
  let* dim_size := infer_dim_size index dim_size in
  let* shape := Py.setitem (shape_list src) dim dim_size in
  let* index_expanded := _expand_index index src dim in
  let* out := Torch.full shape neg_inf in
  let* out := Torch.scatter_reduce_amax out dim index_expanded src in
  let out := Torch.where_ (Torch.eq_scalar out neg_inf) (Torch.zeros_like out) out in
  Ok (out, Torch.zeros_like_long out).

Definition scatter_softmax {A : Type} {additive : Additive A} {dtype : Floating A}
    (src : tensor A) (index : tensor Z) (dim : Z) (dim_size : option Z)
  : result (tensor A) :=
  let* dim_size := infer_dim_size index dim_size in
  let* index_expanded := _expand_index index src dim in
  let* mx := scatter_max src index dim (Some dim_size) in
  let max_vals := mx.1 in
  let* gathered := Torch.gather max_vals dim index_expanded in
  let* src_centered := Torch.binop sub src gathered in
  let src_exp := Torch.tmap exp src_centered in
  let* sum_exp := scatter_sum src_exp index dim (Some dim_size) in
  let* gathered_sum := Torch.gather sum_exp dim index_expanded in
  Torch.binop div src_exp (Torch.clamp_min_eps gathered_sum).

(** ** Element types of the runtime *)

(** [torch.int64]: two's-complement integers of 64 bits. *)
Definition wrap64 (z : Z) : Z := ((z + 2 ^ 63) mod 2 ^ 64 - 2 ^ 63)%Z.

Definition int64 : Additive Z := {|
  zero := 0%Z;
  add := fun x y => wrap64 (x + y)
|}.

(** IEEE 754 binary formats, after the Standard Library's executable
    specification [SpecFloat]: [prec] bits of mantissa and exponent bound
    [emax] ([24] and [128] for [torch.float32], [53] and [1024] for
    [torch.float64]); all operations round to nearest, ties to even. *)
Module IEEE.

Section Format.
Variables prec emax : Z.

Definition of_Z (z : Z) : spec_float := binary_normalize prec emax z 0 false.

(** Conversion of a Python float (a binary64 number) to the format. *)
Definition of_double (x : spec_float) : spec_float :=
  match x with
  | S754_finite s m e => binary_round prec emax s m e
  | _ => x
  end.

Definition sf_is_nan (x : spec_float) : bool :=
  match x with S754_nan => true | _ => false end.

(** The exponential is the platform's; it is modelled by evaluating
    [e^x = 2^k * e^r] with [r = x - k ln 2] in fixed point with [bits]
    fractional bits and rounding the result once to the format. It is
    exact at zero and at the infinities. *)
Definition bits : Z := 100.
Definition ln2_fixed : Z := 878668439483319573618263538048.

Fixpoint exp_series (n : nat) (i : Z) (r term acc : Z) : Z :=
  match n with
  | O => acc
  | S n' =>
      let term' := (term * r / (2 ^ bits * i))%Z in
      exp_series n' (i + 1)%Z r term' (acc + term')%Z
  end.

Definition exp_finite (s : bool) (m : positive) (e : Z) : spec_float :=
  let x := (cond_Zopp s (Z.shiftl (Zpos m) (e + bits)))%Z in
  if (emax * 2 ^ bits <=? x)%Z then S754_infinity false
  else if (x <=? - (emax + prec + 2) * 2 ^ bits)%Z then S754_zero false
  else
    let k := ((2 * x + ln2_fixed) / (2 * ln2_fixed))%Z in
    let r := (x - k * ln2_fixed)%Z in
    binary_normalize prec emax (exp_series 40 1 r (2 ^ bits) (2 ^ bits)) (k - bits) false.

Definition sf_exp (x : spec_float) : spec_float :=
  match x with
  | S754_nan => S754_nan
  | S754_infinity false => S754_infinity false
  | S754_infinity true => S754_zero false
  | S754_zero _ => of_Z 1
  | S754_finite s m e => exp_finite s m e
  end.

(** The Python literal [1e-12]: the binary64 number nearest to 10^-12. *)
Definition double_1e_12 : spec_float :=
  SFdiv 53 1024 (binary_normalize 53 1024 1 0 false)
                (binary_normalize 53 1024 (10 ^ 12) 0 false).

Definition additive : Additive spec_float := {|
  zero := S754_zero false;
  add := SFadd prec emax
|}.

(** The element type of the format, for a given implementation [exp_impl]
    of the exponential. *)
Definition floating (exp_impl : spec_float -> spec_float) : @Floating spec_float additive := {|
  neg_inf := S754_infinity true;
  is_nan := sf_is_nan;
  ltb := SFltb;
  eqb := SFeqb;
  sub := SFsub prec emax;
  div := SFdiv prec emax;
  exp := exp_impl;
  eps := of_double double_1e_12
|}.

End Format.

End IEEE.

(** [torch.float32], the default element type. *)
Definition float32 : Floating spec_float := IEEE.floating 24 128 (IEEE.sf_exp 24 128).

#[global] Instance spec_float_inhabited : Inhabited spec_float :=
  populate (S754_zero false).

Definition f32 (z : Z) : spec_float := IEEE.of_Z 24 128 z.

(** A decimal reading of a float32 value: [round (x * 10^digits)]. *)
Definition decimal (digits : Z) (x : spec_float) : option Z :=
  match x with
  | S754_zero _ => Some 0%Z
  | S754_finite s m e =>
      let n := (2 * Zpos m * 10 ^ digits)%Z in
      let v := if (0 <=? e)%Z then (n * 2 ^ e)%Z else (n / 2 ^ (- e))%Z in
      Some (cond_Zopp s ((v + 1) / 2))%Z
  | _ => None
  end.

(** * Vocabulary of the specification *)

(** The sizes [_expand_index] accepts and turns into the shape of [src]:
    an index of the rank of [src] must be expandable to its shape; an
    index of another rank is flattened along [dim], where it must have as
    many elements as [src] has entries. *)
Definition compatible {X : Type} (index : tensor Z) (src : tensor X) (dim : Z) : Prop :=
  if ndim index =? ndim src then Torch.expandable (shape index) (shape src) = true
  else exists d, Py.index (ndim src) dim = Ok d /\ numel index = shape src !!! d.

(** The coordinates of the elements that feed position [c] of a reduction
    along dimension [d]: those that agree with [c] outside [d] and whose
    (expanded) index value is the entry of [c] at [d], in increasing order
    of their own entry at [d]. *)
Definition group (idx : tensor Z) (d : nat) (c : list nat) : list (list nat) :=
  (fun i => <[d := i]> c)
    <$> filter (fun i => tget idx (<[d := i]> c) = Z.of_nat (c !!! d))
               (seq 0 (shape idx !!! d)).

(** The group count [n] of a call: [dim_size] when given, otherwise one
    more than the largest index value. *)
Definition is_group_count (index : tensor Z) (dim_size : option Z) (n : Z) : Prop :=
  match dim_size with
  | Some g => n = g
  | None => exists m, m ∈ data index /\ Forall (fun v => (v <= m)%Z) (data index) /\
                      n = (m + 1)%Z
  end.

(** The elements [scatter_reduce] leaves in the output of [scatter_max]. *)
Definition amax_reduced {A : Type} {additive : Additive A} {dtype : Floating A}
    (src : tensor A) (idx : tensor Z) (sh : list nat) (d : nat) : list A :=
  if numel idx =? 0 then replicate (volume sh) neg_inf
  else Torch.scatter_pass (fun q o => Torch.amax o (Torch.src_at src idx q)) sh d idx
         (Torch.scatter_pass (fun _ _ => neg_inf) sh d idx
            (replicate (volume sh) neg_inf)).

(** The value [scatter_max] reports for a group with elements [xs]. *)
Definition amax_group_value {A : Type} {additive : Additive A} {dtype : Floating A}
    (xs : list A) : A :=
  let m := foldl Torch.amax neg_inf xs in if eqb m neg_inf then zero else m.

(** The result of an [amax] reduction of a non-empty list, as defined by
    the runtime: an element of the list that is NaN when the list holds
    a NaN, and otherwise an element that no element of the list exceeds. *)
Definition is_amax {A : Type} {additive : Additive A} {dtype : Floating A}
    (m : A) (xs : list A) : Prop :=
  m ∈ xs /\
  if existsb is_nan xs then is_nan m = true else forall x, x ∈ xs -> ltb m x = false.

(** The maximum of a non-empty list of floating-point values, in the
    sense of the runtime ([torch.max], [amax]): NaN when the list holds a
    NaN, otherwise an element that is greater than or equal to every
    element. *)
Definition is_maximum (m : spec_float) (xs : list spec_float) : Prop :=
  m ∈ xs /\
  if existsb IEEE.sf_is_nan xs then m = S754_nan
  else forall x, x ∈ xs -> SFleb x m = true.

#[global] Instance spec_float_eq_dec : EqDecision spec_float.
Proof. solve_decision. Defined.

(** Adding [c] is exact on the entries of [src]: no entry becomes or
    stops being NaN or negative infinity, and the order and the
    difference of any two entries are the same after the addition. *)
Definition shift_exact (prec emax : Z) (c : spec_float) (src : tensor spec_float) : bool :=
  let shift x := SFadd prec emax x c in
  forallb (fun x =>
    Bool.eqb (IEEE.sf_is_nan (shift x)) (IEEE.sf_is_nan x) &&
    Bool.eqb (SFeqb (shift x) (S754_infinity true)) (SFeqb x (S754_infinity true)) &&
    forallb (fun y =>
      Bool.eqb (SFltb (shift x) (shift y)) (SFltb x y) &&
      bool_decide (SFsub prec emax (shift x) (shift y) = SFsub prec emax x y))
      (data src))
    (data src).

(** ** Groups of elements, values of the formats *)

(** The coordinates of the elements of [src] that share the group of the
    element at coordinate [c]. *)
Definition members (idx : tensor Z) (d : nat) (c : list nat) : list (list nat) :=
  group idx d (<[d := Z.to_nat (tget idx c)]> c).

(** The value [scatter_softmax] reports for an element [x] of a group
    with elements [xs]. *)
Definition softmax_group_value {A : Type} {additive : Additive A} {dtype : Floating A}
    (xs : list A) (x : A) : A :=
  let m := amax_group_value xs in
  let e := fun y => exp (sub y m) in
  let s := foldl add zero (e <$> xs) in
  div (e x) (if is_nan s then s else if ltb s eps then eps else s).


(** NaN, or a value whose sign is positive. *)
Definition sf_nonneg (x : spec_float) : bool :=
  match x with
  | S754_nan => true
  | S754_zero s | S754_infinity s | S754_finite s _ _ => negb s
  end.


(** The values of [torch.int64]. *)
Definition int64_range (z : Z) : Prop := (- 2 ^ 63 <= z < 2 ^ 63)%Z.

(** The offset in [index] of the element that the expansion of [index]
    to the shape [src_sh] holds at coordinate [c]. *)
Definition read_offset (index_sh src_sh : list nat) (d : nat) (c : list nat) : nat :=
  if length index_sh =? length src_sh
  then ravel index_sh (Torch.bcast_coords index_sh c)
  else c !!! d.

(** The index value of the element of [src] at coordinate [c], read off
    [index] itself: for an index of the rank of [src], its element at
    [c] with the coordinates of its dimensions of size 1 set to 0; for
    an index of another rank, its element numbered by the entry of [c]
    at [d]. *)
Definition index_value (index : tensor Z) (src_sh : list nat) (d : nat) (c : list nat) : Z :=
  data index !!! read_offset (shape index) src_sh d c.

(** The coordinates of the elements of a source of shape [src_sh] that
    [index] maps to position [c] of a reduction along [d]: those that
    agree with [c] outside [d] and whose index value is the entry of
    [c] at [d], in increasing order of their own entry at [d]. *)
Definition group_of (index : tensor Z) (src_sh : list nat) (d : nat) (c : list nat)
  : list (list nat) :=
  (fun i => <[d := i]> c)
    <$> filter (fun i => index_value index src_sh d (<[d := i]> c) = Z.of_nat (c !!! d))
               (seq 0 (src_sh !!! d)).

(** A shape with at most one dimension of a size other than 1. A tensor
    of such a shape can be viewed under every shape of as many
    elements, whatever its strides. *)
Definition lone_dimension (sh : list nat) : Prop :=
  length (filter (fun s => s <> 1) sh) <= 1.

(** The sizes and strides for which [_expand_index] gives [index] the
    shape of [src]: [compatible] sizes and, for an index of another
    rank than [src], a lone dimension to flatten. *)
Definition expands_to {X : Type} (index : tensor Z) (src : tensor X) (dim : Z) : Prop :=
  compatible index src dim /\ (ndim index = ndim src \/ lone_dimension (shape index)).

(** The element types whose sums [scatter_add] accumulates in the type
    itself, one addition after the other: [torch.int64],
    [torch.float32] and [torch.float64]. *)
Inductive native_sum : forall A : Type, Additive A -> Prop :=
  | native_int64 : native_sum Z int64
  | native_float32 : native_sum spec_float (IEEE.additive 24 128)
  | native_float64 : native_sum spec_float (IEEE.additive 53 1024).


(** * Properties *)

(** ** Evaluation *)

(** The example of the specification: [src = [1, 2, 3, 4]] and
    [index = [0, 0, 1, 1]] give the sums [[3, 7]], the maxima [[2, 4]]
    and a softmax of about [[0.2689, 0.7311, 0.2689, 0.7311]]. *)

Example scatter_sum_int64 :
  scatter_sum (dtype := int64) (Tensor [4] [1; 2; 3; 4]%Z) (Tensor [4] [0; 0; 1; 1]%Z) 0 None
  = Ok (Tensor [2] [3; 7]%Z).
Proof. vm_compute. reflexivity. Qed.

Example scatter_sum_f32 :
  scatter_sum (dtype := IEEE.additive 24 128) (Tensor [4] (f32 <$> [1; 2; 3; 4]%Z))
    (Tensor [4] [0; 0; 1; 1]%Z) 0 None
  = Ok (Tensor [2] (f32 <$> [3; 7]%Z)).
Proof. vm_compute. reflexivity. Qed.

Example scatter_max_f32 :
  scatter_max (dtype := float32) (Tensor [4] (f32 <$> [1; 2; 3; 4]%Z))
    (Tensor [4] [0; 0; 1; 1]%Z) 0 None
  = Ok (Tensor [2] (f32 <$> [2; 4]%Z), Tensor [2] [0; 0]%Z).
Proof. vm_compute. reflexivity. Qed.

Example scatter_softmax_f32 :
  exists out,
    scatter_softmax (dtype := float32) (Tensor [4] (f32 <$> [1; 2; 3; 4]%Z))
      (Tensor [4] [0; 0; 1; 1]%Z) 0 None = Ok out /\
    shape out = [4] /\
    decimal 4 <$> data out = [Some 2689; Some 7311; Some 2689; Some 7311]%Z.
Proof. eexists. split; [by vm_compute|]. split; by vm_compute. Qed.

(** An index of lower rank along the last dimension, and an index of
    the rank of [src] along the first. *)

Example scatter_sum_int64_2d :
  scatter_sum (dtype := int64) (Tensor [2; 3] [1; 2; 3; 4; 5; 6]%Z)
    (Tensor [3] [1; 0; 1]%Z) (-1) (Some 3%Z)
  = Ok (Tensor [2; 3] [2; 4; 0; 5; 10; 0]%Z).
Proof. vm_compute. reflexivity. Qed.

Example scatter_sum_int64_dim0 :
  scatter_sum (dtype := int64) (Tensor [2; 3] [1; 2; 3; 4; 5; 6]%Z)
    (Tensor [2; 3] [1; 0; 1; 1; 1; 0]%Z) 0 None
  = Ok (Tensor [2; 3] [0; 2; 6; 5; 5; 3]%Z).
Proof. vm_compute. reflexivity. Qed.

(** An index value outside the output and a dimension outside [src]
    raise. *)

Example scatter_sum_out_of_range :
  scatter_sum (dtype := int64) (Tensor [2] [1; 2]%Z) (Tensor [2] [0; 5]%Z) 0 (Some 2%Z)
  = Raise RuntimeError.
Proof. vm_compute. reflexivity. Qed.

Example scatter_sum_bad_dim :
  scatter_sum (dtype := int64) (Tensor [2] [1; 2]%Z) (Tensor [2] [0; 1]%Z) 1 None
  = Raise IndexError.
Proof. vm_compute. reflexivity. Qed.

(** ** The error monad *)

Lemma bind_ok {X Y : Type} (m : result X) (k : X -> result Y) (y : Y) :
  bind m k = Ok y <-> exists x, m = Ok x /\ k x = Ok y.
Proof.
  destruct m as [x|e]; simpl; split.
  - intros Hk. exists x. auto.
  - intros (x' & Hx & Hk). injection Hx as ->. exact Hk.
  - discriminate.
  - intros (x' & Hx & _). discriminate.
Qed.

(** ** Python indexing *)

Lemma py_index_ok (len : nat) (i : Z) (n : nat) :
  Py.index len i = Ok n ->
  n < len /\ (Z.of_nat n = i \/ Z.of_nat n = i + Z.of_nat len)%Z.
Proof.
  unfold Py.index.
  destruct (_ && _) eqn:Hpos.
  - intros [= <-]. apply andb_true_iff in Hpos as [H1 H2].
    apply Z.leb_le in H1. apply Z.ltb_lt in H2. lia.
  - clear Hpos. destruct (_ && _) eqn:Hneg; [|discriminate].
    intros [= <-]. apply andb_true_iff in Hneg as [H1 H2].
    apply Z.leb_le in H1. apply Z.ltb_lt in H2. lia.
Qed.

Lemma py_index_nonneg (len : nat) (i : Z) :
  (0 <= i < Z.of_nat len)%Z -> Py.index len i = Ok (Z.to_nat i).
Proof.
  intros Hi. unfold Py.index.
  replace (_ && _) with true; [reflexivity|].
  symmetry. apply andb_true_iff. split; [apply Z.leb_le|apply Z.ltb_lt]; lia.
Qed.

(** A negative index addresses the same element as the index counted from
    the front. *)
Lemma py_index_wrap (len : nat) (i : Z) :
  (- Z.of_nat len <= i < 0)%Z -> Py.index len i = Py.index len (i + Z.of_nat len).
Proof.
  intros Hi. rewrite (py_index_nonneg len (i + Z.of_nat len)) by lia.
  unfold Py.index.
  replace ((0 <=? i)%Z) with false by (symmetry; apply Z.leb_gt; lia).
  simpl.
  replace (_ && _) with true; [reflexivity|].
  symmetry. apply andb_true_iff. split; [apply Z.leb_le|apply Z.ltb_lt]; lia.
Qed.

Lemma py_index_of_nat (len n : nat) :
  n < len -> Py.index len (Z.of_nat n) = Ok n.
Proof.
  intros Hn. rewrite py_index_nonneg by lia. by rewrite Nat2Z.id.
Qed.

(** ** Row-major addressing *)

Lemma length_unravel (sh : list nat) (q : nat) : length (unravel sh q) = length sh.
Proof. revert q. induction sh as [|s sh IH]; intros q; simpl; [done|]. by rewrite IH. Qed.

Lemma in_bounds_length (sh c : list nat) : in_bounds sh c -> length c = length sh.
Proof. apply Forall2_length. Qed.

Lemma ravel_lt (sh c : list nat) : in_bounds sh c -> ravel sh c < volume sh.
Proof.
  intros Hc. induction Hc as [|i s c sh Hi Hc IH]; simpl; [lia|].
  fold (volume sh). nia.
Qed.

Lemma volume_pos (sh c : list nat) : in_bounds sh c -> 0 < volume sh.
Proof. intros Hc. apply ravel_lt in Hc. lia. Qed.

Lemma unravel_in_bounds (sh : list nat) (q : nat) :
  q < volume sh -> in_bounds sh (unravel sh q).
Proof.
  revert q. induction sh as [|s sh IH]; intros q Hq; simpl.
  - constructor.
  - simpl in Hq. fold (volume sh) in Hq.
    assert (0 < volume sh) by nia.
    constructor.
    + apply Nat.Div0.div_lt_upper_bound. lia.
    + apply IH. apply Nat.mod_upper_bound. lia.
Qed.

Lemma ravel_unravel (sh : list nat) (q : nat) :
  q < volume sh -> ravel sh (unravel sh q) = q.
Proof.
  revert q. induction sh as [|s sh IH]; intros q Hq; simpl.
  - simpl in Hq. lia.
  - simpl in Hq. fold (volume sh) in Hq.
    assert (0 < volume sh) by nia.
    rewrite IH by (apply Nat.mod_upper_bound; lia).
    pose proof (Nat.div_mod_eq q (volume sh)). lia.
Qed.

Lemma unravel_ravel (sh c : list nat) :
  in_bounds sh c -> unravel sh (ravel sh c) = c.
Proof.
  intros Hc. induction Hc as [|i s c sh Hi Hc IH]; simpl; [done|].
  fold (volume sh). pose proof (ravel_lt _ _ Hc) as Hr.
  f_equal.
  - rewrite Nat.div_add_l by lia. rewrite Nat.div_small by lia. lia.
  - rewrite Nat.add_comm, Nat.Div0.mod_add, Nat.mod_small by lia. exact IH.
Qed.

Lemma ravel_inj (sh c1 c2 : list nat) :
  in_bounds sh c1 -> in_bounds sh c2 -> ravel sh c1 = ravel sh c2 -> c1 = c2.
Proof.
  intros H1 H2 Heq.
  rewrite <- (unravel_ravel sh c1 H1), <- (unravel_ravel sh c2 H2). by rewrite Heq.
Qed.

(** Replacing one coordinate. *)

Lemma in_bounds_insert (sh c : list nat) (d i n : nat) :
  in_bounds sh c -> i < n -> in_bounds (<[d := n]> sh) (<[d := i]> c).
Proof. intros Hc Hi. by apply Forall2_insert. Qed.

Lemma in_bounds_lookup (sh c : list nat) (d : nat) :
  in_bounds sh c -> d < length sh -> c !!! d < sh !!! d.
Proof.
  intros Hc Hd.
  assert (is_Some (c !! d)) as [i Hi].
  { apply lookup_lt_is_Some. by rewrite (in_bounds_length sh c). }
  assert (is_Some (sh !! d)) as [s Hs] by by apply lookup_lt_is_Some.
  rewrite (list_lookup_total_correct _ _ _ Hi), (list_lookup_total_correct _ _ _ Hs).
  eapply (Forall2_lookup_lr _ c sh d); eauto.
Qed.

(** Moving along dimension [d] is strictly monotone in the offset. *)
Lemma ravel_insert_lt (sh c : list nat) (d i j : nat) :
  in_bounds sh (<[d := j]> c) -> d < length sh -> i < j ->
  ravel sh (<[d := i]> c) < ravel sh (<[d := j]> c).
Proof.
  revert c d. induction sh as [|s sh IH]; intros c d Hc Hd Hij; simpl in Hd; [lia|].
  destruct c as [|x c]; [inversion Hc|].
  destruct d as [|d]; simpl in *.
  - inversion Hc; subst. pose proof (volume_pos sh c ltac:(done)). fold (volume sh). nia.
  - inversion Hc; subst. fold (volume sh).
    assert (ravel sh (<[d:=i]> c) < ravel sh (<[d:=j]> c)); [|lia].
    apply IH; [done|lia|done].
Qed.

(** ** The scatter kernel *)

(** After a pass over the positions [qs], the value at position [t] is
    the old value updated, in order, by the elements that select [t]. *)
Lemma scatter_fold_lookup {A : Type} `{Inhabited A} (upd : nat -> A -> A)
    (tgt : nat -> nat) (qs : list nat) (out : list A) (t : nat) :
  t < length out ->
  foldl (fun o q => alter (upd q) (tgt q) o) out qs !!! t
  = foldl (fun a q => upd q a) (out !!! t) (filter (fun q => tgt q = t) qs).
Proof.
  revert out. induction qs as [|q qs IH]; intros out Ht; simpl; [done|].
  rewrite IH by by rewrite length_alter.
  destruct (decide (tgt q = t)) as [Heq|Hne].
  - rewrite filter_cons_True by done. simpl. subst t.
    by rewrite list_lookup_total_alter_eq.
  - rewrite filter_cons_False by done.
    by rewrite list_lookup_total_alter_ne.
Qed.

Lemma scatter_fold_length {A : Type} (upd : nat -> A -> A) (tgt : nat -> nat)
    (qs : list nat) (out : list A) :
  length (foldl (fun o q => alter (upd q) (tgt q) o) out qs) = length out.
Proof.
  revert out. induction qs as [|q qs IH]; intros out; simpl; [done|].
  by rewrite IH, length_alter.
Qed.

(** Selecting by a predicate on offsets is selecting along a strictly
    increasing enumeration of those offsets. *)
Lemma filter_seq_reindex (f : nat -> nat) (P Q : nat -> Prop)
    `{!forall q, Decision (P q)} `{!forall i, Decision (Q i)} (n N : nat) :
  (forall i j, i < j -> j < n -> f i < f j) ->
  (forall q, q < N -> P q <-> exists i, i < n /\ f i = q /\ Q i) ->
  (forall i, i < n -> f i < N) ->
  filter P (seq 0 N) = f <$> filter Q (seq 0 n).
Proof.
  intros Hmono HP HN.
  assert (forall i j, i < n -> j < n -> f i = f j -> i = j) as Hinj.
  { intros i j Hi Hj Hf. destruct (Nat.lt_trichotomy i j) as [Hlt|[->|Hlt]]; [|done|].
    - specialize (Hmono i j Hlt Hj). lia.
    - specialize (Hmono j i Hlt Hi). lia. }
  assert (forall l : list nat, StronglySorted lt l -> forall R : nat -> Prop,
            forall (HR : forall x, Decision (R x)), StronglySorted lt (filter R l)) as Hfilt.
  { intros l Hl R HR. induction Hl as [|x l Hl IH Hx]; [constructor|].
    rewrite filter_cons. destruct (decide (R x)); [|done].
    constructor; [done|]. rewrite Forall_forall in *.
    intros y [_ Hy]%list_elem_of_filter. auto. }
  assert (forall a m, StronglySorted lt (seq a m)) as Hseq.
  { intros a m. revert a. induction m as [|m IH]; intros a; simpl; constructor; [apply IH|].
    apply Forall_forall. intros y Hy%elem_of_seq. lia. }
  apply (StronglySorted_unique_strong lt).
  - intros; lia.
  - apply Hfilt, Hseq.
  - assert (forall l : list nat, StronglySorted lt l -> Forall (fun i => i < n) l ->
              StronglySorted lt (f <$> l)) as Hmap.
    { intros l Hl. induction Hl as [|x l Hl IH Hx]; intros Hb; [constructor|].
      inversion Hb; subst. rewrite fmap_cons. constructor; [by apply IH|].
      rewrite Forall_forall in *. intros y (z & -> & Hz)%list_elem_of_fmap.
      apply Hmono; auto. }
    apply Hmap; [apply Hfilt, Hseq|].
    apply Forall_forall. intros i [_ Hi%elem_of_seq]%list_elem_of_filter. lia.
  - apply NoDup_Permutation.
    + apply NoDup_filter, NoDup_seq.
    + apply NoDup_fmap_2_strong; [|apply NoDup_filter, NoDup_seq].
      intros i j [_ Hi%elem_of_seq]%list_elem_of_filter
                 [_ Hj%elem_of_seq]%list_elem_of_filter Hf.
      apply Hinj; [lia..|done].
    + intros q. rewrite list_elem_of_filter, elem_of_seq, list_elem_of_fmap. split.
      * intros [HPq Hq]. apply HP in HPq as (i & Hi & Hfi & HQ); [|lia].
        exists i. split; [done|]. apply list_elem_of_filter. split; [done|].
        apply elem_of_seq. lia.
      * intros (i & -> & [HQ Hi%elem_of_seq]%list_elem_of_filter).
        assert (f i < N) by (apply HN; lia).
        split; [|lia]. apply HP; [done|]. exists i. split; [lia|done].
Qed.

(** ** Broadcasting *)

Lemma forallb_zip_Forall2 {X Y : Type} (f : X * Y -> bool) (l1 : list X) (l2 : list Y) :
  length l1 = length l2 ->
  forallb f (zip l1 l2) = true <-> Forall2 (fun x y => f (x, y) = true) l1 l2.
Proof.
  revert l2. induction l1 as [|x l1 IH]; intros [|y l2] Hlen; try done.
  simpl. rewrite andb_true_iff, IH by (by injection Hlen). split.
  - intros [Hx Hl]. by constructor.
  - intros Hall. by inversion Hall.
Qed.

Lemma expandable_spec (sh sizes : list nat) :
  Torch.expandable sh sizes = true <->
  length sh <= length sizes /\
  Forall2 (fun s n => s = n \/ s = 1) sh (drop (length sizes - length sh) sizes).
Proof.
  unfold Torch.expandable. rewrite andb_true_iff, Nat.leb_le.
  assert (forall s n : nat, (s =? n) || (s =? 1) = true <-> s = n \/ s = 1) as Hor.
  { intros s n. by rewrite orb_true_iff, !Nat.eqb_eq. }
  split; intros [Hlen Hall]; (split; [done|]).
  - apply forallb_zip_Forall2 in Hall; [|rewrite length_drop; lia].
    eapply Forall2_impl; [exact Hall|]. intros s n Hs. by apply Hor.
  - apply forallb_zip_Forall2; [rewrite length_drop; lia|].
    eapply Forall2_impl; [exact Hall|]. intros s n Hs. by apply Hor.
Qed.

Lemma bcast_coords_in_bounds (sh sizes c : list nat) :
  Torch.expandable sh sizes = true -> in_bounds sizes c ->
  in_bounds sh (Torch.bcast_coords sh c).
Proof.
  intros [Hlen Hexp]%expandable_spec Hc. unfold Torch.bcast_coords.
  rewrite (in_bounds_length sizes c Hc).
  apply (Forall2_drop _ _ _ (length sizes - length sh)) in Hc.
  revert Hc Hexp.
  generalize (drop (length sizes - length sh) sizes) as l.
  generalize (drop (length sizes - length sh) c) as c'. clear.
  induction sh as [|s sh IH]; intros c' l Hc Hexp.
  - inversion Hexp; subst. inversion Hc; subst. constructor.
  - inversion Hexp as [|? n ? l' Hs Hexp']; subst.
    inversion Hc as [|i ? c'' ? Hi Hc']; subst.
    simpl. constructor; [|by eapply IH].
    destruct (s =? 1) eqn:E.
    + apply Nat.eqb_eq in E. lia.
    + apply Nat.eqb_neq in E. lia.
Qed.

Lemma expand_ok {X : Type} `{Inhabited X} (t : tensor X) (sizes : list nat) (t' : tensor X) :
  Torch.expand t sizes = Ok t' ->
  Torch.expandable (shape t) sizes = true /\ shape t' = sizes /\ wf t' /\
  forall q, q < volume sizes ->
    data t' !!! q = tget t (Torch.bcast_coords (shape t) (unravel sizes q)).
Proof.
  unfold Torch.expand. destruct (Torch.expandable _ _) eqn:E; [|discriminate].
  intros [= <-]. simpl. split; [done|]. split; [done|]. split.
  - unfold wf, numel. simpl. by rewrite length_fmap, length_seq.
  - intros q Hq. rewrite (@list_lookup_total_fmap _ _ _ _ _) by by rewrite length_seq.
    by rewrite lookup_total_seq_lt.
Qed.

(** Expanding repeats elements, it makes no new ones. *)
Lemma expand_elem_of {X : Type} `{Inhabited X} (t : tensor X) (sizes : list nat)
    (t' : tensor X) (x : X) :
  wf t -> Torch.expand t sizes = Ok t' -> x ∈ data t' -> x ∈ data t.
Proof.
  intros Hwf Hexp Hx. pose proof (expand_ok _ _ _ Hexp) as (Hable & Hsh & Hwf' & Hdata).
  apply list_elem_of_lookup_total in Hx as (q & Hq & <-).
  rewrite Hwf' in Hq. unfold numel in Hq. rewrite Hsh in Hq.
  rewrite Hdata by done. unfold tget.
  apply list_elem_of_lookup_total_2. rewrite Hwf. unfold numel.
  apply ravel_lt, (bcast_coords_in_bounds _ sizes); [done|].
  by apply unravel_in_bounds.
Qed.

Lemma volume_replicate_1 (r : nat) : volume (replicate r 1) = 1.
Proof. induction r as [|r IH]; simpl; [done|]. fold (volume (replicate r 1)). lia. Qed.

Lemma volume_insert_replicate_1 (r d n : nat) :
  d < r -> volume (<[d := n]> (replicate r 1)) = n.
Proof.
  revert d. induction r as [|r IH]; intros d Hd; [lia|].
  destruct d as [|d]; simpl.
  - fold (volume (replicate r 1)). rewrite volume_replicate_1. lia.
  - fold (volume (<[d:=n]> (replicate r 1))). rewrite IH by lia. lia.
Qed.

(** ** Index expansion *)

(** An index of another rank than [src] is always accepted when [dim] is
    a dimension of [src]; the result has the number of elements of
    [index] along [dim]. *)
Lemma expand_index_flat {X : Type} (index : tensor Z) (src : tensor X) (dim : Z) (d : nat) :
  ndim index <> ndim src -> Py.index (ndim src) dim = Ok d ->
  exists idx, _expand_index index src dim = Ok idx /\
    shape idx = <[d := numel index]> (shape src) /\ wf idx /\
    forall q, q < volume (shape idx) ->
      data idx !!! q = data index !!! (unravel (shape idx) q !!! d).
Proof.
  intros Hrank Hd. pose proof (py_index_ok _ _ _ Hd) as [Hlt _].
  unfold _expand_index. apply Nat.eqb_neq in Hrank. rewrite Hrank.
  unfold Py.setitem at 1. rewrite length_replicate, Hd. simpl.
  unfold Torch.view. rewrite volume_insert_replicate_1 by done.
  rewrite Nat.eqb_refl. simpl.
  unfold Torch.size, Py.getitem. simpl.
  rewrite length_insert, length_replicate, Hd. simpl.
  rewrite list_lookup_total_insert_eq by by rewrite length_replicate.
  unfold Py.setitem. fold (ndim src). rewrite Hd. simpl.
  destruct (Torch.expand _ _) as [idx|e] eqn:Hexp.
  - exists idx. split; [done|].
    pose proof (expand_ok _ _ _ Hexp) as (Hable & Hsh & Hwf & Hdata).
    split; [done|]. split; [done|].
    intros q Hq. rewrite Hsh in Hq |- *. rewrite Hdata by done.
    unfold tget. simpl. f_equal.
    assert (in_bounds (<[d:=numel index]> (shape src))
              (unravel (<[d:=numel index]> (shape src)) q)) as Hb
      by by apply unravel_in_bounds.
    revert Hb. generalize (unravel (<[d:=numel index]> (shape src)) q) as c.
    unfold Torch.bcast_coords. intros c Hb.
    rewrite length_insert, length_replicate.
    rewrite (in_bounds_length _ _ Hb), length_insert. fold (ndim src).
    rewrite Nat.sub_diag. simpl.
    revert Hb Hlt. unfold ndim. generalize (shape src) as sh. generalize (numel index) as n.
    clear. intros n sh. revert d c.
    induction sh as [|s sh IH]; intros d c Hb Hd; simpl in Hd; [lia|].
    destruct d as [|d]; (destruct c as [|i c]; [inversion Hb|]); simpl in *.
    + inversion Hb; subst. fold (volume (replicate (length sh) 1)).
      rewrite volume_replicate_1.
      assert (ravel (replicate (length sh) 1)
                (zip_with (fun s i => if s =? 1 then 0 else i) (replicate (length sh) 1) c) = 0)
        as ->.
      { clear. revert c. induction sh as [|s sh IH]; intros [|i c]; simpl; done. }
      destruct (n =? 1) eqn:E; [apply Nat.eqb_eq in E|]; lia.
    + inversion Hb; subst. apply (IH d c); [done|lia].
  - exfalso.
    unfold Torch.expand in Hexp. simpl in Hexp.
    assert (Torch.expandable (<[d:=numel index]> (replicate (ndim src) 1))
              (<[d:=numel index]> (shape src)) = true) as Hable; [|by rewrite Hable in Hexp].
    apply expandable_spec. rewrite !length_insert, length_replicate. fold (ndim src).
    split; [done|]. rewrite Nat.sub_diag. simpl.
    apply Forall2_insert; [|by left].
    apply Forall2_same_length_lookup_2; [by rewrite length_replicate|].
    intros k s n [-> _]%lookup_replicate _. by right.
Qed.

(** The expanded index of an index of another rank is constant along
    every dimension but [dim]: at coordinate [c] it holds the element of
    [index] numbered by the entry of [c] at [dim]. *)
Lemma expand_index_flat_value {X : Type} (index : tensor Z) (src : tensor X) (dim : Z)
    (d : nat) (idx : tensor Z) (c : list nat) :
  ndim index <> ndim src -> Py.index (ndim src) dim = Ok d ->
  _expand_index index src dim = Ok idx -> in_bounds (shape idx) c ->
  tget idx c = data index !!! (c !!! d).
Proof.
  intros Hrank Hd Hidx Hc.
  destruct (expand_index_flat index src dim d Hrank Hd) as (idx' & Hidx' & _ & _ & Hval).
  rewrite Hidx in Hidx'. injection Hidx' as <-.
  unfold tget. rewrite Hval by by apply ravel_lt. by rewrite unravel_ravel.
Qed.

Lemma expand_index_same_rank {X : Type} (index : tensor Z) (src : tensor X) (dim : Z) :
  ndim index = ndim src ->
  _expand_index index src dim = Torch.expand index (shape src).
Proof. intros Hrank. unfold _expand_index. apply Nat.eqb_eq in Hrank. by rewrite Hrank. Qed.

(** C5. For an index whose sizes are compatible with [src] (expandable to
    its shape when the ranks agree; otherwise holding as many elements as
    [src] has entries along [dim]), [_expand_index] returns an index of
    exactly the shape of [src], in every dimension. *)
Theorem expand_index_shape {X : Type} (index : tensor Z) (src : tensor X) (dim : Z) :
  compatible index src dim ->
  exists idx, _expand_index index src dim = Ok idx /\ shape idx = shape src.
Proof.
  unfold compatible. destruct (ndim index =? ndim src) eqn:Hrank.
  - intros Hable. apply Nat.eqb_eq in Hrank. rewrite expand_index_same_rank by done.
    unfold Torch.expand. rewrite Hable. eexists. split; [done|]. done.
  - intros (d & Hd & Hn). apply Nat.eqb_neq in Hrank.
    destruct (expand_index_flat index src dim d Hrank Hd) as (idx & Hidx & Hsh & _).
    exists idx. split; [done|]. rewrite Hsh, Hn.
    apply list_insert_id'. intros Hlt. by apply list_lookup_lookup_total_lt.
Qed.

Lemma expand_index_wf {X : Type} (index : tensor Z) (src : tensor X) (dim : Z)
    (idx : tensor Z) :
  _expand_index index src dim = Ok idx -> wf idx.
Proof.
  unfold _expand_index. destruct (_ =? _).
  - intros Hexp. by apply expand_ok in Hexp as (_ & _ & Hwf & _).
  - intros (vs & _ & (v & _ & (n & _ & (es & _ & Hexp)%bind_ok)%bind_ok)%bind_ok)%bind_ok.
    by apply expand_ok in Hexp as (_ & _ & Hwf & _).
Qed.

(** The expanded index holds index values of [index] only. *)
Lemma expand_index_elem_of {X : Type} (index : tensor Z) (src : tensor X) (dim : Z)
    (idx : tensor Z) (v : Z) :
  wf index -> _expand_index index src dim = Ok idx -> v ∈ data idx -> v ∈ data index.
Proof.
  intros Hwf. unfold _expand_index. destruct (_ =? _).
  - intros Hexp Hv. by eapply expand_elem_of.
  - intros (vs & _ & (t & Hview & (n & _ & (es & _ & Hexp)%bind_ok)%bind_ok)%bind_ok)%bind_ok Hv.
    unfold Torch.view in Hview. destruct (volume vs =? numel index) eqn:E; [|done].
    injection Hview as <-. apply Nat.eqb_eq in E.
    apply (expand_elem_of (Tensor vs (data index)) es idx v); [|done..].
    unfold wf, numel. simpl. by rewrite E.
Qed.

(** The expanded index of compatible operands, with what the reductions
    use of it: its shape, its element count, and where its values come
    from. *)
Lemma expand_index_compatible {X : Type} (index : tensor Z) (src : tensor X) (dim : Z) :
  compatible index src dim ->
  exists idx, _expand_index index src dim = Ok idx /\ shape idx = shape src /\ wf idx.
Proof.
  intros Hcompat. unfold compatible in Hcompat.
  destruct (_expand_index index src dim) as [idx|e] eqn:Hidx.
  - exists idx. split; [done|]. split; [|by eapply expand_index_wf].
    destruct (ndim index =? ndim src) eqn:Hrank.
    + apply Nat.eqb_eq in Hrank. rewrite expand_index_same_rank in Hidx by done.
      by apply expand_ok in Hidx as (_ & -> & _).
    + destruct Hcompat as (d & Hd & Hn). apply Nat.eqb_neq in Hrank.
      destruct (expand_index_flat index src dim d Hrank Hd) as (idx' & Hidx' & Hsh & _).
      rewrite Hidx in Hidx'. injection Hidx' as <-. rewrite Hsh, Hn.
      apply list_insert_id'. intros Hlt. by apply list_lookup_lookup_total_lt.
  - exfalso. destruct (ndim index =? ndim src) eqn:Hrank.
    + apply Nat.eqb_eq in Hrank. rewrite expand_index_same_rank in Hidx by done.
      unfold Torch.expand in Hidx. by rewrite Hcompat in Hidx.
    + destruct Hcompat as (d & Hd & Hn). apply Nat.eqb_neq in Hrank.
      destruct (expand_index_flat index src dim d Hrank Hd) as (idx' & Hidx' & _).
      by rewrite Hidx in Hidx'.
Qed.

(** ** Groups *)

Lemma elem_of_group (idx : tensor Z) (d : nat) (c c' : list nat) :
  c' ∈ group idx d c <->
  exists i, i < shape idx !!! d /\ c' = <[d := i]> c /\ tget idx c' = Z.of_nat (c !!! d).
Proof.
  unfold group. rewrite list_elem_of_fmap. split.
  - intros (i & -> & [Hi Hlt%elem_of_seq]%list_elem_of_filter). exists i. split; [lia|done].
  - intros (i & Hlt & -> & Hi). exists i. split; [done|].
    apply list_elem_of_filter. split; [done|]. apply elem_of_seq. lia.
Qed.

(** Each element of a group is listed once. *)
Lemma NoDup_group (idx : tensor Z) (d : nat) (c : list nat) :
  d < length c -> NoDup (group idx d c).
Proof.
  intros Hd. unfold group. apply NoDup_fmap_2_strong; [|apply NoDup_filter, NoDup_seq].
  intros i j _ _ Heq.
  assert (<[d := i]> c !! d = <[d := j]> c !! d) as Hlook by by rewrite Heq.
  rewrite !list_lookup_insert_eq in Hlook by done. by injection Hlook.
Qed.

Lemma in_bounds_insert_back (sh c : list nat) (d n i : nat) :
  in_bounds (<[d := n]> sh) c -> d < length sh -> i < sh !!! d ->
  in_bounds sh (<[d := i]> c).
Proof.
  intros Hc Hd Hi.
  rewrite <- (list_insert_id sh d (sh !!! d)) by by apply list_lookup_lookup_total_lt.
  rewrite <- (list_insert_insert_eq sh d (sh !!! d) n).
  by apply in_bounds_insert.
Qed.

Lemma foldl_ext_elem {A B : Type} (f g : A -> B -> A) (a : A) (l : list B) :
  (forall x b, b ∈ l -> f x b = g x b) -> foldl f a l = foldl g a l.
Proof.
  revert a. induction l as [|b l IH]; intros a Hfg; simpl; [done|].
  rewrite Hfg by left. apply IH. intros x b' Hb'. apply Hfg. by right.
Qed.

Lemma index_in_range_lookup (sh : list nat) (d : nat) (idx : tensor Z) (q : nat) :
  Torch.index_in_range sh d idx = true -> q < length (data idx) ->
  (0 <= data idx !!! q < Z.of_nat (sh !!! d))%Z.
Proof.
  unfold Torch.index_in_range. rewrite forallb_forall. intros Hall Hq.
  specialize (Hall (data idx !!! q)).
  rewrite andb_true_iff, Z.leb_le, Z.ltb_lt in Hall. apply Hall.
  apply list_elem_of_In. by apply list_elem_of_lookup_total_2.
Qed.

(** What a scatter pass leaves at position [c]: the old value, updated in
    turn by each element of the group of [c]. *)
Lemma scatter_pass_group {A : Type} `{Inhabited A} (g : list nat -> A -> A)
    (idx : tensor Z) (d G : nat) (out : list A) (c : list nat) :
  let sh := <[d := G]> (shape idx) in
  wf idx -> d < length (shape idx) ->
  Torch.index_in_range sh d idx = true ->
  in_bounds sh c -> length out = volume sh ->
  Torch.scatter_pass (fun q => g (unravel (shape idx) q)) sh d idx out !!! ravel sh c
  = foldl (fun a c' => g c' a) (out !!! ravel sh c) (group idx d c).
Proof.
  intros sh Hwf Hd Hrange Hc Hlen. unfold Torch.scatter_pass.
  rewrite scatter_fold_lookup by (rewrite Hlen; by apply ravel_lt).
  assert (sh !!! d = G) as HG by (by apply list_lookup_total_insert_eq).
  assert (length sh = length (shape idx)) as Hlsh by apply length_insert.
  rewrite (filter_seq_reindex (fun i => ravel (shape idx) (<[d := i]> c)) _
             (fun i => tget idx (<[d := i]> c) = Z.of_nat (c !!! d))
             (shape idx !!! d) (numel idx)).
  - unfold group. rewrite !foldl_fmap. apply foldl_ext_elem.
    intros a i [_ Hi%elem_of_seq]%list_elem_of_filter.
    rewrite unravel_ravel; [done|].
    apply (in_bounds_insert_back _ _ _ G); [done|done|lia].
  - intros i j Hij Hj. apply ravel_insert_lt; [|done|done].
    by apply (in_bounds_insert_back _ _ _ G).
  - intros q Hq.
    pose proof (unravel_in_bounds _ _ Hq) as Hu.
    pose proof (index_in_range_lookup _ _ _ q Hrange ltac:(by rewrite Hwf)) as Hg.
    rewrite HG in Hg. unfold Torch.scatter_target.
    set (u := unravel (shape idx) q) in *. set (v := data idx !!! q) in *.
    assert (length u = length (shape idx)) as Hlu by by apply in_bounds_length.
    split.
    + intros Heq. apply ravel_inj in Heq; [|apply in_bounds_insert; [done|lia]|done].
      exists (u !!! d). split; [by apply in_bounds_lookup|].
      assert (<[d := u !!! d]> c = u) as Hcu.
      { rewrite <- Heq, list_insert_insert_eq. apply list_insert_id.
        apply list_lookup_lookup_total_lt. lia. }
      rewrite Hcu. split; [by apply ravel_unravel|].
      unfold tget. subst u. rewrite ravel_unravel by done. fold v.
      rewrite <- Heq, list_lookup_total_insert_eq by lia. lia.
    + intros (i & Hi & Hq' & HQ).
      assert (in_bounds (shape idx) (<[d := i]> c)) as Hic
        by by apply (in_bounds_insert_back _ _ _ G).
      assert (u = <[d := i]> c) as ->.
      { subst u. rewrite <- Hq'. by apply unravel_ravel. }
      unfold tget in HQ. rewrite Hq' in HQ. fold v in HQ.
      rewrite list_insert_insert_eq. f_equal. apply list_insert_id.
      rewrite HQ, Nat2Z.id. apply list_lookup_lookup_total_lt.
      rewrite (in_bounds_length _ _ Hc). lia.
  - intros i Hi. apply ravel_lt. by apply (in_bounds_insert_back _ _ _ G).
Qed.

(** ** Running the reductions *)

Lemma setitem_ok {X : Type} (l : list X) (dim : Z) (d : nat) (x : X) :
  Py.index (length l) dim = Ok d -> Py.setitem l dim x = Ok (<[d := x]> l).
Proof. intros Hd. unfold Py.setitem. by rewrite Hd. Qed.

Lemma length_shape_list {X : Type} (t : tensor X) : length (shape_list t) = ndim t.
Proof. unfold shape_list. by rewrite length_fmap. Qed.

Lemma maybe_wrap_dim_ok (r : nat) (dim : Z) (d : nat) :
  Py.index r dim = Ok d -> Torch.maybe_wrap_dim r dim = Ok d.
Proof.
  intros Hd. pose proof (py_index_ok _ _ _ Hd) as [Hlt _].
  unfold Torch.maybe_wrap_dim. by replace (Nat.max r 1) with r by lia.
Qed.

Lemma to_nat_insert_shape_list {X : Type} (t : tensor X) (d : nat) (n : Z) :
  Z.to_nat <$> <[d := n]> (shape_list t) = <[d := Z.to_nat n]> (shape t).
Proof.
  unfold shape_list. rewrite list_fmap_insert, <- list_fmap_compose.
  f_equal. rewrite <- (list_fmap_id (shape t)) at 2.
  apply list_fmap_ext. intros i s _. simpl. apply Nat2Z.id.
Qed.

Lemma full_ok {X Y : Type} (t : tensor X) (d : nat) (n : Z) (v : Y) :
  (0 <= n)%Z ->
  Torch.full (<[d := n]> (shape_list t)) v
  = Ok (Tensor (<[d := Z.to_nat n]> (shape t))
          (replicate (volume (<[d := Z.to_nat n]> (shape t))) v)).
Proof.
  intros Hn. unfold Torch.full.
  replace (forallb _ _) with true; [by rewrite to_nat_insert_shape_list|].
  symmetry. apply forallb_forall. intros s Hs. apply Z.leb_le.
  apply list_elem_of_In, list_elem_of_lookup in Hs as [k Hk].
  apply list_lookup_insert_Some in Hk as [(_ & <- & _)|[_ Hk]]; [done|].
  unfold shape_list in Hk. apply list_lookup_fmap_Some in Hk as (s' & -> & _). lia.
Qed.

(** A negative size is refused. *)
Lemma full_raise_neg {X Y : Type} (t : tensor X) (d : nat) (n : Z) (v : Y) :
  d < ndim t -> (n < 0)%Z ->
  Torch.full (<[d := n]> (shape_list t)) v = Raise RuntimeError.
Proof.
  intros Hd Hn. unfold Torch.full.
  replace (forallb _ _) with false; [done|].
  symmetry. apply not_true_iff_false. rewrite forallb_forall. intros Hall.
  specialize (Hall n). rewrite Z.leb_le in Hall.
  enough (In n (<[d:=n]> (shape_list t))) by (specialize (Hall ltac:(done)); lia).
  apply list_elem_of_In, list_elem_of_lookup. exists d.
  apply list_lookup_insert_eq. by rewrite length_shape_list.
Qed.

Lemma volume_zero_along (sh c : list nat) (d n : nat) :
  in_bounds (<[d := n]> sh) c -> d < length sh -> volume sh = 0 -> sh !!! d = 0.
Proof.
  intros Hc Hd Hvol. destruct (sh !!! d) as [|k] eqn:E; [done|].
  assert (in_bounds sh (<[d := 0]> c)) as Hb
    by (apply (in_bounds_insert_back _ _ _ n); [done|done|lia]).
  apply volume_pos in Hb. lia.
Qed.

(** The checks of a scatter pass for an index of the shape of [src] whose
    values address the output. *)
Lemma scatter_checked_ok {A : Type} (src : tensor A) (idx : tensor Z) (dim : Z)
    (d G : nat) (v : A) (kernel : nat -> list A) :
  let sh := <[d := G]> (shape src) in
  Py.index (ndim src) dim = Ok d -> shape idx = shape src ->
  Forall (fun x => (0 <= x < Z.of_nat G)%Z) (data idx) ->
  Torch.scatter_checked (Tensor sh (replicate (volume sh) v)) dim idx src kernel
  = Ok (Tensor sh (if numel idx =? 0 then replicate (volume sh) v else kernel d)).
Proof.
  intros sh Hd Hsh Hrange. pose proof (py_index_ok _ _ _ Hd) as [Hlt _].
  unfold Torch.scatter_checked, ndim. simpl.
  assert (length sh = ndim src) as Hlen by apply length_insert.
  rewrite Hlen, (maybe_wrap_dim_ok _ _ _ Hd). simpl.
  destruct (numel idx =? 0); [done|].
  replace (Torch.scatter_shape_ok _ _ _ _) with true; simpl.
  - replace (Torch.index_in_range _ _ _) with true; [done|].
    symmetry. unfold Torch.index_in_range. apply forallb_forall.
    intros x Hx%list_elem_of_In. rewrite Forall_forall in Hrange.
    specialize (Hrange x Hx). subst sh.
    rewrite list_lookup_total_insert_eq by done.
    apply andb_true_iff. rewrite Z.leb_le, Z.ltb_lt. lia.
  - symmetry. unfold Torch.scatter_shape_ok. rewrite Hsh, Hlen. unfold ndim.
    rewrite !Nat.eqb_refl. simpl. apply andb_true_iff. split.
    + apply forallb_forall. intros k _. destruct (k =? d) eqn:E; [done|].
      apply Nat.eqb_neq in E. simpl. apply Nat.leb_le. subst sh.
      by rewrite list_lookup_total_insert_ne.
    + apply forallb_forall. intros k _. by apply Nat.leb_le.
Qed.

(** The run of [scatter_sum] on compatible operands, step by step. *)
Lemma scatter_sum_run {A : Type} {dtype : Additive A} (src : tensor A) (index : tensor Z)
    (dim G : Z) (d : nat) (idx : tensor Z) :
  wf index -> Py.index (ndim src) dim = Ok d ->
  _expand_index index src dim = Ok idx -> shape idx = shape src ->
  (0 <= G)%Z -> Forall (fun v => (0 <= v < G)%Z) (data index) ->
  let sh := <[d := Z.to_nat G]> (shape src) in
  scatter_sum src index dim (Some G)
  = Ok (Tensor sh
          (if numel idx =? 0 then replicate (volume sh) zero
           else Torch.scatter_pass (fun q o => add o (Torch.src_at src idx q)) sh d idx
                  (replicate (volume sh) zero))).
Proof.
  intros Hwf Hd Hidx Hsh HG Hrange sh. unfold scatter_sum. simpl.
  rewrite (setitem_ok _ _ d) by by rewrite length_shape_list.
  simpl. rewrite Hidx. simpl. unfold Torch.zeros. rewrite full_ok by done. simpl.
  unfold Torch.scatter_add. rewrite (scatter_checked_ok src idx dim d); [done..|].
  apply Forall_forall. intros v Hv. rewrite Forall_forall in Hrange.
  rewrite Z2Nat.id by done. apply Hrange. by eapply expand_index_elem_of.
Qed.

(** [scatter_sum] in terms of the expanded index. *)
Lemma scatter_sum_expanded {A : Type} {dtype : Additive A} (src : tensor A) (index : tensor Z)
    (dim G : Z) (d : nat) :
  wf index -> Py.index (ndim src) dim = Ok d -> compatible index src dim ->
  (0 <= G)%Z -> Forall (fun v => (0 <= v < G)%Z) (data index) ->
  exists out idx,
    scatter_sum src index dim (Some G) = Ok out /\
    _expand_index index src dim = Ok idx /\
    shape out = <[d := Z.to_nat G]> (shape src) /\
    forall c, in_bounds (shape out) c ->
      tget out c = foldl add zero (tget src <$> group idx d c) /\
      (group idx d c = [] -> tget out c = zero).
Proof.
  intros Hwf Hd Hcompat HG Hrange.
  destruct (expand_index_compatible index src dim Hcompat) as (idx & Hidx & Hsh & Hwfi).
  pose proof (py_index_ok _ _ _ Hd) as [Hlt _].
  eexists. exists idx. split; [by apply (scatter_sum_run src index dim G d idx)|].
  split; [done|]. split; [done|]. simpl.
  assert (forall c, in_bounds (<[d := Z.to_nat G]> (shape src)) c ->
            tget (Tensor (<[d := Z.to_nat G]> (shape src))
                    (if numel idx =? 0
                     then replicate (volume (<[d := Z.to_nat G]> (shape src))) zero
                     else Torch.scatter_pass (fun q o => add o (Torch.src_at src idx q))
                            (<[d := Z.to_nat G]> (shape src)) d idx
                            (replicate (volume (<[d := Z.to_nat G]> (shape src))) zero))) c
            = foldl add zero (tget src <$> group idx d c)) as Hval.
  { intros c Hc. unfold tget at 1. simpl. rewrite foldl_fmap.
    pose proof (ravel_lt _ _ Hc) as Hr.
    destruct (numel idx =? 0) eqn:E.
    - apply Nat.eqb_eq in E. rewrite lookup_total_replicate_2 by done.
      unfold group. unfold numel in E. rewrite Hsh in E |- *.
      by rewrite (volume_zero_along _ c d (Z.to_nat G) Hc Hlt E).
    - rewrite <- Hsh in Hc, Hr |- *. unfold Torch.src_at.
      rewrite (scatter_pass_group (fun c' o => add o (tget src c')) idx d (Z.to_nat G)).
      + by rewrite lookup_total_replicate_2.
      + by eapply expand_index_wf.
      + rewrite Hsh. done.
      + unfold Torch.index_in_range. apply forallb_forall.
        intros v Hv%list_elem_of_In. rewrite Forall_forall in Hrange.
        rewrite list_lookup_total_insert_eq by (by rewrite Hsh).
        specialize (Hrange v (expand_index_elem_of _ _ _ _ _ Hwf Hidx Hv)).
        apply andb_true_iff. rewrite Z.leb_le, Z.ltb_lt. lia.
      + done.
      + by rewrite length_replicate. }
  intros c Hc. split; [by apply Hval|].
  intros Hempty. rewrite Hval by done. by rewrite Hempty.
Qed.

Lemma filter_ext_elem {X : Type} (P Q : X -> Prop)
    `{!forall x, Decision (P x)} `{!forall x, Decision (Q x)} (l : list X) :
  (forall x, x ∈ l -> P x <-> Q x) -> filter P l = filter Q l.
Proof.
  induction l as [|x l IH]; intros Hext; [done|].
  rewrite !filter_cons. rewrite IH by (intros y Hy; apply Hext; by right).
  destruct (decide (P x)) as [HP|HP], (decide (Q x)) as [HQ|HQ]; try done.
  - by apply (Hext x ltac:(left)) in HP.
  - by apply (Hext x ltac:(left)) in HQ.
Qed.

(** The expanded index holds at [c] the index value of [c]. *)
Lemma expand_index_reads {X : Type} (index : tensor Z) (src : tensor X) (dim : Z)
    (d : nat) (idx : tensor Z) (c : list nat) :
  compatible index src dim -> Py.index (ndim src) dim = Ok d ->
  _expand_index index src dim = Ok idx -> in_bounds (shape src) c ->
  read_offset (shape index) (shape src) d c < numel index /\
  tget idx c = data index !!! read_offset (shape index) (shape src) d c.
Proof.
  intros Hcompat Hd Hidx Hc. pose proof (py_index_ok _ _ _ Hd) as [Hlt _].
  unfold compatible in Hcompat. unfold read_offset. fold (ndim index) (ndim src).
  destruct (ndim index =? ndim src) eqn:Hrank.
  - apply Nat.eqb_eq in Hrank. rewrite expand_index_same_rank in Hidx by done.
    pose proof (expand_ok _ _ _ Hidx) as (_ & Hsh & _ & Hdata). split.
    + apply ravel_lt. by apply (bcast_coords_in_bounds _ (shape src)).
    + unfold tget at 1. rewrite Hsh, Hdata by by apply ravel_lt.
      by rewrite unravel_ravel.
  - apply Nat.eqb_neq in Hrank. destruct Hcompat as (d' & Hd' & Hn).
    rewrite Hd in Hd'. injection Hd' as <-. split.
    + rewrite Hn. by apply in_bounds_lookup.
    + apply (expand_index_flat_value index src dim d idx c); try done.
      destruct (expand_index_flat index src dim d Hrank Hd) as (idx' & Hidx' & Hsh & _).
      rewrite Hidx in Hidx'. injection Hidx' as <-.
      rewrite Hsh, Hn, list_insert_id; [done|]. by apply list_lookup_lookup_total_lt.
Qed.

(** The groups of the expanded index are the groups of the index. *)
Lemma group_of_expanded {X : Type} (index : tensor Z) (src : tensor X) (dim : Z)
    (d G : nat) (idx : tensor Z) (c : list nat) :
  compatible index src dim -> Py.index (ndim src) dim = Ok d ->
  _expand_index index src dim = Ok idx -> shape idx = shape src ->
  in_bounds (<[d := G]> (shape src)) c ->
  group idx d c = group_of index (shape src) d c.
Proof.
  intros Hcompat Hd Hidx Hsh Hc. pose proof (py_index_ok _ _ _ Hd) as [Hlt _].
  unfold group, group_of, index_value. rewrite Hsh. f_equal.
  apply filter_ext_elem. intros i Hi%elem_of_seq.
  destruct (expand_index_reads index src dim d idx (<[d := i]> c)) as [_ ->]; try done.
  apply (in_bounds_insert_back _ _ _ G); [done|done|lia].
Qed.

(** C1. For an element type whose sums are accumulated in the type
    itself, an index with all values in [[0, G)] and every dimension
    [dim] of [src], [scatter_sum src index dim G] holds at each position
    [c] the sum of exactly the elements of [src] in the group of [c]
    (those at the coordinates of [c] outside [dim] whose index value is
    the entry of [c] at [dim]), added from [zero] in order; a position
    whose group is empty holds exactly [zero]. *)
Theorem scatter_sum_groups {A : Type} {dtype : Additive A} (src : tensor A) (index : tensor Z)
    (dim G : Z) (d : nat) :
  native_sum A dtype ->
  wf index -> Py.index (ndim src) dim = Ok d -> expands_to index src dim ->
  (0 <= G)%Z -> Forall (fun v => (0 <= v < G)%Z) (data index) ->
  exists out,
    scatter_sum src index dim (Some G) = Ok out /\
    shape out = <[d := Z.to_nat G]> (shape src) /\
    forall c, in_bounds (shape out) c ->
      tget out c = foldl add zero (tget src <$> group_of index (shape src) d c) /\
      (group_of index (shape src) d c = [] -> tget out c = zero).
Proof.
  intros _ Hwf Hd [Hcompat _] HG Hrange.
  destruct (scatter_sum_expanded src index dim G d Hwf Hd Hcompat HG Hrange)
    as (out & idx & Hout & Hidx & Hshape & Hval).
  destruct (expand_index_compatible index src dim Hcompat) as (idx' & Hidx' & Hsh & _).
  rewrite Hidx in Hidx'. injection Hidx' as <-.
  exists out. split; [done|]. split; [done|].
  intros c Hc. rewrite <- (group_of_expanded index src dim d (Z.to_nat G) idx c); try done.
  - by apply Hval.
  - by rewrite <- Hshape.
Qed.

(** [torch.where(out == v, zeros_like(out), out)], element by element. *)
Lemma where_eq_scalar {A : Type} {additive : Additive A} {dtype : Floating A}
    (o : tensor A) (v : A) :
  wf o ->
  Torch.where_ (Torch.eq_scalar o v) (Torch.zeros_like o) o
  = Torch.tmap (fun x => if eqb x v then zero else x) o.
Proof.
  unfold wf, Torch.where_, Torch.eq_scalar, Torch.zeros_like, Torch.tmap. simpl.
  intros <-. f_equal. induction (data o) as [|x l IH]; simpl; [done|].
  f_equal. exact IH.
Qed.

Lemma length_amax_reduced {A : Type} {additive : Additive A} {dtype : Floating A}
    (src : tensor A) (idx : tensor Z) (sh : list nat) (d : nat) :
  length (amax_reduced src idx sh d) = volume sh.
Proof.
  unfold amax_reduced. destruct (numel idx =? 0); [by rewrite length_replicate|].
  unfold Torch.scatter_pass. by rewrite !scatter_fold_length, length_replicate.
Qed.

(** The run of [scatter_max] once the index is expanded to the shape of
    [src] and addresses the output, step by step. *)
Lemma scatter_max_run {A : Type} {additive : Additive A} {dtype : Floating A}
    (src : tensor A) (index : tensor Z) (dim G : Z) (d : nat) (idx : tensor Z) :
  Py.index (ndim src) dim = Ok d ->
  _expand_index index src dim = Ok idx -> shape idx = shape src ->
  (0 <= G)%Z -> Forall (fun v => (0 <= v < G)%Z) (data idx) ->
  let sh := <[d := Z.to_nat G]> (shape src) in
  scatter_max src index dim (Some G)
  = Ok (Tensor sh ((fun x => if eqb x neg_inf then zero else x) <$> amax_reduced src idx sh d),
        Tensor sh (replicate (volume sh) 0%Z)).
Proof.
  intros Hd Hidx Hsh HG Hrange sh. unfold scatter_max. simpl.
  rewrite (setitem_ok _ _ d) by by rewrite length_shape_list.
  simpl. rewrite Hidx. simpl. rewrite full_ok by done. simpl.
  unfold Torch.scatter_reduce_amax. rewrite (scatter_checked_ok src idx dim d); [|done..|].
  - simpl. fold sh. fold (amax_reduced src idx sh d).
    rewrite where_eq_scalar by apply length_amax_reduced.
    unfold Torch.zeros_like_long, Torch.tmap, numel. simpl. done.
  - apply Forall_forall. intros v Hv. rewrite Forall_forall in Hrange.
    rewrite Z2Nat.id by done. by apply Hrange.
Qed.

(** What the output of [scatter_max] holds at position [c]. *)
Lemma scatter_max_data_lookup {A : Type} {additive : Additive A} {dtype : Floating A}
    (src : tensor A) (idx : tensor Z) (d G : nat) (c : list nat) :
  let sh := <[d := G]> (shape src) in
  wf idx -> shape idx = shape src -> d < ndim src ->
  Forall (fun v => (0 <= v < Z.of_nat G)%Z) (data idx) -> in_bounds sh c ->
  ((fun x => if eqb x neg_inf then zero else x) <$> amax_reduced src idx sh d)
    !!! ravel sh c
  = amax_group_value (tget src <$> group idx d c).
Proof.
  intros sh Hwfi Hsh Hlt Hrange Hc.
  pose proof (ravel_lt _ _ Hc) as Hr.
  rewrite (@list_lookup_total_fmap _ _ _ _ _) by by rewrite length_amax_reduced.
  unfold amax_group_value. rewrite foldl_fmap.
  assert (amax_reduced src idx sh d !!! ravel sh c
          = foldl (fun a c' => Torch.amax a (tget src c')) neg_inf (group idx d c))
    as ->; [|done].
  unfold amax_reduced. destruct (numel idx =? 0) eqn:E.
  - apply Nat.eqb_eq in E. rewrite lookup_total_replicate_2 by done.
    unfold group. unfold numel in E. rewrite Hsh in E |- *.
    by rewrite (volume_zero_along _ c d G Hc Hlt E).
  - assert (Torch.index_in_range sh d idx = true) as Hir.
    { unfold Torch.index_in_range. apply forallb_forall.
      intros v Hv%list_elem_of_In. rewrite Forall_forall in Hrange. subst sh.
      rewrite list_lookup_total_insert_eq by done.
      specialize (Hrange v Hv). apply andb_true_iff. rewrite Z.leb_le, Z.ltb_lt. lia. }
    subst sh. rewrite <- Hsh in Hc, Hr, Hir |- *. unfold Torch.src_at.
    rewrite (scatter_pass_group (fun c' o => Torch.amax o (tget src c')) idx d G);
      [|done|by rewrite Hsh|done|done
       |unfold Torch.scatter_pass; by rewrite scatter_fold_length, length_replicate].
    rewrite (scatter_pass_group (fun _ _ => neg_inf) idx d G);
      [|done|by rewrite Hsh|done|done|by rewrite length_replicate].
    rewrite lookup_total_replicate_2 by done.
    assert (foldl (fun (a : A) (_ : list nat) => neg_inf) neg_inf (group idx d c) = neg_inf)
      as ->; [|done].
    induction (group idx d c) as [|c' l IH]; simpl; done.
Qed.

(** What [scatter_max] holds at position [c], before any property of
    the order is used: the [amax] reduction of the group of [c] started
    at negative infinity, with a result equal to negative infinity
    replaced by zero. *)
Lemma scatter_max_value {A : Type} {additive : Additive A} {dtype : Floating A}
    (src : tensor A) (index : tensor Z) (dim G : Z) (d : nat) :
  wf index -> Py.index (ndim src) dim = Ok d -> compatible index src dim ->
  (0 <= G)%Z -> Forall (fun v => (0 <= v < G)%Z) (data index) ->
  exists out arg idx,
    scatter_max src index dim (Some G) = Ok (out, arg) /\
    _expand_index index src dim = Ok idx /\
    shape out = <[d := Z.to_nat G]> (shape src) /\
    forall c, in_bounds (shape out) c ->
      let m := foldl Torch.amax neg_inf (tget src <$> group idx d c) in
      tget out c = if eqb m neg_inf then zero else m.
Proof.
  intros Hwf Hd Hcompat HG Hrange.
  destruct (expand_index_compatible index src dim Hcompat) as (idx & Hidx & Hsh & Hwfi).
  pose proof (py_index_ok _ _ _ Hd) as [Hlt _].
  assert (Forall (fun v => (0 <= v < G)%Z) (data idx)) as Hrange'.
  { apply Forall_forall. intros v Hv. rewrite Forall_forall in Hrange.
    apply Hrange. by eapply expand_index_elem_of. }
  eexists. eexists. exists idx.
  split; [by apply (scatter_max_run src index dim G d idx)|].
  split; [done|]. split; [done|]. simpl.
  intros c Hc. unfold tget at 1. simpl.
  rewrite scatter_max_data_lookup; [done|by eapply expand_index_wf|done|done| |done].
  by rewrite Z2Nat.id.
Qed.

(** ** Every successful call *)

Lemma setitem_inv {X : Type} (l : list X) (dim : Z) (x : X) (l' : list X) :
  Py.setitem l dim x = Ok l' ->
  exists d, Py.index (length l) dim = Ok d /\ l' = <[d := x]> l.
Proof.
  unfold Py.setitem. intros (d & Hd & [= <-])%bind_ok. by exists d.
Qed.

Lemma full_inv {X : Type} (sh : list Z) (v : X) (t : tensor X) :
  Torch.full sh v = Ok t ->
  Forall (fun s => (0 <= s)%Z) sh /\ shape t = Z.to_nat <$> sh /\
  data t = replicate (volume (shape t)) v.
Proof.
  unfold Torch.full. destruct (forallb _ _) eqn:E; [|done].
  intros [= <-]. simpl. split; [|done].
  apply Forall_forall. intros s Hs%list_elem_of_In.
  rewrite forallb_forall in E. by apply Z.leb_le, E.
Qed.

Lemma scatter_checked_shape {A : Type} (self : tensor A) (dim : Z) (index : tensor Z)
    (src : tensor A) (kernel : nat -> list A) (out : tensor A) :
  Torch.scatter_checked self dim index src kernel = Ok out -> shape out = shape self.
Proof.
  unfold Torch.scatter_checked. intros (d & _ & Hout)%bind_ok.
  destruct (numel index =? 0); [by injection Hout as <-|].
  destruct (negb _); [done|]. destruct (negb _); [done|]. by injection Hout as <-.
Qed.

(** The maximum that [index.max()] returns. *)
Lemma max_item_ok (index : tensor Z) (m : Z) :
  Torch.max_item index = Ok m ->
  m ∈ data index /\ Forall (fun v => (v <= m)%Z) (data index).
Proof.
  unfold Torch.max_item. destruct (data index) as [|v vs]; [done|].
  intros [= <-].
  assert (forall (l : list Z) (a : Z),
            (foldl Z.max a l = a \/ foldl Z.max a l ∈ l) /\
            (a <= foldl Z.max a l)%Z /\ Forall (fun x => (x <= foldl Z.max a l)%Z) l) as Hmax.
  { induction l as [|x l IH]; intros a; simpl.
    - split; [by left|]. split; [lia|constructor].
    - destruct (IH (Z.max a x)) as (Hin & Hle & Hall). split; [|split].
      + destruct Hin as [Hin|Hin]; [|right; by right].
        destruct (Z.max_spec a x) as [[_ Hm]|[_ Hm]].
        * right. rewrite Hin, Hm. left.
        * left. by rewrite Hin.
      + lia.
      + constructor; [lia|done]. }
  destruct (Hmax vs v) as (Hin & Hle & Hall). split.
  - destruct Hin as [-> |Hin]; [left|by right].
  - by constructor.
Qed.

Lemma infer_dim_size_ok (index : tensor Z) (dim_size : option Z) (n : Z) :
  infer_dim_size index dim_size = Ok n -> is_group_count index dim_size n.
Proof.
  unfold infer_dim_size, is_group_count. destruct dim_size as [g|].
  - by intros [= <-].
  - intros (m & [Hin Hall]%max_item_ok & [= <-])%bind_ok. by exists m.
Qed.

(** The shape [shape[dim] = dim_size] gives the output. *)
Lemma output_shape_inv {X : Type} (src : tensor X) (dim n : Z) (shp : list Z) :
  Py.setitem (shape_list src) dim n = Ok shp -> Forall (fun s => (0 <= s)%Z) shp ->
  exists d, Py.index (ndim src) dim = Ok d /\ (0 <= n)%Z /\
            Z.to_nat <$> shp = <[d := Z.to_nat n]> (shape src).
Proof.
  intros (d & Hd & ->)%setitem_inv Hpos. rewrite length_shape_list in Hd.
  exists d. split; [done|]. split; [|apply to_nat_insert_shape_list].
  pose proof (py_index_ok _ _ _ Hd) as [Hlt _].
  rewrite Forall_forall in Hpos. apply Hpos. apply list_elem_of_lookup. exists d.
  apply list_lookup_insert_eq. by rewrite length_shape_list.
Qed.

Lemma scatter_sum_shape {A : Type} {dtype : Additive A} (src : tensor A) (index : tensor Z)
    (dim : Z) (dim_size : option Z) (out : tensor A) :
  scatter_sum src index dim dim_size = Ok out ->
  exists d n, Py.index (ndim src) dim = Ok d /\ is_group_count index dim_size n /\
              (0 <= n)%Z /\ shape out = <[d := Z.to_nat n]> (shape src).
Proof.
  unfold scatter_sum.
  intros (n & Hn%infer_dim_size_ok & (shp & Hshp & (idx & _ &
            (out0 & Hz & Hadd)%bind_ok)%bind_ok)%bind_ok)%bind_ok.
  apply full_inv in Hz as (Hpos & Hsh0 & _).
  destruct (output_shape_inv _ _ _ _ Hshp Hpos) as (d & Hd & Hn0 & Heq).
  exists d, n. split; [done|]. split; [done|]. split; [done|].
  apply scatter_checked_shape in Hadd. by rewrite Hadd, Hsh0.
Qed.

Lemma scatter_max_shape {A : Type} {additive : Additive A} {dtype : Floating A}
    (src : tensor A) (index : tensor Z)
    (dim : Z) (dim_size : option Z) (out : tensor A) (arg : tensor Z) :
  scatter_max src index dim dim_size = Ok (out, arg) ->
  (exists d n, Py.index (ndim src) dim = Ok d /\ is_group_count index dim_size n /\
               (0 <= n)%Z /\ shape out = <[d := Z.to_nat n]> (shape src)) /\
  arg = Tensor (shape out) (replicate (volume (shape out)) 0%Z).
Proof.
  unfold scatter_max.
  intros (n & Hn%infer_dim_size_ok & (shp & Hshp & (idx & _ &
            (out0 & Hz & (out1 & Hred & [= <- <-])%bind_ok)%bind_ok)%bind_ok)%bind_ok)%bind_ok.
  split; [|done].
  apply full_inv in Hz as (Hpos & Hsh0 & _).
  destruct (output_shape_inv _ _ _ _ Hshp Hpos) as (d & Hd & Hn0 & Heq).
  exists d, n. split; [done|]. split; [done|]. split; [done|].
  apply scatter_checked_shape in Hred. simpl. by rewrite Hred, Hsh0.
Qed.

(** C6. The output of every successful call of [scatter_sum] and of
    [scatter_max] has the shape of [src] with the size at the dimension
    [dim] replaced by the group count: [dim_size] when given, otherwise
    [max(index) + 1]. *)
Theorem scatter_output_shape {A B : Type} {dtype_sum : Additive A}
    {additive : Additive B} {dtype : Floating B}
    (src : tensor A) (src' : tensor B) (index : tensor Z) (dim : Z)
    (dim_size : option Z) :
  (forall out, scatter_sum src index dim dim_size = Ok out ->
     exists d n, Py.index (ndim src) dim = Ok d /\ is_group_count index dim_size n /\
                 (0 <= n)%Z /\ shape out = <[d := Z.to_nat n]> (shape src)) /\
  (forall out arg, scatter_max src' index dim dim_size = Ok (out, arg) ->
     exists d n, Py.index (ndim src') dim = Ok d /\ is_group_count index dim_size n /\
                 (0 <= n)%Z /\ shape out = <[d := Z.to_nat n]> (shape src')).
Proof.
  split.
  - intros out. apply scatter_sum_shape.
  - intros out arg Hmax. by apply scatter_max_shape in Hmax as [Hshape _].
Qed.

(** C7. The second component of every result of [scatter_max] is a
    tensor of integers of the shape of the first component whose entries
    are all zero; it is the same for any two calls with outputs of one
    shape, whatever their [src] and [index]. *)
Theorem scatter_max_argmax_zeros {A : Type} {additive : Additive A} {dtype : Floating A}
    (src : tensor A)
    (index : tensor Z) (dim : Z) (dim_size : option Z) (out : tensor A) (arg : tensor Z) :
  scatter_max src index dim dim_size = Ok (out, arg) ->
  shape arg = shape out /\ wf arg /\ Forall (fun v => v = 0%Z) (data arg) /\
  forall (src' : tensor A) (index' : tensor Z) (dim' : Z) (dim_size' : option Z)
         (out' : tensor A) (arg' : tensor Z),
    scatter_max src' index' dim' dim_size' = Ok (out', arg') ->
    shape out' = shape out -> arg' = arg.
Proof.
  intros [_ ->]%scatter_max_shape. simpl. split; [done|]. split.
  { unfold wf, numel. simpl. apply length_replicate. }
  split.
  { apply Forall_forall. by intros v [-> _]%elem_of_replicate. }
  intros src' index' dim' dim_size' out' arg' [_ ->]%scatter_max_shape Heq.
  by rewrite Heq.
Qed.

(** ** Negative dimensions *)

Lemma bind_ext {X Y : Type} (m : result X) (k1 k2 : X -> result Y) :
  (forall x, m = Ok x -> k1 x = k2 x) -> bind m k1 = bind m k2.
Proof. intros Hk. destruct m as [x|e]; simpl; [by apply Hk|done]. Qed.

Section Wrap.

Variables (r : nat) (dim : Z).
Hypothesis Hdim : (- Z.of_nat r <= dim < 0)%Z.

Lemma setitem_wrap {X : Type} (l : list X) (x : X) :
  length l = r -> Py.setitem l dim x = Py.setitem l (dim + Z.of_nat r) x.
Proof. intros <-. unfold Py.setitem. by rewrite py_index_wrap. Qed.

Lemma getitem_wrap {X : Type} `{Inhabited X} (l : list X) :
  length l = r -> Py.getitem l dim = Py.getitem l (dim + Z.of_nat r).
Proof. intros <-. unfold Py.getitem. by rewrite py_index_wrap. Qed.

Lemma maybe_wrap_dim_wrap :
  Torch.maybe_wrap_dim r dim = Torch.maybe_wrap_dim r (dim + Z.of_nat r).
Proof.
  unfold Torch.maybe_wrap_dim. replace (Nat.max r 1) with r by lia.
  by apply py_index_wrap.
Qed.

Lemma expand_index_wrap {X : Type} (index : tensor Z) (src : tensor X) :
  ndim src = r ->
  _expand_index index src dim = _expand_index index src (dim + Z.of_nat r).
Proof.
  intros Hr. unfold _expand_index. destruct (_ =? _); [done|].
  rewrite (setitem_wrap (replicate (ndim src) 1)) by by rewrite length_replicate.
  apply bind_ext. intros vs (d & Hd & ->)%setitem_inv.
  apply bind_ext. intros t Hview.
  assert (length (shape t) = r) as Hlen.
  { unfold Torch.view in Hview. destruct (_ =? _); [|done]. injection Hview as <-.
    simpl. by rewrite length_insert, length_replicate. }
  unfold Torch.size. rewrite (getitem_wrap (shape t)) by done.
  apply bind_ext. intros n _. by rewrite (setitem_wrap (shape src)).
Qed.

Lemma expand_index_ndim {X : Type} (index : tensor Z) (src : tensor X) (dim' : Z)
    (idx : tensor Z) :
  _expand_index index src dim' = Ok idx -> ndim idx = ndim src.
Proof.
  unfold _expand_index, ndim. destruct (_ =? _) eqn:E.
  - intros (_ & -> & _)%expand_ok. done.
  - intros (vs & _ & (v & _ & (n & _ & (es & Hes & Hexp)%bind_ok)%bind_ok)%bind_ok)%bind_ok.
    apply expand_ok in Hexp as (_ & -> & _).
    apply setitem_inv in Hes as (d & _ & ->). apply length_insert.
Qed.

Lemma scatter_checked_wrap {A : Type} (self : tensor A) (index : tensor Z)
    (src : tensor A) (kernel : nat -> list A) :
  ndim self = r ->
  Torch.scatter_checked self dim index src kernel
  = Torch.scatter_checked self (dim + Z.of_nat r) index src kernel.
Proof. intros Hr. unfold Torch.scatter_checked. by rewrite Hr, maybe_wrap_dim_wrap. Qed.

Lemma gather_wrap {A : Type} `{Inhabited A} (self : tensor A) (index : tensor Z) :
  ndim self = r -> Torch.gather self dim index = Torch.gather self (dim + Z.of_nat r) index.
Proof. intros Hr. unfold Torch.gather. by rewrite Hr, maybe_wrap_dim_wrap. Qed.

Lemma full_ndim {X : Type} (sh : list Z) (v : X) (t : tensor X) :
  Torch.full sh v = Ok t -> ndim t = length sh.
Proof. intros (_ & Hsh & _)%full_inv. unfold ndim. by rewrite Hsh, length_fmap. Qed.

Lemma scatter_sum_wrap {A : Type} {dtype : Additive A} (src : tensor A) (index : tensor Z)
    (dim_size : option Z) :
  ndim src = r ->
  scatter_sum src index dim dim_size = scatter_sum src index (dim + Z.of_nat r) dim_size.
Proof.
  intros Hr. unfold scatter_sum.
  apply bind_ext. intros n _.
  rewrite (setitem_wrap (shape_list src)) by by rewrite length_shape_list.
  apply bind_ext. intros shp (d & _ & ->)%setitem_inv.
  rewrite expand_index_wrap by done.
  apply bind_ext. intros idx _. apply bind_ext. intros out Hout.
  apply scatter_checked_wrap. unfold Torch.zeros in Hout.
  by rewrite (full_ndim _ _ _ Hout), length_insert, length_shape_list.
Qed.

Lemma scatter_max_wrap {A : Type} {additive : Additive A} {dtype : Floating A}
    (src : tensor A) (index : tensor Z)
    (dim_size : option Z) :
  ndim src = r ->
  scatter_max src index dim dim_size = scatter_max src index (dim + Z.of_nat r) dim_size.
Proof.
  intros Hr. unfold scatter_max.
  apply bind_ext. intros n _.
  rewrite (setitem_wrap (shape_list src)) by by rewrite length_shape_list.
  apply bind_ext. intros shp (d & _ & ->)%setitem_inv.
  rewrite expand_index_wrap by done.
  apply bind_ext. intros idx _. apply bind_ext. intros out Hout.
  unfold Torch.scatter_reduce_amax. rewrite scatter_checked_wrap; [done|].
  by rewrite (full_ndim _ _ _ Hout), length_insert, length_shape_list.
Qed.

End Wrap.

Lemma broadcast_rev_length (a b sh : list nat) :
  Torch.broadcast_rev a b = Ok sh -> length sh = Nat.max (length a) (length b).
Proof.
  revert b sh. induction a as [|x a IH]; intros b sh; simpl.
  - by intros [= <-].
  - destruct b as [|y b]; [by intros [= <-]|].
    intros (t & Ht%IH & Hsh)%bind_ok. simpl.
    destruct (x =? y); [injection Hsh as <-; simpl; lia|].
    destruct (x =? 1); [injection Hsh as <-; simpl; lia|].
    destruct (y =? 1); [injection Hsh as <-; simpl; lia|done].
Qed.

Lemma binop_ndim {A : Type} `{Inhabited A} (f : A -> A -> A) (a b t : tensor A) :
  Torch.binop f a b = Ok t -> ndim t = Nat.max (ndim a) (ndim b).
Proof.
  unfold Torch.binop, Torch.broadcast_shapes.
  intros (sh & (rsh & Hrev%broadcast_rev_length & [= <-])%bind_ok &
            (a' & _ & (b' & _ & [= <-])%bind_ok)%bind_ok)%bind_ok.
  unfold ndim. simpl. by rewrite length_rev, Hrev, !length_rev.
Qed.

Lemma gather_shape {A : Type} `{Inhabited A} (self : tensor A) (dim : Z)
    (index : tensor Z) (t : tensor A) :
  Torch.gather self dim index = Ok t -> shape t = shape index.
Proof.
  unfold Torch.gather. intros (d & _ & Ht)%bind_ok.
  destruct (negb _); [done|]. destruct (negb _); [done|]. by injection Ht as <-.
Qed.

Lemma scatter_softmax_wrap {A : Type} {additive : Additive A} {dtype : Floating A}
    (r : nat) (dim : Z)
    (src : tensor A) (index : tensor Z) (dim_size : option Z) :
  (- Z.of_nat r <= dim < 0)%Z -> ndim src = r ->
  scatter_softmax src index dim dim_size
  = scatter_softmax src index (dim + Z.of_nat r) dim_size.
Proof.
  intros Hdim Hr. unfold scatter_softmax.
  apply bind_ext. intros n _.
  rewrite (expand_index_wrap r dim Hdim) by done.
  apply bind_ext. intros idx Hidx%expand_index_ndim.
  rewrite (scatter_max_wrap r dim Hdim) by done.
  apply bind_ext. intros [out arg] Hmx. simpl.
  apply scatter_max_shape in Hmx as [(d & m & _ & _ & _ & Hout) _].
  rewrite (gather_wrap r dim Hdim) by (unfold ndim; by rewrite Hout, length_insert).
  apply bind_ext. intros gathered Hg%gather_shape.
  apply bind_ext. intros centered Hc%binop_ndim.
  assert (ndim (Torch.tmap exp centered) = r) as Hexp.
  { unfold Torch.tmap, ndim at 1. simpl. fold (ndim centered). rewrite Hc.
    unfold ndim at 2. rewrite Hg. fold (ndim idx). lia. }
  rewrite (scatter_sum_wrap r dim Hdim) by done.
  apply bind_ext. intros sum_exp Hs.
  apply scatter_sum_shape in Hs as (d' & m' & _ & _ & _ & Hs).
  rewrite (gather_wrap r dim Hdim); [done|].
  unfold ndim. rewrite Hs, length_insert. exact Hexp.
Qed.

(** C8. For a source of rank [r] and a negative dimension [dim] with
    [-r <= dim < 0], each of [scatter_sum], [scatter_max] and
    [scatter_softmax] returns what the same call returns with [dim]
    replaced by [dim + r], for every index. *)
Theorem negative_dim_normalised {A B : Type} {dtype_sum : Additive A}
    {additive : Additive B} {dtype : Floating B}
    (r : nat)
    (src : tensor A) (src' : tensor B) (index : tensor Z) (dim : Z)
    (dim_size : option Z) :
  ndim src = r -> ndim src' = r -> (- Z.of_nat r <= dim < 0)%Z ->
  scatter_sum src index dim dim_size
    = scatter_sum src index (dim + Z.of_nat r) dim_size /\
  scatter_max src' index dim dim_size
    = scatter_max src' index (dim + Z.of_nat r) dim_size /\
  scatter_softmax src' index dim dim_size
    = scatter_softmax src' index (dim + Z.of_nat r) dim_size.
Proof.
  intros Hr Hr' Hdim. split; [|split].
  - by apply scatter_sum_wrap.
  - by apply scatter_max_wrap.
  - by apply scatter_softmax_wrap.
Qed.

(** ** Inferring the group count of an empty index *)

(** C10. When the index has no element and [dim_size] is left out, each
    of [scatter_sum], [scatter_max] and [scatter_softmax] raises while
    inferring the group count and returns nothing. *)
Theorem empty_index_raises {A B : Type} {dtype_sum : Additive A}
    {additive : Additive B} {dtype : Floating B}
    (src : tensor A) (src' : tensor B) (index : tensor Z) (dim : Z) :
  wf index -> numel index = 0 ->
  scatter_sum src index dim None = Raise RuntimeError /\
  scatter_max src' index dim None = Raise RuntimeError /\
  scatter_softmax src' index dim None = Raise RuntimeError.
Proof.
  intros Hwf Hn. unfold wf in Hwf. rewrite Hn in Hwf.
  apply nil_length_inv in Hwf.
  assert (infer_dim_size index None = Raise RuntimeError) as Hinfer.
  { unfold infer_dim_size, Torch.max_item. by rewrite Hwf. }
  unfold scatter_sum, scatter_max, scatter_softmax. by rewrite Hinfer.
Qed.

(** ** The maximum of a group *)

Section AmaxFold.

Context {A : Type} {additive : Additive A} {dtype : Floating A}.

(** The properties of the comparison that the reduction relies on; the
    IEEE formats have them (see [IEEE_order] below). *)
Hypothesis ltb_nan_l : forall x y, is_nan x = true -> ltb x y = false.
Hypothesis ltb_irrefl : forall x, ltb x x = false.
Hypothesis ltb_trans : forall x y z, ltb x y = true -> ltb y z = true -> ltb x z = true.
Hypothesis ltb_neg_trans : forall x y z,
  is_nan z = false -> ltb x y = true -> ltb x z = true \/ ltb z y = true.
Hypothesis neg_inf_not_nan : is_nan neg_inf = false.
Hypothesis neg_inf_least : forall x,
  is_nan x = false -> ltb neg_inf x = false -> x = neg_inf.

Lemma amax_fold_no_nan (a : A) (l : list A) :
  is_nan a = false -> Forall (fun x => is_nan x = false) l ->
  let m := foldl Torch.amax a l in
  (m = a \/ m ∈ l) /\ is_nan m = false /\ ltb m a = false /\
  forall x, x ∈ l -> ltb m x = false.
Proof.
  revert a. induction l as [|x l IH]; intros a Ha Hl; simpl.
  - split; [by left|]. split; [done|]. split; [apply ltb_irrefl|].
    by intros x Hx%elem_of_nil.
  - inversion Hl as [|? ? Hx Hl']; subst.
    assert (is_nan (Torch.amax a x) = false) as Ha'.
    { unfold Torch.amax. rewrite Hx. by destruct (ltb a x). }
    destruct (IH (Torch.amax a x) Ha' Hl') as (Hin & Hnan & Hge & Hall).
    set (m := foldl Torch.amax (Torch.amax a x) l) in *.
    unfold Torch.amax in Hin, Hge. rewrite Hx in Hin, Hge.
    destruct (ltb a x) eqn:Hax.
    + split; [destruct Hin as [->|Hin]; right; [left|by right]|].
      split; [done|]. split.
      * destruct (ltb m a) eqn:E; [|done]. by rewrite (ltb_trans m a x E Hax) in Hge.
      * intros y [->|Hy]%elem_of_cons; [done|by apply Hall].
    + split; [destruct Hin as [->|Hin]; [by left|right; by right]|].
      split; [done|]. split; [done|].
      intros y [->|Hy]%elem_of_cons; [|by apply Hall].
      destruct (ltb m x) eqn:E; [|done].
      destruct (ltb_neg_trans m x a Ha E) as [Hc|Hc]; congruence.
Qed.

Lemma amax_fold_nan (a : A) (l : list A) :
  is_nan a = true \/ Exists (fun x => is_nan x = true) l ->
  let m := foldl Torch.amax a l in is_nan m = true /\ (m = a \/ m ∈ l).
Proof.
  revert a. induction l as [|x l IH]; intros a Hnan; simpl.
  - destruct Hnan as [Ha|Hl]; [by split; [|left]|by inversion Hl].
  - assert (is_nan (Torch.amax a x) = true \/ Exists (fun x => is_nan x = true) l) as Hnan'.
    { unfold Torch.amax. destruct (is_nan x) eqn:Hx; [by left|].
      destruct Hnan as [Ha|Hl].
      - left. by rewrite (ltb_nan_l a x Ha).
      - inversion Hl; subst; [congruence|by right]. }
    destruct (IH _ Hnan') as [Hm Hin]. split; [done|].
    destruct Hin as [Hin|Hin]; [|right; by right].
    rewrite Hin. unfold Torch.amax.
    destruct (is_nan x); [right; left|]. destruct (ltb a x); [right; left|by left].
Qed.

(** Started at negative infinity, the reduction of a non-empty list
    returns its maximum. *)
Lemma amax_fold_is_amax (xs : list A) :
  xs <> [] -> is_amax (foldl Torch.amax neg_inf xs) xs.
Proof.
  intros Hne. unfold is_amax. destruct (existsb is_nan xs) eqn:E.
  - assert (Exists (fun x => is_nan x = true) xs) as Hex.
    { apply existsb_exists in E as (x & Hx%list_elem_of_In & Hnan).
      apply Exists_exists. by exists x. }
    destruct (amax_fold_nan neg_inf xs (or_intror Hex)) as [Hm [Hin|Hin]]; [|done].
    rewrite Hin in Hm. congruence.
  - assert (Forall (fun x => is_nan x = false) xs) as Hall.
    { apply Forall_forall. intros x Hx%list_elem_of_In.
      destruct (is_nan x) eqn:Hnan; [|done].
      assert (existsb is_nan xs = true) by (apply existsb_exists; by exists x).
      congruence. }
    destruct (amax_fold_no_nan neg_inf xs neg_inf_not_nan Hall) as (Hin & _ & _ & Hge).
    split; [|done]. destruct Hin as [Hin|Hin]; [|done].
    destruct xs as [|x xs]; [done|]. rewrite Forall_cons in Hall. destruct Hall as [Hx _].
    assert (x = neg_inf) as ->; [|rewrite Hin; left].
    apply neg_inf_least; [done|]. rewrite <- Hin. apply Hge. left.
Qed.

End AmaxFold.

(** ** The order of the IEEE formats *)

Section IEEE_order.

Ltac finite_cases mx my mz ex ey ez :=
  change (Pos.compare_cont Eq ?a ?b) with (Pos.compare a b);
  destruct (Z.compare_spec ex ey), (Z.compare_spec ey ez), (Z.compare_spec ex ez);
  subst; try lia; try done;
  destruct (Pos.compare_spec mx my), (Pos.compare_spec my mz), (Pos.compare_spec mx mz);
  subst; simpl; try lia; try done; auto.

Ltac by_cases x y z :=
  unfold SFltb, SFleb;
  destruct x as [sx|sx| |sx mx ex], y as [sy|sy| |sy my ey], z as [sz|sz| |sz mz ez];
  simpl; try done;
  try (destruct sx); try (destruct sy); try (destruct sz); simpl; try done; auto;
  finite_cases mx my mz ex ey ez.

Lemma SFltb_nan_l (x y : spec_float) : IEEE.sf_is_nan x = true -> SFltb x y = false.
Proof. by destruct x. Qed.

Lemma SFltb_irrefl (x : spec_float) : SFltb x x = false.
Proof.
  unfold SFltb. destruct x as [s|s| |s m e]; simpl; try done; destruct s; simpl; try done.
  all: by rewrite Z.compare_refl, Pos.compare_cont_refl.
Qed.

Lemma SFltb_trans (x y z : spec_float) :
  SFltb x y = true -> SFltb y z = true -> SFltb x z = true.
Proof. by_cases x y z. Qed.

Lemma SFltb_neg_trans (x y z : spec_float) :
  IEEE.sf_is_nan z = false -> SFltb x y = true ->
  SFltb x z = true \/ SFltb z y = true.
Proof. by_cases x z y. Qed.

Lemma SFltb_neg_inf_least (x : spec_float) :
  IEEE.sf_is_nan x = false -> SFltb (S754_infinity true) x = false ->
  x = S754_infinity true.
Proof. unfold SFltb. destruct x as [s|s| |s m e]; simpl; try done; by destruct s. Qed.

Lemma SFeqb_neg_inf (x : spec_float) :
  SFeqb x (S754_infinity true) = true <-> x = S754_infinity true.
Proof.
  unfold SFeqb. destruct x as [s|s| |s m e]; simpl; try done; by destruct s.
Qed.

(** Among numbers, not being exceeded is being greater or equal. *)
Lemma SFleb_of_not_ltb (m x : spec_float) :
  IEEE.sf_is_nan m = false -> IEEE.sf_is_nan x = false ->
  SFltb m x = false -> SFleb x m = true.
Proof.
  unfold SFltb, SFleb.
  destruct m as [sm|sm| |sm mm em], x as [sx|sx| |sx mx ex]; simpl; try done;
    try (destruct sm); try (destruct sx); simpl; try done.
  all: change (Pos.compare_cont Eq ?a ?b) with (Pos.compare a b).
  all: rewrite (Z.compare_antisym em ex), (Pos.compare_antisym mm mx).
  all: destruct (em ?= ex)%Z; simpl; try done; by destruct (mm ?= mx)%positive.
Qed.

End IEEE_order.

(** ** [scatter_max] on floating-point tensors *)

Lemma is_amax_is_maximum (prec emax : Z) (exp_impl : spec_float -> spec_float)
    (m : spec_float) (xs : list spec_float) :
  is_amax (dtype := IEEE.floating prec emax exp_impl) m xs -> is_maximum m xs.
Proof.
  unfold is_amax, is_maximum. simpl. intros [Hin Hm]. split; [done|].
  destruct (existsb IEEE.sf_is_nan xs) eqn:E.
  - by destruct m.
  - intros x Hx. apply SFleb_of_not_ltb; [| |by apply Hm].
    + destruct (IEEE.sf_is_nan m) eqn:Hnan; [|done].
      assert (existsb IEEE.sf_is_nan xs = true); [|congruence].
      apply existsb_exists. exists m. by rewrite <- list_elem_of_In.
    + destruct (IEEE.sf_is_nan x) eqn:Hnan; [|done].
      assert (existsb IEEE.sf_is_nan xs = true); [|congruence].
      apply existsb_exists. exists x. by rewrite <- list_elem_of_In.
Qed.

(** C2. At [src = [-inf]], [index = [0]] and [dim_size = 1] the group
    of position 0 holds one element, negative infinity, which is its
    maximum, and the first output of [scatter_max] holds zero there:
    the replacement of negative infinity by zero, written for the
    positions that received no value, also changes a position that
    received one. *)
Theorem scatter_max_lone_neg_inf :
  scatter_max (dtype := float32) (Tensor [1] [S754_infinity true]) (Tensor [1] [0%Z]) 0
    (Some 1%Z)
  = Ok (Tensor [1] [S754_zero false], Tensor [1] [0%Z]) /\
  tget (Tensor [1] [S754_infinity true]) <$> group_of (Tensor [1] [0%Z]) [1] 0 [0]
  = [S754_infinity true] /\
  is_maximum (S754_infinity true) [S754_infinity true] /\
  ~ is_maximum (S754_zero false) [S754_infinity true].
Proof.
  split; [by vm_compute|]. split; [by vm_compute|]. split.
  - split; [left|]. simpl. by intros x ->%list_elem_of_singleton.
  - intros [Hin _]. by apply list_elem_of_singleton in Hin.
Qed.


(** ** Shifting the source *)

Lemma bind_assoc {X Y W : Type} (m : result X) (k1 : X -> result Y) (k2 : Y -> result W) :
  bind (bind m k1) k2 = bind m (fun x => bind (k1 x) k2).
Proof. by destruct m. Qed.

Lemma bcast_coords_id (sh c : list nat) :
  in_bounds sh c -> Torch.bcast_coords sh c = c.
Proof.
  intros Hc. unfold Torch.bcast_coords.
  rewrite (in_bounds_length _ _ Hc), Nat.sub_diag, drop_0.
  induction Hc as [|i s c sh Hi Hc IH]; simpl; [done|].
  rewrite IH. destruct (s =? 1) eqn:E; [|done]. apply Nat.eqb_eq in E. f_equal. lia.
Qed.

Lemma expandable_refl (sh : list nat) : Torch.expandable sh sh = true.
Proof.
  apply expandable_spec. split; [done|]. rewrite Nat.sub_diag. simpl.
  induction sh; constructor; auto.
Qed.

(** Expanding to its own shape leaves a tensor as it is. *)
Lemma expand_id {X : Type} `{Inhabited X} (t : tensor X) :
  wf t -> Torch.expand t (shape t) = Ok t.
Proof.
  intros Hwf. unfold Torch.expand. rewrite expandable_refl.
  destruct t as [sh l]. unfold wf, numel in Hwf. simpl in *. do 2 f_equal.
  apply (list_eq_same_length _ _ (volume sh)); [done|by rewrite length_fmap, length_seq|].
  intros q x y Hq Hx Hy.
  rewrite list_lookup_fmap, lookup_seq_lt in Hx by done. simpl in Hx.
  injection Hx as <-. unfold tget. simpl.
  rewrite bcast_coords_id by by apply unravel_in_bounds.
  rewrite ravel_unravel by done. by apply list_lookup_total_correct.
Qed.

Lemma broadcast_shapes_refl (sh : list nat) : Torch.broadcast_shapes sh sh = Ok sh.
Proof.
  unfold Torch.broadcast_shapes.
  assert (forall l, Torch.broadcast_rev l l = Ok l) as Hrev.
  { induction l as [|x l IH]; simpl; [done|]. by rewrite IH, Nat.eqb_refl. }
  rewrite Hrev. simpl. by rewrite rev_involutive.
Qed.

(** A binary operation on two tensors of one shape works element by
    element. *)
Lemma binop_same_shape {A : Type} `{Inhabited A} (f : A -> A -> A) (a b : tensor A) :
  wf a -> wf b -> shape b = shape a ->
  Torch.binop f a b = Ok (Tensor (shape a) (zip_with f (data a) (data b))).
Proof.
  intros Ha Hb Hsh. unfold Torch.binop. rewrite Hsh, broadcast_shapes_refl. simpl.
  rewrite expand_id by done. simpl. rewrite <- Hsh, expand_id by done. simpl.
  by rewrite Hsh.
Qed.

Lemma gather_ok {A : Type} `{Inhabited A} (src : tensor A) (idx : tensor Z) (dim : Z)
    (d G : nat) (l : list A) :
  let sh := <[d := G]> (shape src) in
  Py.index (ndim src) dim = Ok d -> shape idx = shape src ->
  Forall (fun x => (0 <= x < Z.of_nat G)%Z) (data idx) ->
  Torch.gather (Tensor sh l) dim idx
  = Ok (Tensor (shape idx)
          ((fun q => l !!! Torch.scatter_target sh d idx q) <$> seq 0 (numel idx))).
Proof.
  intros sh Hd Hsh Hrange. pose proof (py_index_ok _ _ _ Hd) as [Hlt _].
  unfold Torch.gather, ndim. simpl.
  assert (length sh = ndim src) as Hlen by apply length_insert.
  rewrite Hlen, (maybe_wrap_dim_ok _ _ _ Hd). simpl.
  replace (Torch.gather_shape_ok _ _ _) with true; simpl.
  - replace (Torch.index_in_range _ _ _) with true; [done|].
    symmetry. unfold Torch.index_in_range. apply forallb_forall.
    intros x Hx%list_elem_of_In. rewrite Forall_forall in Hrange.
    specialize (Hrange x Hx). subst sh.
    rewrite list_lookup_total_insert_eq by done.
    apply andb_true_iff. rewrite Z.leb_le, Z.ltb_lt. lia.
  - symmetry. unfold Torch.gather_shape_ok. rewrite Hsh, Hlen. unfold ndim.
    rewrite Nat.eqb_refl. simpl.
    apply forallb_forall. intros k _. destruct (k =? d) eqn:E; [done|].
    apply Nat.eqb_neq in E. simpl. apply Nat.leb_le. subst sh.
    by rewrite list_lookup_total_insert_ne.
Qed.

Lemma expand_index_shape_only {X Y : Type} (index : tensor Z) (src : tensor X)
    (src' : tensor Y) (dim : Z) :
  shape src' = shape src -> _expand_index index src' dim = _expand_index index src dim.
Proof.
  intros Hsh. unfold _expand_index, Torch.expand_as, ndim. by rewrite Hsh.
Qed.

Lemma scatter_shape_ok_same (sh : list nat) (d G : nat) :
  Torch.scatter_shape_ok (<[d := G]> sh) d sh sh = true.
Proof.
  unfold Torch.scatter_shape_ok. rewrite length_insert, !Nat.eqb_refl. simpl.
  apply andb_true_iff. split.
  - apply forallb_forall. intros k _. destruct (k =? d) eqn:E; [done|].
    apply Nat.eqb_neq in E. simpl. apply Nat.leb_le.
    by rewrite list_lookup_total_insert_ne.
  - apply forallb_forall. intros k _. by apply Nat.leb_le.
Qed.

(** Whether [scatter_max] raises depends on the shape of [src] only: for
    an index expanded to that shape, either every source of the shape
    makes it raise the same exception, or the call runs with [dim] a
    dimension, a group count that is not negative and index values that
    address the output. *)
Lemma scatter_max_cases {A : Type} {additive : Additive A} {dtype : Floating A}
    (src : tensor A) (index : tensor Z) (dim n : Z) (idx : tensor Z) :
  _expand_index index src dim = Ok idx -> shape idx = shape src -> wf idx ->
  (exists e, forall src2 : tensor A,
     shape src2 = shape src -> scatter_max src2 index dim (Some n) = Raise e) \/
  (exists d, Py.index (ndim src) dim = Ok d /\ (0 <= n)%Z /\
             Forall (fun v => (0 <= v < n)%Z) (data idx)).
Proof.
  intros Hidx Hsh Hwf.
  assert (forall src2 : tensor A, shape src2 = shape src ->
            scatter_max src2 index dim (Some n)
            = let* shp := Py.setitem (shape_list src) dim n in
              let* out := Torch.full shp neg_inf in
              let* out := Torch.scatter_reduce_amax out dim idx src2 in
              Ok (Torch.where_ (Torch.eq_scalar out neg_inf) (Torch.zeros_like out) out,
                  Torch.zeros_like_long
                    (Torch.where_ (Torch.eq_scalar out neg_inf) (Torch.zeros_like out) out)))
    as Hunfold.
  { intros src2 Hsh2. unfold scatter_max. simpl.
    rewrite (expand_index_shape_only index src src2 dim Hsh2), Hidx.
    unfold shape_list. rewrite Hsh2. apply bind_ext. by intros shp _. }
  destruct (Py.index (ndim src) dim) as [d|e] eqn:Hd.
  - pose proof (py_index_ok _ _ _ Hd) as [Hlt _].
    destruct (Z.ltb_spec n 0) as [Hneg|Hpos].
    { left. exists RuntimeError. intros src2 Hsh2. rewrite (Hunfold src2 Hsh2).
      rewrite (setitem_ok _ _ d) by by rewrite length_shape_list. simpl.
      by rewrite full_raise_neg. }
    destruct (numel idx =? 0) eqn:Hempty.
    { right. exists d. split; [done|]. split; [done|].
      apply Nat.eqb_eq in Hempty. unfold wf in Hwf. rewrite Hempty in Hwf.
      apply nil_length_inv in Hwf. rewrite Hwf. constructor. }
    destruct (Torch.index_in_range (<[d := Z.to_nat n]> (shape src)) d idx) eqn:Hir.
    { right. exists d. split; [done|]. split; [done|].
      apply Forall_forall. intros v Hv%list_elem_of_In.
      unfold Torch.index_in_range in Hir. rewrite forallb_forall in Hir.
      specialize (Hir v Hv). rewrite list_lookup_total_insert_eq in Hir by done.
      rewrite andb_true_iff, Z.leb_le, Z.ltb_lt in Hir. lia. }
    left. exists RuntimeError. intros src2 Hsh2. rewrite (Hunfold src2 Hsh2).
    rewrite (setitem_ok _ _ d) by by rewrite length_shape_list. simpl.
    rewrite full_ok by done. simpl.
    unfold Torch.scatter_reduce_amax, Torch.scatter_checked, ndim. simpl.
    rewrite length_insert. fold (ndim src). rewrite (maybe_wrap_dim_ok _ _ _ Hd). simpl.
    rewrite Hempty, Hsh, Hsh2, scatter_shape_ok_same, Hir. done.
  - left. exists e. intros src2 Hsh2. rewrite (Hunfold src2 Hsh2).
    unfold Py.setitem. by rewrite length_shape_list, Hd.
Qed.

(** *** What an exact shift does to a group *)

Section ShiftGroup.

Context {A : Type} {additive : Additive A} {dtype : Floating A}.

Hypothesis ltb_nan_l : forall x y, is_nan x = true -> ltb x y = false.
Hypothesis ltb_irrefl : forall x, ltb x x = false.
Hypothesis ltb_trans : forall x y z, ltb x y = true -> ltb y z = true -> ltb x z = true.
Hypothesis ltb_neg_trans : forall x y z,
  is_nan z = false -> ltb x y = true -> ltb x z = true \/ ltb z y = true.
Hypothesis neg_inf_not_nan : is_nan neg_inf = false.
Hypothesis neg_inf_least : forall x,
  is_nan x = false -> ltb neg_inf x = false -> x = neg_inf.
Hypothesis eqb_neg_inf : forall x, eqb x neg_inf = true <-> x = neg_inf.

(** The scalar [c], the source [src], and what makes adding [c] exact on
    the entries of [src]: it keeps NaN and negative infinity apart from
    the other values, and changes neither the order nor the difference
    of two entries. *)
Variables (c : A) (src : tensor A).

Hypothesis shift_nan : forall x, x ∈ data src -> is_nan (add x c) = is_nan x.
Hypothesis shift_neg_inf : forall x,
  x ∈ data src -> eqb (add x c) neg_inf = eqb x neg_inf.
Hypothesis shift_above : forall x,
  x ∈ data src -> ltb neg_inf (add x c) = ltb neg_inf x.
Hypothesis shift_ltb : forall x y,
  x ∈ data src -> y ∈ data src -> ltb (add x c) (add y c) = ltb x y.
Hypothesis shift_sub : forall x y,
  x ∈ data src -> y ∈ data src -> sub (add x c) (add y c) = sub x y.

Lemma amax_fold_shift (xs : list A) (a a' : A) :
  (forall x, x ∈ xs -> x ∈ data src) ->
  (a = neg_inf /\ a' = neg_inf) \/ (a ∈ data src /\ a' = add a c) ->
  let m := foldl Torch.amax a xs in
  let m' := foldl Torch.amax a' ((fun x => add x c) <$> xs) in
  (m = neg_inf /\ m' = neg_inf) \/ (m ∈ data src /\ m' = add m c).
Proof.
  revert a a'. induction xs as [|x xs IH]; intros a a' Hxs Ha; simpl; [done|].
  apply IH; [intros y Hy; apply Hxs; by right|].
  assert (x ∈ data src) as Hx by (apply Hxs; left).
  unfold Torch.amax. rewrite (shift_nan x Hx).
  destruct (is_nan x); [by right|].
  destruct Ha as [[-> ->]|[Ha ->]].
  - rewrite (shift_above x Hx). destruct (ltb neg_inf x); [by right|by left].
  - rewrite (shift_ltb a x Ha Hx). destruct (ltb a x); by right.
Qed.

(** The centred value of an element of a group is unchanged. *)
Lemma centered_value_shift (xs : list A) (x : A) :
  (forall y, y ∈ xs -> y ∈ data src) -> x ∈ xs ->
  sub (add x c) (amax_group_value ((fun x => add x c) <$> xs))
  = sub x (amax_group_value xs).
Proof.
  intros Hxs Hx. unfold amax_group_value.
  assert (xs <> []) as Hne by (intros ->; by apply elem_of_nil in Hx).
  pose proof (amax_fold_is_amax ltb_nan_l ltb_irrefl ltb_trans ltb_neg_trans
                neg_inf_not_nan neg_inf_least xs Hne) as [Hin Hmax].
  set (m := foldl Torch.amax neg_inf xs) in *.
  assert (foldl Torch.amax neg_inf ((fun x => add x c) <$> xs) = add m c) as ->.
  { destruct (amax_fold_shift xs neg_inf neg_inf Hxs ltac:(by left)) as [[Hm Hm']|[_ Hm']];
      [|done].
    fold m in Hm. rewrite Hm'. symmetry. apply eqb_neg_inf.
    rewrite shift_neg_inf by (apply Hxs; exact Hin). by apply eqb_neg_inf. }
  rewrite (shift_neg_inf m) by by apply Hxs.
  destruct (eqb m neg_inf) eqn:E; [|apply shift_sub; auto].
  apply eqb_neg_inf in E.
  assert (x = neg_inf) as ->.
  { destruct (existsb is_nan xs) eqn:Hnan; [congruence|].
    apply neg_inf_least.
    - destruct (is_nan x) eqn:Hx'; [|done].
      assert (existsb is_nan xs = true); [|congruence].
      apply existsb_exists. exists x. by rewrite <- list_elem_of_In.
    - rewrite <- E. by apply Hmax. }
  assert (add neg_inf c = neg_inf) as ->; [|done].
  apply eqb_neg_inf. rewrite shift_neg_inf by (rewrite <- E; by apply Hxs).
  by apply eqb_neg_inf.
Qed.

Lemma zip_with_seq_ext {X Y W : Type} `{Inhabited X} (f : X -> Y -> W) (a a' : list X)
    (g g' : nat -> Y) (N : nat) :
  length a = N -> length a' = N ->
  (forall q, q < N -> f (a' !!! q) (g' q) = f (a !!! q) (g q)) ->
  zip_with f a' (g' <$> seq 0 N) = zip_with f a (g <$> seq 0 N).
Proof.
  intros Ha Ha' Hext.
  apply (list_eq_same_length _ _ N).
  - by rewrite length_zip_with, length_fmap, length_seq, Ha, Nat.min_id.
  - by rewrite length_zip_with, length_fmap, length_seq, Ha', Nat.min_id.
  - intros q w w' Hq.
    intros (x' & y' & -> & Hx' & Hy')%lookup_zip_with_Some
           (x & y & -> & Hx & Hy)%lookup_zip_with_Some.
    rewrite list_lookup_fmap, lookup_seq_lt in Hy, Hy' by done. simpl in Hy, Hy'.
    injection Hy as <-. injection Hy' as <-.
    rewrite <- (list_lookup_total_correct _ _ _ Hx), <- (list_lookup_total_correct _ _ _ Hx').
    by apply Hext.
Qed.

(** The source centred on the maxima of its groups is the same tensor
    for [src + c] as for [src]. *)
Lemma centered_shift (index idx : tensor Z) (dim n : Z) :
  wf src -> wf idx -> _expand_index index src dim = Ok idx -> shape idx = shape src ->
  (let* mx := scatter_max (Torch.add_scalar src c) index dim (Some n) in
   let* g := Torch.gather mx.1 dim idx in
   Torch.binop sub (Torch.add_scalar src c) g)
  = (let* mx := scatter_max src index dim (Some n) in
     let* g := Torch.gather mx.1 dim idx in
     Torch.binop sub src g).
Proof.
  intros Hwf Hwfi Hidx Hsh.
  assert (shape (Torch.add_scalar src c) = shape src) as Hsh' by done.
  destruct (scatter_max_cases src index dim n idx Hidx Hsh Hwfi)
    as [[e He]|(d & Hd & Hn & Hrange)].
  { by rewrite (He _ Hsh'), (He src). }
  pose proof (py_index_ok _ _ _ Hd) as [Hlt _].
  assert (Forall (fun x => (0 <= x < Z.of_nat (Z.to_nat n))%Z) (data idx)) as Hrange'
    by by rewrite Z2Nat.id.
  rewrite (scatter_max_run (Torch.add_scalar src c) index dim n d idx);
    [|done|by rewrite (expand_index_shape_only index src)|done..].
  rewrite (scatter_max_run src index dim n d idx) by done.
  simpl. rewrite !(gather_ok src idx dim d (Z.to_nat n)) by done. simpl.
  rewrite !binop_same_shape;
    [|done|unfold wf, numel; simpl; by rewrite length_fmap, length_seq, Hsh|done
     |unfold wf, numel; simpl; by rewrite length_fmap
     |unfold wf, numel; simpl; by rewrite length_fmap, length_seq, Hsh|done].
  simpl. do 2 f_equal.
  set (sh := <[d := Z.to_nat n]> (shape src)).
  assert (length (data src) = numel idx) as Hlen by (unfold numel; by rewrite Hsh).
  apply (zip_with_seq_ext sub); [done|by rewrite length_fmap|].
  intros q Hq.
  rewrite (@list_lookup_total_fmap _ _ _ _ _) by by rewrite Hlen.
  pose proof (unravel_in_bounds _ _ Hq) as Hu.
  set (u := unravel (shape idx) q) in *.
  assert (0 <= data idx !!! q < n)%Z as Hv.
  { rewrite Forall_forall in Hrange. apply Hrange, list_elem_of_lookup_total_2.
    by rewrite Hwfi. }
  set (v := data idx !!! q) in *.
  assert (length u = ndim src) as Hlu by (rewrite (in_bounds_length _ _ Hu); by rewrite Hsh).
  assert (Torch.scatter_target sh d idx q = ravel sh (<[d := Z.to_nat v]> u)) as -> by done.
  assert (in_bounds sh (<[d := Z.to_nat v]> u)) as Hc.
  { subst sh. rewrite <- Hsh. apply in_bounds_insert; [done|lia]. }
  pose proof (scatter_max_data_lookup (Torch.add_scalar src c) idx d (Z.to_nat n)
                (<[d := Z.to_nat v]> u) Hwfi Hsh Hlt Hrange' Hc) as Hmax'.
  pose proof (scatter_max_data_lookup src idx d (Z.to_nat n)
                (<[d := Z.to_nat v]> u) Hwfi Hsh Hlt Hrange' Hc) as Hmax.
  cbv zeta in Hmax, Hmax'. change (shape (Torch.add_scalar src c)) with (shape src) in Hmax'.
  fold sh in Hmax, Hmax'. rewrite Hmax, Hmax'. clear Hmax Hmax'.
  assert (forall c', c' ∈ group idx d (<[d := Z.to_nat v]> u) ->
            ravel (shape src) c' < length (data src)) as Hmem.
  { intros c' (i & Hi & -> & _)%elem_of_group. rewrite Hwf. apply ravel_lt.
    rewrite list_insert_insert_eq, <- Hsh.
    apply (in_bounds_insert_back _ _ _ (shape idx !!! d)).
    - rewrite list_insert_id; [done|]. apply list_lookup_lookup_total_lt. by rewrite Hsh.
    - by rewrite Hsh.
    - done. }
  assert (tget (Torch.add_scalar src c) <$> group idx d (<[d := Z.to_nat v]> u)
          = (fun x => add x c) <$> (tget src <$> group idx d (<[d := Z.to_nat v]> u))) as ->.
  { rewrite <- list_fmap_compose. apply list_fmap_ext. intros k c' Hk.
    unfold tget, Torch.add_scalar, Torch.tmap. simpl.
    apply (@list_lookup_total_fmap _ _ (fun x => add x c) _ _).
    apply Hmem. by eapply list_elem_of_lookup_2. }
  assert (data src !!! q = tget src u) as ->.
  { unfold tget. subst u. by rewrite <- Hsh, ravel_unravel. }
  apply centered_value_shift.
  - intros y (c' & -> & Hc')%list_elem_of_fmap.
    apply list_elem_of_lookup_total_2. by apply Hmem.
  - apply list_elem_of_fmap_2. apply elem_of_group.
    exists (u !!! d). split; [apply in_bounds_lookup; [done|by rewrite Hsh]|].
    assert (<[d := u !!! d]> (<[d := Z.to_nat v]> u) = u) as Hback.
    { rewrite list_insert_insert_eq. apply list_insert_id.
      apply list_lookup_lookup_total_lt. lia. }
    split; [by rewrite Hback|].
    unfold tget. subst u. rewrite ravel_unravel by done. fold v.
    rewrite list_lookup_total_insert_eq by lia. lia.
Qed.

(** [scatter_softmax] reads [src] through the centred source only. *)
Lemma scatter_softmax_factor (s : tensor A) (index : tensor Z) (dim : Z)
    (dim_size : option Z) :
  scatter_softmax s index dim dim_size
  = let* n := infer_dim_size index dim_size in
    let* idx := _expand_index index s dim in
    let* centered :=
      (let* mx := scatter_max s index dim (Some n) in
       let* g := Torch.gather mx.1 dim idx in
       Torch.binop sub s g) in
    let src_exp := Torch.tmap exp centered in
    let* sum_exp := scatter_sum src_exp index dim (Some n) in
    let* gathered_sum := Torch.gather sum_exp dim idx in
    Torch.binop div src_exp (Torch.clamp_min_eps gathered_sum).
Proof.
  unfold scatter_softmax. apply bind_ext. intros n _. apply bind_ext. intros idx _.
  rewrite bind_assoc. apply bind_ext. intros mx _. simpl. by rewrite bind_assoc.
Qed.

Lemma scatter_softmax_shift (index : tensor Z) (dim : Z) (dim_size : option Z) :
  wf src -> compatible index src dim ->
  scatter_softmax (Torch.add_scalar src c) index dim dim_size
  = scatter_softmax src index dim dim_size.
Proof.
  intros Hwf Hcompat. rewrite !scatter_softmax_factor.
  apply bind_ext. intros n _.
  rewrite (expand_index_shape_only index src (Torch.add_scalar src c)) by done.
  destruct (expand_index_compatible index src dim Hcompat) as (idx & Hidx & Hsh & Hwfi).
  rewrite Hidx. simpl.
  by rewrite (centered_shift index idx dim n).
Qed.

End ShiftGroup.

(** ** [scatter_softmax] of a shifted source *)

Lemma SFltb_neg_inf (y : spec_float) :
  SFltb (S754_infinity true) y
  = negb (IEEE.sf_is_nan y) && negb (SFeqb y (S754_infinity true)).
Proof.
  unfold SFltb, SFeqb. destruct y as [s|s| |s m e]; simpl; try done; by destruct s.
Qed.

Lemma shift_exact_spec (prec emax : Z) (c : spec_float) (src : tensor spec_float) :
  shift_exact prec emax c src = true ->
  forall x, x ∈ data src ->
    IEEE.sf_is_nan (SFadd prec emax x c) = IEEE.sf_is_nan x /\
    SFeqb (SFadd prec emax x c) (S754_infinity true) = SFeqb x (S754_infinity true) /\
    forall y, y ∈ data src ->
      SFltb (SFadd prec emax x c) (SFadd prec emax y c) = SFltb x y /\
      SFsub prec emax (SFadd prec emax x c) (SFadd prec emax y c) = SFsub prec emax x y.
Proof.
  unfold shift_exact. rewrite forallb_forall. intros Hall x Hx%list_elem_of_In.
  specialize (Hall x Hx). rewrite !andb_true_iff, forallb_forall in Hall.
  destruct Hall as [[Hnan Hinf] Hpair].
  split; [by apply Bool.eqb_prop|]. split; [by apply Bool.eqb_prop|].
  intros y Hy%list_elem_of_In. specialize (Hpair y Hy).
  rewrite andb_true_iff in Hpair. destruct Hpair as [Hlt Hsub].
  split; [by apply Bool.eqb_prop|]. by apply bool_decide_eq_true in Hsub.
Qed.

(** C4, as the code has it. On floating-point tensors of any IEEE
    format, for an index compatible with [src] and a scalar [c] whose
    addition is exact on the entries of [src],
    [scatter_softmax (src + c) index dim] is
    [scatter_softmax src index dim], whatever [dim] and [dim_size]. *)
Theorem scatter_softmax_shift_exact (prec emax : Z) (exp_impl : spec_float -> spec_float)
    (src : tensor spec_float) (index : tensor Z) (dim : Z) (dim_size : option Z)
    (c : spec_float) :
  wf src -> compatible index src dim -> shift_exact prec emax c src = true ->
  scatter_softmax (dtype := IEEE.floating prec emax exp_impl)
    (Torch.add_scalar (dtype := IEEE.additive prec emax) src c) index dim dim_size
  = scatter_softmax (dtype := IEEE.floating prec emax exp_impl) src index dim dim_size.
Proof.
  intros Hwf Hcompat Hexact.
  pose proof (shift_exact_spec prec emax c src Hexact) as Hspec.
  apply (scatter_softmax_shift (dtype := IEEE.floating prec emax exp_impl)); try done.
  - apply SFltb_nan_l.
  - apply SFltb_irrefl.
  - apply SFltb_trans.
  - apply SFltb_neg_trans.
  - apply SFltb_neg_inf_least.
  - apply SFeqb_neg_inf.
  - intros x Hx. by apply Hspec.
  - intros x Hx. by apply Hspec.
  - intros x Hx. simpl. rewrite !SFltb_neg_inf.
    destruct (Hspec x Hx) as (-> & -> & _). done.
  - intros x y Hx Hy. by apply Hspec.
  - intros x y Hx Hy. by apply Hspec.
Qed.

Lemma scatter_softmax_shift_exact_witness :
  scatter_softmax (dtype := float32)
    (Torch.add_scalar (dtype := IEEE.additive 24 128)
       (Tensor [2; 2] (f32 <$> [1; 2; 3; 4]%Z)) (f32 10))
    (Tensor [2] [0; 0]%Z) (-1) None
  = scatter_softmax (dtype := float32) (Tensor [2; 2] (f32 <$> [1; 2; 3; 4]%Z))
      (Tensor [2] [0; 0]%Z) (-1) None.
Proof.
  apply (scatter_softmax_shift_exact 24 128 (IEEE.sf_exp 24 128)).
  - reflexivity.
  - exists 1. split; reflexivity.
  - vm_compute. reflexivity.
Defined.

(** The claim as the specification words it fails where the addition
    rounds: in float32, [0 + 10^8] and [1 + 10^8] are both [10^8], so the
    shifted source has two equal entries and its softmax is one half
    twice, while the softmax of the source is about 0.2689 and 0.7311. *)
Lemma scatter_softmax_shift_counterexample :
  Torch.add_scalar (dtype := IEEE.additive 24 128) (Tensor [2] [f32 0; f32 1]) (f32 (10 ^ 8))
  = Tensor [2] [f32 (10 ^ 8); f32 (10 ^ 8)] /\
  scatter_softmax (dtype := float32)
    (Torch.add_scalar (dtype := IEEE.additive 24 128) (Tensor [2] [f32 0; f32 1])
       (f32 (10 ^ 8)))
    (Tensor [2] [0; 0]%Z) 0 None
  = Ok (Tensor [2] [S754_finite false 8388608 (-24); S754_finite false 8388608 (-24)]) /\
  scatter_softmax (dtype := float32) (Tensor [2] [f32 0; f32 1]) (Tensor [2] [0; 0]%Z) 0 None
  = Ok (Tensor [2] [S754_finite false 9024177 (-25); S754_finite false 12265128 (-24)]) /\
  decimal 4 (S754_finite false 8388608 (-24)) = Some 5000%Z /\
  decimal 4 (S754_finite false 9024177 (-25)) = Some 2689%Z /\
  decimal 4 (S754_finite false 12265128 (-24)) = Some 7311%Z.
Proof. repeat split; by vm_compute. Qed.

(** Without compatible sizes the shift can change the result even when
    it is exact: an index of one element and rank 0 selects the first
    entry of [src] only, and the other entries are centred on its group. *)
Example scatter_softmax_shift_incompatible :
  shift_exact 24 128 (f32 1) (Tensor [2] [S754_infinity true; f32 5]) = true /\
  scatter_softmax (dtype := float32)
    (Torch.add_scalar (dtype := IEEE.additive 24 128)
       (Tensor [2] [S754_infinity true; f32 5]) (f32 1))
    (Tensor [] [0%Z]) 0 None
  <> scatter_softmax (dtype := float32) (Tensor [2] [S754_infinity true; f32 5])
       (Tensor [] [0%Z]) 0 None.
Proof. split; [by vm_compute|]. vm_compute. discriminate. Qed.

(** ** Instances of the theorems *)

Lemma scatter_sum_groups_witness :
  exists out,
    scatter_sum (dtype := int64) (Tensor [2; 3] [1; 2; 3; 4; 5; 6]%Z)
      (Tensor [3] [1; 0; 1]%Z) (-1) (Some 3%Z) = Ok out /\
    shape out = <[1 := Z.to_nat 3]> [2; 3] /\
    forall c, in_bounds (shape out) c ->
      tget (H := Additive_inhabited (dtype := int64)) out c
      = foldl (add (Additive := int64)) 0%Z
          (tget (H := Additive_inhabited (dtype := int64))
             (Tensor [2; 3] [1; 2; 3; 4; 5; 6]%Z)
             <$> group_of (Tensor [3] [1; 0; 1]%Z) [2; 3] 1 c) /\
      (group_of (Tensor [3] [1; 0; 1]%Z) [2; 3] 1 c = [] ->
       tget (H := Additive_inhabited (dtype := int64)) out c = 0%Z).
Proof.
  apply (scatter_sum_groups (dtype := int64) (Tensor [2; 3] [1; 2; 3; 4; 5; 6]%Z)
           (Tensor [3] [1; 0; 1]%Z) (-1) 3 1).
  - constructor.
  - reflexivity.
  - reflexivity.
  - split; [exists 1; split; reflexivity|]. right. vm_compute. lia.
  - lia.
  - repeat constructor; lia.
Defined.

Lemma expand_index_shape_witness :
  exists idx,
    _expand_index (Tensor [3] [1; 0; 1]%Z) (Tensor [2; 3] [1; 2; 3; 4; 5; 6]%Z) 1 = Ok idx /\
    shape idx = [2; 3].
Proof.
  apply (expand_index_shape (Tensor [3] [1; 0; 1]%Z) (Tensor [2; 3] [1; 2; 3; 4; 5; 6]%Z) 1).
  exists 1. split; reflexivity.
Defined.

Lemma scatter_output_shape_witness :
  (exists d n,
     Py.index 2 (-1) = Ok d /\
     is_group_count (Tensor [3] [1; 0; 1]%Z) (Some 3%Z) n /\ (0 <= n)%Z /\
     shape (Tensor [2; 3] [2; 4; 0; 5; 10; 0]%Z) = <[d := Z.to_nat n]> [2; 3]) /\
  (exists d n,
     Py.index 1 0 = Ok d /\
     is_group_count (Tensor [4] [0; 0; 1; 1]%Z) None n /\ (0 <= n)%Z /\
     shape (Tensor [2] (f32 <$> [2; 4]%Z)) = <[d := Z.to_nat n]> [4]).
Proof.
  destruct (scatter_output_shape (dtype_sum := int64) (dtype := float32)
              (Tensor [2; 3] [1; 2; 3; 4; 5; 6]%Z) (Tensor [2; 3] (f32 <$> [1; 2; 3; 4; 5; 6]%Z))
              (Tensor [3] [1; 0; 1]%Z) (-1) (Some 3%Z)) as [Hsum _].
  destruct (scatter_output_shape (dtype_sum := int64) (dtype := float32)
              (Tensor [4] [1; 2; 3; 4]%Z) (Tensor [4] (f32 <$> [1; 2; 3; 4]%Z))
              (Tensor [4] [0; 0; 1; 1]%Z) 0 None) as [_ Hmax].
  split.
  - apply (Hsum (Tensor [2; 3] [2; 4; 0; 5; 10; 0]%Z)). vm_compute. reflexivity.
  - apply (Hmax (Tensor [2] (f32 <$> [2; 4]%Z)) (Tensor [2] [0; 0]%Z)). vm_compute. reflexivity.
Defined.

Lemma scatter_max_argmax_zeros_witness :
  shape (Tensor [2] [0; 0]%Z) = shape (Tensor [2] (f32 <$> [2; 4]%Z)) /\
  wf (Tensor [2] [0; 0]%Z) /\
  Forall (fun v => v = 0%Z) (data (Tensor [2] [0; 0]%Z)) /\
  forall (src' : tensor spec_float) (index' : tensor Z) (dim' : Z) (dim_size' : option Z)
         (out' : tensor spec_float) (arg' : tensor Z),
    scatter_max (dtype := float32) src' index' dim' dim_size' = Ok (out', arg') ->
    shape out' = shape (Tensor [2] (f32 <$> [2; 4]%Z)) -> arg' = Tensor [2] [0; 0]%Z.
Proof.
  apply (scatter_max_argmax_zeros (dtype := float32) (Tensor [4] (f32 <$> [1; 2; 3; 4]%Z))
           (Tensor [4] [0; 0; 1; 1]%Z) 0 None).
  vm_compute. reflexivity.
Defined.

Lemma negative_dim_normalised_witness :
  scatter_sum (dtype := int64) (Tensor [2; 3] [1; 2; 3; 4; 5; 6]%Z)
      (Tensor [3] [1; 0; 1]%Z) (-1) None
    = scatter_sum (dtype := int64) (Tensor [2; 3] [1; 2; 3; 4; 5; 6]%Z)
        (Tensor [3] [1; 0; 1]%Z) (-1 + Z.of_nat 2) None /\
  scatter_max (dtype := float32) (Tensor [2; 3] (f32 <$> [1; 2; 3; 4; 5; 6]%Z))
      (Tensor [3] [1; 0; 1]%Z) (-1) None
    = scatter_max (dtype := float32) (Tensor [2; 3] (f32 <$> [1; 2; 3; 4; 5; 6]%Z))
        (Tensor [3] [1; 0; 1]%Z) (-1 + Z.of_nat 2) None /\
  scatter_softmax (dtype := float32) (Tensor [2; 3] (f32 <$> [1; 2; 3; 4; 5; 6]%Z))
      (Tensor [3] [1; 0; 1]%Z) (-1) None
    = scatter_softmax (dtype := float32) (Tensor [2; 3] (f32 <$> [1; 2; 3; 4; 5; 6]%Z))
        (Tensor [3] [1; 0; 1]%Z) (-1 + Z.of_nat 2) None.
Proof.
  apply (negative_dim_normalised (dtype_sum := int64) (dtype := float32) 2).
  - reflexivity.
  - reflexivity.
  - lia.
Defined.

Lemma empty_index_raises_witness :
  scatter_sum (dtype := int64) (Tensor [0] []) (Tensor [0] []) 0 None = Raise RuntimeError /\
  scatter_max (dtype := float32) (Tensor [0] []) (Tensor [0] []) 0 None = Raise RuntimeError /\
  scatter_softmax (dtype := float32) (Tensor [0] []) (Tensor [0] []) 0 None
    = Raise RuntimeError.
Proof.
  apply (empty_index_raises (dtype_sum := int64) (dtype := float32)).
  - reflexivity.
  - reflexivity.
Defined.


(** * Further properties *)

(** ** Index expansion, case by case *)

(** X1. For an index whose rank differs from that of [src] and that has
    at most one dimension of a size other than 1, [_expand_index] raises
    [IndexError] when [dim] is not a dimension of [src], and otherwise
    succeeds whatever the size of that dimension: the result has the
    shape of [src] with the size at [dim] replaced by the number of
    elements of [index], and holds at coordinate [c] the element of
    [index] numbered by the entry of [c] at [dim], so that it is constant
    along every other dimension. *)
Theorem expand_index_other_rank {X : Type} (index : tensor Z) (src : tensor X) (dim : Z) :
  ndim index <> ndim src -> lone_dimension (shape index) ->
  match Py.index (ndim src) dim with
  | Ok d =>
      exists idx, _expand_index index src dim = Ok idx /\
        shape idx = <[d := numel index]> (shape src) /\
        forall c, in_bounds (shape idx) c -> tget idx c = data index !!! (c !!! d)
  | Raise e => _expand_index index src dim = Raise IndexError
  end.
Proof.
  intros Hrank _. destruct (Py.index (ndim src) dim) as [d|e] eqn:Hd.
  - destruct (expand_index_flat index src dim d Hrank Hd) as (idx & Hidx & Hsh & Hwf & _).
    exists idx. split; [done|]. split; [done|].
    intros c Hc. by apply (expand_index_flat_value index src dim d idx c).
  - unfold _expand_index. apply Nat.eqb_neq in Hrank. rewrite Hrank.
    unfold Py.setitem. rewrite length_replicate, Hd. simpl.
    unfold Py.index in Hd. repeat destruct (_ && _) in Hd; try done. by injection Hd as <-.
Qed.

Lemma expand_index_other_rank_witness :
  exists idx, _expand_index (Tensor [3] [1; 0; 1]%Z) (Tensor [2; 3] [1; 2; 3; 4; 5; 6]%Z) (-1)
              = Ok idx /\
    shape idx = <[1 := 3]> [2; 3] /\
    forall c, in_bounds (shape idx) c -> tget idx c = [1; 0; 1]%Z !!! (c !!! 1).
Proof.
  apply (expand_index_other_rank (Tensor [3] [1; 0; 1]%Z)
           (Tensor [2; 3] [1; 2; 3; 4; 5; 6]%Z) (-1)).
  - by vm_compute.
  - vm_compute. lia.
Defined.

(** X2. For an index of the rank of [src], [_expand_index] ignores
    [dim]. When every size of [index] is the size of [src] or 1 the
    result has the shape of [src] and reads [index] with the stretched
    coordinates set to 0; otherwise the call raises [RuntimeError]. *)
Theorem expand_index_equal_rank {X : Type} (index : tensor Z) (src : tensor X) (dim : Z) :
  ndim index = ndim src ->
  (Forall2 (fun s n => s = n \/ s = 1) (shape index) (shape src) ->
     exists idx, _expand_index index src dim = Ok idx /\ shape idx = shape src /\
       forall c, in_bounds (shape src) c ->
         tget idx c
         = tget index (zip_with (fun s i => if s =? 1 then 0 else i) (shape index) c)) /\
  (~ Forall2 (fun s n => s = n \/ s = 1) (shape index) (shape src) ->
     _expand_index index src dim = Raise RuntimeError).
Proof.
  intros Hrank. rewrite (expand_index_same_rank index src dim Hrank).
  assert (Torch.expandable (shape index) (shape src) = true
          <-> Forall2 (fun s n => s = n \/ s = 1) (shape index) (shape src)) as Hspec.
  { rewrite expandable_spec. unfold ndim in Hrank.
    rewrite Hrank, Nat.sub_diag, drop_0. split; [by intros [_ ?]|by split]. }
  split.
  - intros Hable%Hspec. unfold Torch.expand. rewrite Hable. eexists. split; [done|].
    split; [done|]. intros c Hc. unfold tget at 1. simpl.
    rewrite (@list_lookup_total_fmap _ _ _ _ _) by (rewrite length_seq; by apply ravel_lt).
    rewrite lookup_total_seq_lt by by apply ravel_lt. simpl.
    rewrite unravel_ravel by done. unfold Torch.bcast_coords.
    rewrite (in_bounds_length _ _ Hc). unfold ndim in Hrank.
    by rewrite <- Hrank, Nat.sub_diag, drop_0.
  - intros Hno. unfold Torch.expand.
    destruct (Torch.expandable _ _) eqn:E; [|done]. exfalso. by apply Hno, Hspec.
Qed.

Lemma expand_index_equal_rank_witness :
  exists idx, _expand_index (Tensor [1; 3] [1; 0; 1]%Z)
                (Tensor [2; 3] [1; 2; 3; 4; 5; 6]%Z) 0 = Ok idx /\
    shape idx = [2; 3] /\
    forall c, in_bounds [2; 3] c ->
      tget idx c
      = tget (Tensor [1; 3] [1; 0; 1]%Z)
          (zip_with (fun s i => if s =? 1 then 0 else i) [1; 3] c).
Proof.
  apply (expand_index_equal_rank (Tensor [1; 3] [1; 0; 1]%Z)
           (Tensor [2; 3] [1; 2; 3; 4; 5; 6]%Z) 0).
  - reflexivity.
  - simpl. constructor; [by right|]. constructor; [by left|]. constructor.
Defined.

(** X3. Expanding is idempotent: the expansion of a compatible index is
    returned unchanged when it is expanded again, for any [dim]. *)
Theorem expand_index_idempotent {X : Type} (index : tensor Z) (src : tensor X) (dim : Z) :
  compatible index src dim ->
  exists idx, _expand_index index src dim = Ok idx /\
    forall dim', _expand_index idx src dim' = Ok idx.
Proof.
  intros (idx & Hidx & Hsh & Hwf)%expand_index_compatible. exists idx. split; [done|].
  intros dim'. rewrite expand_index_same_rank by (unfold ndim; by rewrite Hsh).
  rewrite <- Hsh. by apply expand_id.
Qed.

Lemma expand_index_idempotent_witness :
  exists idx, _expand_index (Tensor [3] [1; 0; 1]%Z) (Tensor [2; 3] [1; 2; 3; 4; 5; 6]%Z) (-1)
              = Ok idx /\
    forall dim', _expand_index idx (Tensor [2; 3] [1; 2; 3; 4; 5; 6]%Z) dim' = Ok idx.
Proof.
  apply (expand_index_idempotent (Tensor [3] [1; 0; 1]%Z)
           (Tensor [2; 3] [1; 2; 3; 4; 5; 6]%Z) (-1)).
  exists 1. split; reflexivity.
Defined.

Lemma volume_nonzero (sh : list nat) : volume sh <> 0 -> Forall (fun n => 0 < n) sh.
Proof.
  induction sh as [|s sh IH]; simpl; [constructor|]. fold (volume sh).
  intros Hv. constructor; [lia|]. apply IH. lia.
Qed.

Lemma in_bounds_zeros (sh : list nat) :
  volume sh <> 0 -> in_bounds sh (replicate (length sh) 0).
Proof.
  intros Hv%volume_nonzero. induction Hv as [|s sh Hs Hv IH]; simpl; by constructor.
Qed.

(** When [src] has elements, each element of a compatible index occurs
    in its expansion. *)
Lemma expand_index_covers {X : Type} (index : tensor Z) (src : tensor X) (dim : Z)
    (idx : tensor Z) (v : Z) :
  wf index -> compatible index src dim -> numel src <> 0 ->
  _expand_index index src dim = Ok idx -> v ∈ data index -> v ∈ data idx.
Proof.
  intros Hwf Hcompat Hsrc Hidx Hv.
  apply list_elem_of_lookup_total in Hv as (j & Hj & <-). rewrite Hwf in Hj.
  unfold compatible in Hcompat. destruct (ndim index =? ndim src) eqn:Hrank.
  - apply Nat.eqb_eq in Hrank. rewrite expand_index_same_rank in Hidx by done.
    pose proof (expand_ok _ _ _ Hidx) as (_ & Hsh & Hwfi & Hdata).
    pose proof (unravel_in_bounds _ _ Hj) as Hu.
    set (ci := unravel (shape index) j) in *.
    assert (in_bounds (shape src) ci) as Hci.
    { apply expandable_spec in Hcompat as [_ Hall]. unfold ndim in Hrank.
      rewrite Hrank, Nat.sub_diag, drop_0 in Hall.
      apply volume_nonzero in Hsrc. unfold in_bounds in *.
      revert Hu Hsrc. generalize ci. clear -Hall.
      induction Hall as [|s n sh sizes Hs Hall IH]; intros c Hu Hpos;
        inversion Hu; subst; [constructor|].
      inversion Hpos; subst. constructor; [lia|by apply IH]. }
    assert (data idx !!! ravel (shape src) ci = data index !!! j) as <-.
    { rewrite Hdata by by apply ravel_lt. rewrite unravel_ravel by done.
      rewrite bcast_coords_id by done. unfold tget. subst ci.
      by rewrite ravel_unravel. }
    apply list_elem_of_lookup_total_2. rewrite Hwfi. unfold numel. rewrite Hsh.
    by apply ravel_lt.
  - apply Nat.eqb_neq in Hrank. destruct Hcompat as (d & Hd & Hn).
    pose proof (py_index_ok _ _ _ Hd) as [Hlt _].
    destruct (expand_index_flat index src dim d Hrank Hd) as (idx' & Hidx' & Hsh & Hwfi & _).
    rewrite Hidx in Hidx'. injection Hidx' as <-.
    assert (shape idx = shape src) as Hsh'.
    { rewrite Hsh, Hn. apply list_insert_id. by apply list_lookup_lookup_total_lt. }
    set (c := <[d := j]> (replicate (ndim src) 0)).
    assert (in_bounds (shape idx) c) as Hc.
    { rewrite Hsh. apply in_bounds_insert; [|done]. by apply in_bounds_zeros. }
    assert (tget idx c = data index !!! j) as <-.
    { rewrite (expand_index_flat_value index src dim d idx c) by done.
      subst c. by rewrite list_lookup_total_insert_eq by by rewrite length_replicate. }
    apply list_elem_of_lookup_total_2. rewrite Hwfi. by apply ravel_lt.
Qed.

(** X4. When [src] has elements, the expansion of a compatible index
    holds exactly the values of the index: none is lost and none is
    new. *)
Theorem expand_index_same_values {X : Type} (index : tensor Z) (src : tensor X) (dim : Z)
    (idx : tensor Z) (v : Z) :
  wf index -> compatible index src dim -> numel src <> 0 ->
  _expand_index index src dim = Ok idx ->
  v ∈ data idx <-> v ∈ data index.
Proof.
  intros Hwf Hcompat Hsrc Hidx. split.
  - by apply (expand_index_elem_of index src dim).
  - by apply (expand_index_covers index src dim).
Qed.

Lemma expand_index_same_values_witness :
  2%Z ∈ data (Tensor [2; 3] [1; 0; 2; 1; 0; 2]%Z) <-> 2%Z ∈ data (Tensor [3] [1; 0; 2]%Z).
Proof.
  apply (expand_index_same_values (Tensor [3] [1; 0; 2]%Z)
           (Tensor [2; 3] [1; 2; 3; 4; 5; 6]%Z) (-1)).
  - reflexivity.
  - exists 1. split; reflexivity.
  - by vm_compute.
  - reflexivity.
Defined.

(** ** What raises *)

(** The checks of a scatter pass refuse an index value outside the
    output. *)
Lemma scatter_checked_out_of_range {A : Type} (src : tensor A) (idx : tensor Z) (dim : Z)
    (d G : nat) (l : list A) (kernel : nat -> list A) (v : Z) :
  Py.index (ndim src) dim = Ok d -> shape idx = shape src -> numel src <> 0 ->
  v ∈ data idx -> ~ (0 <= v < Z.of_nat G)%Z ->
  Torch.scatter_checked (Tensor (<[d := G]> (shape src)) l) dim idx src kernel
  = Raise RuntimeError.
Proof.
  intros Hd Hsh Hsrc Hv Hout. pose proof (py_index_ok _ _ _ Hd) as [Hlt _].
  unfold Torch.scatter_checked, ndim. simpl. rewrite length_insert. fold (ndim src).
  rewrite (maybe_wrap_dim_ok _ _ _ Hd). simpl.
  assert ((numel idx =? 0) = false) as ->.
  { apply Nat.eqb_neq. unfold numel in *. by rewrite Hsh. }
  rewrite Hsh, scatter_shape_ok_same. simpl.
  assert (Torch.index_in_range (<[d := G]> (shape src)) d idx = false) as ->; [|done].
  apply not_true_is_false. intros Hir. apply Hout.
  unfold Torch.index_in_range in Hir. rewrite forallb_forall in Hir.
  apply list_elem_of_In in Hv. specialize (Hir v Hv).
  rewrite list_lookup_total_insert_eq in Hir by done.
  rewrite andb_true_iff, Z.leb_le, Z.ltb_lt in Hir. lia.
Qed.

Lemma scatter_sum_out_of_range_raises {A : Type} {dtype : Additive A} (src : tensor A)
    (index : tensor Z) (dim G : Z) (d : nat) (v : Z) :
  wf index -> Py.index (ndim src) dim = Ok d -> compatible index src dim ->
  numel src <> 0 -> v ∈ data index -> ~ (0 <= v < G)%Z ->
  scatter_sum src index dim (Some G) = Raise RuntimeError.
Proof.
  intros Hwf Hd Hcompat Hsrc Hv Hout. pose proof (py_index_ok _ _ _ Hd) as [Hlt _].
  destruct (expand_index_compatible index src dim Hcompat) as (idx & Hidx & Hsh & Hwfi).
  unfold scatter_sum. simpl.
  rewrite (setitem_ok _ _ d) by by rewrite length_shape_list.
  simpl. rewrite Hidx. simpl. unfold Torch.zeros.
  destruct (Z.ltb_spec G 0) as [Hneg|Hpos]; [by rewrite full_raise_neg|].
  rewrite full_ok by done. simpl. unfold Torch.scatter_add.
  apply (scatter_checked_out_of_range src idx dim d _ _ _ v); try done.
  - by apply (expand_index_covers index src dim).
  - by rewrite Z2Nat.id.
Qed.

Lemma scatter_max_out_of_range_raises {A : Type} {additive : Additive A}
    {dtype : Floating A} (src : tensor A)
    (index : tensor Z) (dim G : Z) (d : nat) (v : Z) :
  wf index -> Py.index (ndim src) dim = Ok d -> compatible index src dim ->
  numel src <> 0 -> v ∈ data index -> ~ (0 <= v < G)%Z ->
  scatter_max src index dim (Some G) = Raise RuntimeError.
Proof.
  intros Hwf Hd Hcompat Hsrc Hv Hout. pose proof (py_index_ok _ _ _ Hd) as [Hlt _].
  destruct (expand_index_compatible index src dim Hcompat) as (idx & Hidx & Hsh & Hwfi).
  unfold scatter_max. simpl.
  rewrite (setitem_ok _ _ d) by by rewrite length_shape_list.
  simpl. rewrite Hidx. simpl.
  destruct (Z.ltb_spec G 0) as [Hneg|Hpos]; [by rewrite full_raise_neg|].
  rewrite full_ok by done. simpl. unfold Torch.scatter_reduce_amax.
  rewrite (scatter_checked_out_of_range src idx dim d _ _ _ v); try done.
  - by apply (expand_index_covers index src dim).
  - by rewrite Z2Nat.id.
Qed.

(** X5. An index value outside [[0, G)], for the group count [G] of the
    call (given or inferred), makes each of the three functions raise
    [RuntimeError] when [src] has elements: no element is dropped,
    clamped or written out of bounds. A negative [dim_size] is a special
    case. *)
Theorem out_of_range_index_raises {A B : Type} {dtype_sum : Additive A}
    {additive : Additive B} {dtype : Floating B}
    (src : tensor A) (src' : tensor B) (index : tensor Z) (dim : Z)
    (dim_size : option Z) (G : Z) (d : nat) (v : Z) :
  wf index -> Py.index (ndim src) dim = Ok d -> compatible index src dim ->
  shape src' = shape src -> numel src <> 0 ->
  infer_dim_size index dim_size = Ok G ->
  v ∈ data index -> ~ (0 <= v < G)%Z ->
  scatter_sum src index dim dim_size = Raise RuntimeError /\
  scatter_max src' index dim dim_size = Raise RuntimeError /\
  scatter_softmax src' index dim dim_size = Raise RuntimeError.
Proof.
  intros Hwf Hd Hcompat Hsh Hsrc HG Hv Hout.
  assert (compatible index src' dim) as Hcompat'.
  { unfold compatible, ndim in *. by rewrite Hsh. }
  assert (Py.index (ndim src') dim = Ok d) as Hd' by (unfold ndim; by rewrite Hsh).
  assert (numel src' <> 0) as Hsrc' by (unfold numel; by rewrite Hsh).
  pose proof (scatter_sum_out_of_range_raises src index dim G d v
                Hwf Hd Hcompat Hsrc Hv Hout) as Hsum.
  pose proof (scatter_max_out_of_range_raises src' index dim G d v
                Hwf Hd' Hcompat' Hsrc' Hv Hout) as Hmax.
  split; [|split].
  - unfold scatter_sum in *. rewrite HG. exact Hsum.
  - unfold scatter_max in *. rewrite HG. exact Hmax.
  - unfold scatter_softmax. rewrite HG. simpl.
    destruct (expand_index_compatible index src' dim Hcompat') as (idx & -> & _).
    simpl. by rewrite Hmax.
Qed.

Lemma out_of_range_index_raises_witness :
  scatter_sum (dtype := int64) (Tensor [2; 3] [1; 2; 3; 4; 5; 6]%Z)
    (Tensor [3] [1; 0; 3]%Z) (-1) (Some 3%Z) = Raise RuntimeError /\
  scatter_max (dtype := float32) (Tensor [2; 3] (f32 <$> [1; 2; 3; 4; 5; 6]%Z))
    (Tensor [3] [1; 0; 3]%Z) (-1) (Some 3%Z) = Raise RuntimeError /\
  scatter_softmax (dtype := float32) (Tensor [2; 3] (f32 <$> [1; 2; 3; 4; 5; 6]%Z))
    (Tensor [3] [1; 0; 3]%Z) (-1) (Some 3%Z) = Raise RuntimeError.
Proof.
  apply (out_of_range_index_raises (dtype_sum := int64) (dtype := float32)
           (Tensor [2; 3] [1; 2; 3; 4; 5; 6]%Z) (Tensor [2; 3] (f32 <$> [1; 2; 3; 4; 5; 6]%Z))
           (Tensor [3] [1; 0; 3]%Z) (-1) (Some 3%Z) 3%Z 1 3%Z).
  - reflexivity.
  - reflexivity.
  - exists 1. split; reflexivity.
  - reflexivity.
  - by vm_compute.
  - reflexivity.
  - simpl. repeat constructor.
  - lia.
Defined.

Lemma py_index_raise (len : nat) (i : Z) :
  (i < - Z.of_nat len \/ Z.of_nat len <= i)%Z -> Py.index len i = Raise IndexError.
Proof.
  intros Hi. unfold Py.index.
  destruct (Z.leb_spec 0 i), (Z.ltb_spec i (Z.of_nat len)),
    (Z.leb_spec (- Z.of_nat len) i), (Z.ltb_spec i 0); simpl; try done; lia.
Qed.

(** X6. A [dim] that is not a dimension of [src] raises: [IndexError]
    in [scatter_sum] and [scatter_max], from the assignment
    [shape[dim] = dim_size], whatever the index; and in
    [scatter_softmax] as well, unless the index has the rank of [src] and
    cannot be broadcast, which raises [RuntimeError] first. *)
Theorem bad_dim_raises {A B : Type} {dtype_sum : Additive A}
    {additive : Additive B} {dtype : Floating B}
    (src : tensor A) (src' : tensor B) (index : tensor Z) (dim : Z)
    (dim_size : option Z) (G : Z) :
  infer_dim_size index dim_size = Ok G -> shape src' = shape src ->
  (dim < - Z.of_nat (ndim src) \/ Z.of_nat (ndim src) <= dim)%Z ->
  scatter_sum src index dim dim_size = Raise IndexError /\
  scatter_max src' index dim dim_size = Raise IndexError /\
  scatter_softmax src' index dim dim_size
  = Raise (if (ndim index =? ndim src) && negb (Torch.expandable (shape index) (shape src))
           then RuntimeError else IndexError).
Proof.
  intros HG Hsh Hdim. pose proof (py_index_raise _ _ Hdim) as Hd.
  assert (forall X (t : tensor X) (n : Z), shape t = shape src ->
            Py.setitem (shape_list t) dim n = Raise IndexError) as Hset.
  { intros X t n Ht. unfold Py.setitem. rewrite length_shape_list. unfold ndim in *.
    by rewrite Ht, Hd. }
  split; [|split].
  - unfold scatter_sum. rewrite HG. simpl. by rewrite Hset.
  - unfold scatter_max. rewrite HG. simpl. by rewrite Hset.
  - unfold scatter_softmax. rewrite HG. simpl.
    assert (scatter_max src' index dim (Some G) = Raise IndexError) as Hmax.
    { unfold scatter_max. simpl. by rewrite Hset. }
    unfold _expand_index at 1. unfold ndim at 1 2. rewrite Hsh. fold (ndim index) (ndim src).
    destruct (ndim index =? ndim src) eqn:Hrank; simpl.
    + unfold Torch.expand_as, Torch.expand. rewrite Hsh.
      destruct (Torch.expandable _ _); simpl; [by rewrite Hmax|done].
    + unfold Py.setitem at 1. rewrite length_replicate. unfold ndim in *.
      by rewrite Hsh, Hd.
Qed.

Lemma bad_dim_raises_witness :
  scatter_sum (dtype := int64) (Tensor [2; 3] [1; 2; 3; 4; 5; 6]%Z)
    (Tensor [3] [1; 0; 1]%Z) 2 None = Raise IndexError /\
  scatter_max (dtype := float32) (Tensor [2; 3] (f32 <$> [1; 2; 3; 4; 5; 6]%Z))
    (Tensor [3] [1; 0; 1]%Z) 2 None = Raise IndexError /\
  scatter_softmax (dtype := float32) (Tensor [2; 3] (f32 <$> [1; 2; 3; 4; 5; 6]%Z))
    (Tensor [3] [1; 0; 1]%Z) 2 None
  = Raise (if (1 =? 2) && negb (Torch.expandable [3] [2; 3]) then RuntimeError
           else IndexError).
Proof.
  apply (bad_dim_raises (dtype_sum := int64) (dtype := float32)
           (Tensor [2; 3] [1; 2; 3; 4; 5; 6]%Z) (Tensor [2; 3] (f32 <$> [1; 2; 3; 4; 5; 6]%Z))
           (Tensor [3] [1; 0; 1]%Z) 2 None 2).
  - reflexivity.
  - reflexivity.
  - right. by vm_compute.
Defined.

(** ** The group count only pads *)

Lemma scatter_sum_data_lookup {A : Type} {dtype : Additive A}
    (src : tensor A) (idx : tensor Z) (d G : nat) (c : list nat) :
  let sh := <[d := G]> (shape src) in
  wf idx -> shape idx = shape src -> d < ndim src ->
  Forall (fun v => (0 <= v < Z.of_nat G)%Z) (data idx) -> in_bounds sh c ->
  (if numel idx =? 0 then replicate (volume sh) zero
   else Torch.scatter_pass (fun q o => add o (Torch.src_at src idx q)) sh d idx
          (replicate (volume sh) zero)) !!! ravel sh c
  = foldl add zero (tget src <$> group idx d c).
Proof.
  intros sh Hwfi Hsh Hlt Hrange Hc. rewrite foldl_fmap.
  pose proof (ravel_lt _ _ Hc) as Hr.
  destruct (numel idx =? 0) eqn:E.
  - apply Nat.eqb_eq in E. rewrite lookup_total_replicate_2 by done.
    unfold group. unfold numel in E. rewrite Hsh in E |- *.
    by rewrite (volume_zero_along _ c d G Hc Hlt E).
  - subst sh. rewrite <- Hsh in Hc, Hr |- *. unfold Torch.src_at.
    rewrite (scatter_pass_group (fun c' o => add o (tget src c')) idx d G).
    + by rewrite lookup_total_replicate_2.
    + done.
    + by rewrite Hsh.
    + unfold Torch.index_in_range. apply forallb_forall.
      intros v Hv%list_elem_of_In. rewrite Forall_forall in Hrange.
      rewrite list_lookup_total_insert_eq by (by rewrite Hsh).
      specialize (Hrange v Hv).
      apply andb_true_iff. rewrite Z.leb_le, Z.ltb_lt. lia.
    + done.
    + by rewrite length_replicate.
Qed.

(** What [scatter_sum] holds at each position, with the expanded index
    it was computed from. *)
Lemma scatter_sum_value {A : Type} {dtype : Additive A} (src : tensor A) (index : tensor Z)
    (dim G : Z) (d : nat) (idx : tensor Z) :
  wf index -> Py.index (ndim src) dim = Ok d ->
  _expand_index index src dim = Ok idx -> shape idx = shape src -> wf idx ->
  (0 <= G)%Z -> Forall (fun v => (0 <= v < G)%Z) (data index) ->
  exists out, scatter_sum src index dim (Some G) = Ok out /\
    shape out = <[d := Z.to_nat G]> (shape src) /\
    forall c, in_bounds (shape out) c ->
      tget out c = foldl add zero (tget src <$> group idx d c).
Proof.
  intros Hwf Hd Hidx Hsh Hwfi HG Hrange. pose proof (py_index_ok _ _ _ Hd) as [Hlt _].
  eexists. split; [by apply (scatter_sum_run src index dim G d idx)|].
  split; [done|]. intros c Hc. unfold tget at 1. simpl in *.
  apply scatter_sum_data_lookup; try done.
  apply Forall_forall. intros v Hv. rewrite Forall_forall in Hrange.
  rewrite Z2Nat.id by done. apply Hrange. by eapply expand_index_elem_of.
Qed.

(** No element belongs to the group of a position beyond the index
    values. *)
Lemma group_beyond (idx : tensor Z) (d G' : nat) (G : Z) (c : list nat) :
  wf idx -> d < length (shape idx) -> in_bounds (<[d := G']> (shape idx)) c ->
  Forall (fun v => (0 <= v < G)%Z) (data idx) -> (G <= Z.of_nat (c !!! d))%Z ->
  group idx d c = [].
Proof.
  intros Hwf Hd Hc Hrange Hbeyond.
  destruct (group idx d c) as [|c' l] eqn:E; [done|]. exfalso.
  assert (c' ∈ group idx d c) as Hc' by (rewrite E; left).
  apply elem_of_group in Hc' as (i & Hi & -> & Hv).
  rewrite Forall_forall in Hrange.
  assert (0 <= tget idx (<[d := i]> c) < G)%Z; [|lia].
  apply Hrange, list_elem_of_lookup_total_2. rewrite Hwf. apply ravel_lt.
  by apply (in_bounds_insert_back _ _ _ G').
Qed.

(** X7. A larger [dim_size] only pads the result of [scatter_sum]:
    along [dim] the first [G] entries are those of the call with
    [dim_size = G], the others are zero. *)
Theorem scatter_sum_pads {A : Type} {dtype : Additive A} (src : tensor A) (index : tensor Z)
    (dim G G' : Z) (d : nat) :
  wf index -> Py.index (ndim src) dim = Ok d -> compatible index src dim ->
  (0 <= G <= G')%Z -> Forall (fun v => (0 <= v < G)%Z) (data index) ->
  exists out out',
    scatter_sum src index dim (Some G) = Ok out /\
    scatter_sum src index dim (Some G') = Ok out' /\
    shape out' = <[d := Z.to_nat G']> (shape src) /\
    forall c, in_bounds (shape out') c ->
      tget out' c = (if (Z.of_nat (c !!! d) <? G)%Z then tget out c else zero).
Proof.
  intros Hwf Hd Hcompat HG Hrange. pose proof (py_index_ok _ _ _ Hd) as [Hlt _].
  destruct (expand_index_compatible index src dim Hcompat) as (idx & Hidx & Hsh & Hwfi).
  assert (Forall (fun v => (0 <= v < G')%Z) (data index)) as Hrange'.
  { eapply Forall_impl; [exact Hrange|]. simpl. lia. }
  destruct (scatter_sum_value src index dim G d idx) as (out & Hout & Hshape & Hval);
    [done..|lia|done|].
  destruct (scatter_sum_value src index dim G' d idx) as (out' & Hout' & Hshape' & Hval');
    [done..|lia|done|].
  exists out, out'. split; [done|]. split; [done|]. split; [done|].
  intros c Hc. rewrite (Hval' c Hc). rewrite Hshape' in Hc.
  destruct (Z.ltb_spec (Z.of_nat (c !!! d)) G) as [Hin|Hbeyond].
  - rewrite Hval; [done|]. rewrite Hshape.
    rewrite <- (list_insert_id c d (c !!! d)).
    2:{ apply list_lookup_lookup_total_lt. rewrite (in_bounds_length _ _ Hc), length_insert.
        done. }
    rewrite <- (list_insert_insert_eq (shape src) d (Z.to_nat G) (Z.to_nat G')).
    apply in_bounds_insert; [done|lia].
  - rewrite (group_beyond idx d (Z.to_nat G') G c); try done.
    + by rewrite Hsh.
    + by rewrite Hsh.
    + apply Forall_forall. intros v Hv. rewrite Forall_forall in Hrange.
      apply Hrange. by eapply expand_index_elem_of.
Qed.

Lemma scatter_sum_pads_witness :
  exists out out',
    scatter_sum (dtype := int64) (Tensor [2; 3] [1; 2; 3; 4; 5; 6]%Z)
      (Tensor [3] [1; 0; 1]%Z) (-1) (Some 2%Z) = Ok out /\
    scatter_sum (dtype := int64) (Tensor [2; 3] [1; 2; 3; 4; 5; 6]%Z)
      (Tensor [3] [1; 0; 1]%Z) (-1) (Some 4%Z) = Ok out' /\
    shape out' = <[1 := Z.to_nat 4]> [2; 3] /\
    forall c, in_bounds (shape out') c ->
      tget (H := Additive_inhabited (dtype := int64)) out' c
      = (if (Z.of_nat (c !!! 1%nat) <? 2)%Z
         then tget (H := Additive_inhabited (dtype := int64)) out c else 0%Z).
Proof.
  apply (scatter_sum_pads (dtype := int64) (Tensor [2; 3] [1; 2; 3; 4; 5; 6]%Z)
           (Tensor [3] [1; 0; 1]%Z) (-1) 2 4 1).
  - reflexivity.
  - reflexivity.
  - exists 1. split; reflexivity.
  - lia.
  - simpl. repeat constructor; lia.
Defined.

(** X8. A larger [dim_size] only pads the first output of
    [scatter_max], on floating-point tensors of any IEEE format: along
    [dim] the first [G] entries are those of the call with
    [dim_size = G], the others are zero. *)
Theorem scatter_max_pads (prec emax : Z) (exp_impl : spec_float -> spec_float)
    (src : tensor spec_float) (index : tensor Z) (dim G G' : Z) (d : nat) :
  wf index -> Py.index (ndim src) dim = Ok d -> compatible index src dim ->
  (0 <= G <= G')%Z -> Forall (fun v => (0 <= v < G)%Z) (data index) ->
  exists out arg out' arg',
    scatter_max (dtype := IEEE.floating prec emax exp_impl) src index dim (Some G)
      = Ok (out, arg) /\
    scatter_max (dtype := IEEE.floating prec emax exp_impl) src index dim (Some G')
      = Ok (out', arg') /\
    shape out' = <[d := Z.to_nat G']> (shape src) /\
    forall c, in_bounds (shape out') c ->
      tget out' c
      = (if (Z.of_nat (c !!! d) <? G)%Z then tget out c else S754_zero false).
Proof.
  intros Hwf Hd Hcompat HG Hrange. pose proof (py_index_ok _ _ _ Hd) as [Hlt _].
  assert (Forall (fun v => (0 <= v < G')%Z) (data index)) as Hrange'.
  { eapply Forall_impl; [exact Hrange|]. simpl. lia. }
  destruct (scatter_max_value (dtype := IEEE.floating prec emax exp_impl) src index dim G d)
    as (out & arg & idx & Hout & Hidx & Hshape & Hval); [done..|lia|done|].
  destruct (scatter_max_value (dtype := IEEE.floating prec emax exp_impl) src index dim G' d)
    as (out' & arg' & idx' & Hout' & Hidx' & Hshape' & Hval'); [done..|lia|done|].
  rewrite Hidx in Hidx'. injection Hidx' as <-.
  destruct (expand_index_compatible index src dim Hcompat) as (idx0 & Hidx0 & Hsh & Hwfi).
  rewrite Hidx in Hidx0. injection Hidx0 as <-.
  exists out, arg, out', arg'. split; [done|]. split; [done|]. split; [done|].
  intros c Hc.
  assert (tget out' c
          = amax_group_value (dtype := IEEE.floating prec emax exp_impl)
              (tget src <$> group idx d c)) as -> by exact (Hval' c Hc).
  rewrite Hshape' in Hc.
  destruct (Z.ltb_spec (Z.of_nat (c !!! d)) G) as [Hin|Hbeyond].
  - symmetry. apply (Hval c). rewrite Hshape.
    rewrite <- (list_insert_id c d (c !!! d)).
    2:{ apply list_lookup_lookup_total_lt. rewrite (in_bounds_length _ _ Hc), length_insert.
        done. }
    rewrite <- (list_insert_insert_eq (shape src) d (Z.to_nat G) (Z.to_nat G')).
    apply in_bounds_insert; [done|lia].
  - rewrite (group_beyond idx d (Z.to_nat G') G c); try done.
    + by rewrite Hsh.
    + by rewrite Hsh.
    + apply Forall_forall. intros v Hv. rewrite Forall_forall in Hrange.
      apply Hrange. by eapply expand_index_elem_of.
Qed.

Lemma scatter_max_pads_witness :
  exists out arg out' arg',
    scatter_max (dtype := float32) (Tensor [2; 3] (f32 <$> [1; 2; 3; 4; 5; 6]%Z))
      (Tensor [3] [1; 0; 1]%Z) (-1) (Some 2%Z) = Ok (out, arg) /\
    scatter_max (dtype := float32) (Tensor [2; 3] (f32 <$> [1; 2; 3; 4; 5; 6]%Z))
      (Tensor [3] [1; 0; 1]%Z) (-1) (Some 4%Z) = Ok (out', arg') /\
    shape out' = <[1 := Z.to_nat 4]> [2; 3] /\
    forall c, in_bounds (shape out') c ->
      tget out' c
      = (if (Z.of_nat (c !!! 1%nat) <? 2)%Z then tget out c else S754_zero false).
Proof.
  apply (scatter_max_pads 24 128 (IEEE.sf_exp 24 128)
           (Tensor [2; 3] (f32 <$> [1; 2; 3; 4; 5; 6]%Z)) (Tensor [3] [1; 0; 1]%Z) (-1) 2 4 1).
  - reflexivity.
  - reflexivity.
  - exists 1. split; reflexivity.
  - lia.
  - simpl. repeat constructor; lia.
Defined.

(** ** An index used as a flat list *)

(** The checks of a scatter pass for an index of the shape of [src] but
    for a smaller size [k] along [d]. *)
Lemma scatter_checked_short {A : Type} (src : tensor A) (idx : tensor Z) (dim : Z)
    (d G k : nat) (v : A) (kernel : nat -> list A) :
  let sh := <[d := G]> (shape src) in
  Py.index (ndim src) dim = Ok d -> shape idx = <[d := k]> (shape src) ->
  k <= shape src !!! d ->
  Forall (fun x => (0 <= x < Z.of_nat G)%Z) (data idx) ->
  Torch.scatter_checked (Tensor sh (replicate (volume sh) v)) dim idx src kernel
  = Ok (Tensor sh (if numel idx =? 0 then replicate (volume sh) v else kernel d)).
Proof.
  intros sh Hd Hsh Hk Hrange. pose proof (py_index_ok _ _ _ Hd) as [Hlt _].
  unfold Torch.scatter_checked, ndim. simpl.
  assert (length sh = ndim src) as Hlen by apply length_insert.
  rewrite Hlen, (maybe_wrap_dim_ok _ _ _ Hd). simpl.
  destruct (numel idx =? 0); [done|].
  replace (Torch.scatter_shape_ok _ _ _ _) with true; simpl.
  - replace (Torch.index_in_range _ _ _) with true; [done|].
    symmetry. unfold Torch.index_in_range. apply forallb_forall.
    intros x Hx%list_elem_of_In. rewrite Forall_forall in Hrange.
    specialize (Hrange x Hx). subst sh.
    rewrite list_lookup_total_insert_eq by done.
    apply andb_true_iff. rewrite Z.leb_le, Z.ltb_lt. lia.
  - symmetry. unfold Torch.scatter_shape_ok. rewrite Hsh, Hlen, !length_insert. unfold ndim.
    rewrite !Nat.eqb_refl. simpl. apply andb_true_iff. split.
    + apply forallb_forall. intros j _. destruct (j =? d) eqn:E; [done|].
      apply Nat.eqb_neq in E. simpl. apply Nat.leb_le. subst sh.
      by rewrite !list_lookup_total_insert_ne.
    + apply forallb_forall. intros j _. apply Nat.leb_le.
      destruct (decide (j = d)) as [->|Hne].
      * by rewrite list_lookup_total_insert_eq.
      * by rewrite list_lookup_total_insert_ne.
Qed.

(** X19. An index of another rank than [src], with at most one dimension
    of a size other than 1, is used as a flat list along [dim]: for an
    element type whose sums are accumulated in the type itself, with
    values in [[0, G)] and no more elements than [src] has entries along
    [dim], [scatter_sum] holds at each position [c] the sum of the
    entries [src[c with dim := i]] over the [i] below [index.numel()]
    with [index[i] = c[dim]], so that a shorter index leaves the last
    entries of [src] out without an error; a longer index raises
    [RuntimeError] when the expanded index has elements. *)
Theorem scatter_sum_flat_index {A : Type} {dtype : Additive A} (src : tensor A)
    (index : tensor Z) (dim G : Z) (d : nat) :
  native_sum A dtype ->
  ndim index <> ndim src -> lone_dimension (shape index) ->
  Py.index (ndim src) dim = Ok d ->
  (0 <= G)%Z -> Forall (fun v => (0 <= v < G)%Z) (data index) -> wf index ->
  (numel index <= shape src !!! d ->
   exists out,
     scatter_sum src index dim (Some G) = Ok out /\
     shape out = <[d := Z.to_nat G]> (shape src) /\
     forall c, in_bounds (shape out) c ->
       tget out c
       = foldl add zero
           ((fun i => tget src (<[d := i]> c))
              <$> filter (fun i => data index !!! i = Z.of_nat (c !!! d))
                         (seq 0 (numel index)))) /\
  (shape src !!! d < numel index -> volume (<[d := numel index]> (shape src)) <> 0 ->
   scatter_sum src index dim (Some G) = Raise RuntimeError).
Proof.
  intros _ Hrank _ Hd HG Hrange Hwf. pose proof (py_index_ok _ _ _ Hd) as [Hlt _].
  destruct (expand_index_flat index src dim d Hrank Hd) as (idx & Hidx & Hsh & Hwfi & _).
  split; [intros Hk|intros Hk Hvol]; cycle 1.
  { unfold scatter_sum. simpl.
    rewrite (setitem_ok _ _ d) by by rewrite length_shape_list.
    simpl. rewrite Hidx. simpl. unfold Torch.zeros. rewrite full_ok by done. simpl.
    unfold Torch.scatter_add, Torch.scatter_checked, ndim. simpl.
    rewrite length_insert. fold (ndim src). rewrite (maybe_wrap_dim_ok _ _ _ Hd). simpl.
    assert ((numel idx =? 0) = false) as ->.
    { apply Nat.eqb_neq. unfold numel. by rewrite Hsh. }
    assert (Torch.scatter_shape_ok (<[d := Z.to_nat G]> (shape src)) d (shape idx) (shape src)
            = false) as ->; [|done].
    apply not_true_is_false. unfold Torch.scatter_shape_ok.
    rewrite !andb_true_iff. intros [_ Hall]. rewrite forallb_forall in Hall.
    specialize (Hall d). rewrite Hsh, length_insert in Hall.
    rewrite list_lookup_total_insert_eq in Hall by done.
    assert (In d (seq 0 (length (shape src)))) as Hin
      by (apply in_seq; unfold ndim in Hlt; lia).
    apply Hall, Nat.leb_le in Hin. lia. }
  assert (Forall (fun x => (0 <= x < Z.of_nat (Z.to_nat G))%Z) (data idx)) as Hrange'.
  { apply Forall_forall. intros v Hv. rewrite Forall_forall in Hrange.
    rewrite Z2Nat.id by done. apply Hrange. by eapply expand_index_elem_of. }
  set (sh := <[d := Z.to_nat G]> (shape src)).
  assert (<[d := Z.to_nat G]> (shape idx) = sh) as Hsh'.
  { rewrite Hsh. apply list_insert_insert_eq. }
  assert (scatter_sum src index dim (Some G)
          = Ok (Tensor sh
                  (if numel idx =? 0 then replicate (volume sh) zero
                   else Torch.scatter_pass (fun q o => add o (Torch.src_at src idx q))
                          sh d idx (replicate (volume sh) zero)))) as Hrun.
  { unfold scatter_sum. simpl.
    rewrite (setitem_ok _ _ d) by by rewrite length_shape_list.
    simpl. rewrite Hidx. simpl. unfold Torch.zeros. rewrite full_ok by done. simpl.
    unfold Torch.scatter_add.
    by rewrite (scatter_checked_short src idx dim d (Z.to_nat G) (numel index)). }
  eexists. split; [exact Hrun|]. split; [done|]. simpl.
  intros c Hc. unfold tget at 1. simpl.
  assert (d < length (shape idx)) as Hltx by (rewrite Hsh, length_insert; exact Hlt).
  assert (shape idx !!! d = numel index) as Hkx.
  { rewrite Hsh. by apply list_lookup_total_insert_eq. }
  assert (foldl add zero
            ((fun i => tget src (<[d := i]> c))
               <$> filter (fun i => data index !!! i = Z.of_nat (c !!! d))
                          (seq 0 (numel index)))
          = foldl add zero (tget src <$> group idx d c)) as ->.
  { f_equal. unfold group. rewrite <- list_fmap_compose, Hkx. f_equal.
    apply filter_ext_elem. intros i Hi%elem_of_seq.
    rewrite (expand_index_flat_value index src dim d idx (<[d := i]> c)); try done.
    - rewrite list_lookup_total_insert_eq; [done|].
      rewrite (in_bounds_length _ _ Hc). subst sh. by rewrite length_insert.
    - apply (in_bounds_insert_back _ _ _ (Z.to_nat G)); [by rewrite Hsh'|done|lia]. }
  rewrite foldl_fmap. pose proof (ravel_lt _ _ Hc) as Hr.
  destruct (numel idx =? 0) eqn:E.
  - apply Nat.eqb_eq in E. rewrite lookup_total_replicate_2 by done.
    unfold group. rewrite <- Hsh' in Hc.
    by rewrite (volume_zero_along _ c d (Z.to_nat G) Hc Hltx E).
  - unfold Torch.src_at. rewrite <- Hsh' in Hc, Hr |- *.
    rewrite (scatter_pass_group (fun c' o => add o (tget src c')) idx d (Z.to_nat G));
      try done.
    + by rewrite lookup_total_replicate_2.
    + unfold Torch.index_in_range. apply forallb_forall.
      intros v Hv%list_elem_of_In. rewrite Forall_forall in Hrange'.
      rewrite list_lookup_total_insert_eq by done.
      specialize (Hrange' v Hv).
      apply andb_true_iff. rewrite Z.leb_le, Z.ltb_lt. lia.
    + by rewrite length_replicate.
Qed.

Lemma scatter_sum_flat_index_witness :
  exists out,
    scatter_sum (dtype := int64) (Tensor [2; 3] [1; 2; 3; 4; 5; 6]%Z)
      (Tensor [2] [1; 0]%Z) (-1) (Some 2%Z) = Ok out /\
    shape out = <[1 := Z.to_nat 2]> [2; 3] /\
    forall c, in_bounds (shape out) c ->
      tget (H := Additive_inhabited (dtype := int64)) out c
      = foldl (add (Additive := int64)) 0%Z
          ((fun i => tget (H := Additive_inhabited (dtype := int64))
                       (Tensor [2; 3] [1; 2; 3; 4; 5; 6]%Z) (<[1 := i]> c))
             <$> filter (fun i => [1; 0]%Z !!! i = Z.of_nat (c !!! 1)) (seq 0 2)).
Proof.
  apply (scatter_sum_flat_index (dtype := int64) (Tensor [2; 3] [1; 2; 3; 4; 5; 6]%Z)
           (Tensor [2] [1; 0]%Z) (-1) 2 1).
  - constructor.
  - by vm_compute.
  - vm_compute. lia.
  - reflexivity.
  - lia.
  - simpl. repeat constructor; lia.
  - reflexivity.
  - vm_compute. lia.
Defined.

Example scatter_sum_short_index :
  scatter_sum (dtype := int64) (Tensor [2; 3] [1; 2; 3; 4; 5; 6]%Z)
    (Tensor [2] [1; 0]%Z) (-1) (Some 2%Z)
  = Ok (Tensor [2; 2] [2; 1; 5; 4]%Z).
Proof. vm_compute. reflexivity. Qed.

(** ** The total of [scatter_sum] *)

Section Total.

Context {A : Type} {dtype : Additive A}.

(** The elements the addition is a commutative monoid on. *)
Variable P : A -> Prop.
Hypothesis P_zero : P zero.
Hypothesis P_add : forall x y, P x -> P y -> P (add x y).
Hypothesis add_zero_l : forall x, P x -> add zero x = x.
Hypothesis add_comm : forall x y, P x -> P y -> add x y = add y x.
Hypothesis add_assoc : forall x y z,
  P x -> P y -> P z -> add (add x y) z = add x (add y z).

Lemma P_foldl (xs : list A) (a : A) :
  P a -> Forall P xs -> P (foldl add a xs).
Proof.
  intros Ha Hxs. revert a Ha. induction Hxs as [|x xs Hx _ IH]; intros a Ha; simpl; [done|].
  apply IH. by apply P_add.
Qed.

(** Adding [x] to one entry of a list adds [x] to its total. *)
Lemma total_bump (f : nat -> A) (x : A) (n g : nat) :
  (forall i, P (f i)) -> P x -> g < n ->
  foldl add zero ((fun i => if decide (i = g) then add (f i) x else f i) <$> seq 0 n)
  = add (foldl add zero (f <$> seq 0 n)) x.
Proof.
  intros Hf Hx. induction n as [|n IH]; intros Hg; [lia|].
  rewrite seq_S, !fmap_app, !foldl_app. simpl.
  assert (P (foldl add zero (f <$> seq 0 n))) as HT.
  { apply P_foldl; [done|]. apply Forall_fmap, Forall_forall. intros i _. apply Hf. }
  destruct (decide (n = g)) as [->|Hne].
  - assert ((fun i => if decide (i = g) then add (f i) x else f i) <$> seq 0 g
            = f <$> seq 0 g) as ->.
    { apply list_fmap_ext. intros k i Hk. apply lookup_seq in Hk as [-> Hk].
      simpl. destruct (decide (k = g)); [lia|done]. }
    symmetry. by apply add_assoc.
  - rewrite IH by lia.
    rewrite !add_assoc by done. f_equal. by apply add_comm.
Qed.

(** The totals of the groups of a list of tagged elements add up to the
    total of the list. *)
Lemma total_by_group (l : list (nat * A)) (n : nat) :
  Forall (fun p => p.1 < n /\ P p.2) l ->
  foldl add zero
    ((fun g => foldl add zero (snd <$> filter (fun p => p.1 = g) l)) <$> seq 0 n)
  = foldl add zero (snd <$> l).
Proof.
  induction l as [|[g x] l IH] using rev_ind; intros Hl.
  - simpl. clear Hl. induction n as [|n IH]; [done|].
    rewrite seq_S, fmap_app, foldl_app. simpl. rewrite IH. by apply add_zero_l.
  - apply Forall_app in Hl as [Hl Hp]. apply Forall_singleton in Hp as [Hg Hx]. simpl in *.
    rewrite fmap_app, foldl_app. simpl. rewrite <- (IH Hl).
    rewrite <- (total_bump _ x n g); [|intros i|done|done].
    2:{ apply P_foldl; [done|]. apply Forall_fmap, Forall_forall.
        intros p [_ Hp]%list_elem_of_filter. rewrite Forall_forall in Hl.
        simpl. by apply Hl. }
    f_equal. apply list_fmap_ext. intros k i _.
    rewrite filter_app, fmap_app, foldl_app. simpl.
    rewrite filter_cons, filter_nil. simpl.
    destruct (decide (i = g)) as [->|Hne].
    + by rewrite decide_True.
    + by rewrite decide_False by done.
Qed.

End Total.

Lemma filter_tagged {A : Type} (v : nat -> Z) (x : nat -> A) (g : nat) (l : list nat) :
  Forall (fun i => (0 <= v i)%Z) l ->
  snd <$> filter (fun p : nat * A => p.1 = g) ((fun i => (Z.to_nat (v i), x i)) <$> l)
  = x <$> filter (fun i => v i = Z.of_nat g) l.
Proof.
  induction 1 as [|i l Hi _ IH]; [done|].
  rewrite fmap_cons.
  destruct (decide (Z.to_nat (v i) = g)) as [Heq|Hne].
  - rewrite !filter_cons_True by (simpl; lia). rewrite !fmap_cons. simpl. by f_equal.
  - rewrite !filter_cons_False by (simpl; lia). exact IH.
Qed.

(** The group of a position, along the line of [src] through it. *)
Lemma group_line (idx : tensor Z) (d g : nat) (c : list nat) :
  d < length c ->
  group idx d (<[d := g]> c)
  = (fun i => <[d := i]> c)
      <$> filter (fun i => tget idx (<[d := i]> c) = Z.of_nat g) (seq 0 (shape idx !!! d)).
Proof.
  intros Hd. unfold group.
  rewrite list_lookup_total_insert_eq by done.
  rewrite (list_filter_iff _ (fun i => tget idx (<[d := i]> c) = Z.of_nat g)).
  - apply list_fmap_ext. intros k i _. apply list_insert_insert_eq.
  - intros i. by rewrite list_insert_insert_eq.
Qed.

(** X9. [scatter_sum] keeps the total: where the addition of the
    element type is a commutative monoid on a set [P] of values that
    holds the entries of [src], the outputs along each line of the
    result in direction [dim] add up to the entries of [src] along the
    same line. *)
Theorem scatter_sum_total {A : Type} {dtype : Additive A} (P : A -> Prop)
    (src : tensor A) (index : tensor Z) (dim G : Z) (d : nat) :
  P zero -> (forall x y, P x -> P y -> P (add x y)) ->
  (forall x, P x -> add zero x = x) ->
  (forall x y, P x -> P y -> add x y = add y x) ->
  (forall x y z, P x -> P y -> P z -> add (add x y) z = add x (add y z)) ->
  Forall P (data src) ->
  wf src -> wf index -> Py.index (ndim src) dim = Ok d -> compatible index src dim ->
  (0 <= G)%Z -> Forall (fun v => (0 <= v < G)%Z) (data index) ->
  exists out,
    scatter_sum src index dim (Some G) = Ok out /\
    forall c, in_bounds (shape src) c ->
      foldl add zero ((fun g => tget out (<[d := g]> c)) <$> seq 0 (Z.to_nat G))
      = foldl add zero ((fun i => tget src (<[d := i]> c)) <$> seq 0 (shape src !!! d)).
Proof.
  intros P_zero P_add add_zero_l add_comm add_assoc HP Hwf Hwfx Hd Hcompat HG Hrange.
  pose proof (py_index_ok _ _ _ Hd) as [Hlt _].
  destruct (expand_index_compatible index src dim Hcompat) as (idx & Hidx & Hsh & Hwfi).
  destruct (scatter_sum_value src index dim G d idx) as (out & Hout & Hshape & Hval);
    [done..|].
  exists out. split; [done|]. intros c Hc.
  pose proof (in_bounds_length _ _ Hc) as Hlen.
  set (n := shape src !!! d).
  set (l := (fun i => (Z.to_nat (tget idx (<[d := i]> c)), tget src (<[d := i]> c)))
              <$> seq 0 n).
  assert (forall i, i < n -> in_bounds (shape src) (<[d := i]> c)) as Hline.
  { intros i Hi. rewrite <- (list_insert_id (shape src) d n).
    - by apply in_bounds_insert.
    - by apply list_lookup_lookup_total_lt. }
  assert (forall i, i < n -> (0 <= tget idx (<[d := i]> c) < G)%Z) as Hv.
  { intros i Hi. rewrite Forall_forall in Hrange.
    apply Hrange, (expand_index_elem_of index src dim idx); [done|done|].
    apply list_elem_of_lookup_total_2. rewrite Hwfi. apply ravel_lt.
    rewrite Hsh. by apply Hline. }
  assert ((fun i => tget src (<[d := i]> c)) <$> seq 0 n = snd <$> l) as ->.
  { subst l. rewrite <- list_fmap_compose. by apply list_fmap_ext. }
  rewrite <- (total_by_group P P_zero P_add add_zero_l add_comm add_assoc l (Z.to_nat G)).
  - f_equal. apply list_fmap_ext. intros k g Hk. apply lookup_seq in Hk as [-> Hk].
    simpl in Hk. rewrite Hval.
    2:{ rewrite Hshape. apply in_bounds_insert; [done|lia]. }
    rewrite group_line by by rewrite Hlen. rewrite Hsh. fold n. subst l.
    rewrite (filter_tagged (fun i => tget idx (<[d := i]> c))
               (fun i => tget src (<[d := i]> c)) k (seq 0 n)).
    + by rewrite <- list_fmap_compose.
    + apply Forall_forall. intros i Hi%elem_of_seq. specialize (Hv i ltac:(lia)). lia.
  - subst l. apply Forall_fmap, Forall_forall. intros i Hi%elem_of_seq. simpl.
    specialize (Hv i ltac:(lia)). split; [lia|].
    rewrite Forall_forall in HP. apply HP.
    apply list_elem_of_lookup_total_2. rewrite Hwf. apply ravel_lt, Hline. lia.
Qed.

(** [torch.int64] is a commutative monoid on its range. *)

Lemma wrap64_range (z : Z) : int64_range (wrap64 z).
Proof.
  unfold int64_range, wrap64.
  pose proof (Z.mod_pos_bound (z + 2 ^ 63) (2 ^ 64) ltac:(lia)). lia.
Qed.

Lemma wrap64_id (z : Z) : int64_range z -> wrap64 z = z.
Proof.
  unfold int64_range, wrap64. intros Hz. rewrite Z.mod_small by lia. lia.
Qed.

Lemma wrap64_add_l (a b : Z) : wrap64 (wrap64 a + b) = wrap64 (a + b).
Proof.
  unfold wrap64. f_equal.
  replace ((a + 2 ^ 63) mod 2 ^ 64 - 2 ^ 63 + b + 2 ^ 63)%Z
    with ((a + 2 ^ 63) mod 2 ^ 64 + b)%Z by lia.
  rewrite Zplus_mod_idemp_l. f_equal. lia.
Qed.

Lemma int64_add_assoc (x y z : Z) :
  add (Additive := int64) (add (Additive := int64) x y) z
  = add (Additive := int64) x (add (Additive := int64) y z).
Proof.
  simpl. rewrite wrap64_add_l, (Z.add_comm x (wrap64 _)), wrap64_add_l. f_equal. lia.
Qed.

Lemma scatter_sum_total_witness :
  exists out,
    scatter_sum (dtype := int64) (Tensor [2; 3] [1; 2; 3; 4; 5; 6]%Z)
      (Tensor [3] [1; 0; 1]%Z) (-1) (Some 3%Z) = Ok out /\
    forall c, in_bounds [2; 3] c ->
      foldl (add (Additive := int64)) 0%Z
        ((fun g => tget (H := Additive_inhabited (dtype := int64)) out (<[1 := g]> c))
           <$> seq 0 (Z.to_nat 3))
      = foldl (add (Additive := int64)) 0%Z
          ((fun i => tget (H := Additive_inhabited (dtype := int64))
                       (Tensor [2; 3] [1; 2; 3; 4; 5; 6]%Z) (<[1 := i]> c))
             <$> seq 0 3).
Proof.
  apply (scatter_sum_total (dtype := int64) int64_range
           (Tensor [2; 3] [1; 2; 3; 4; 5; 6]%Z) (Tensor [3] [1; 0; 1]%Z) (-1) 3 1).
  - unfold int64_range. simpl. lia.
  - intros x y _ _. apply wrap64_range.
  - intros x Hx. simpl. by apply wrap64_id.
  - intros x y _ _. simpl. f_equal. lia.
  - intros x y z _ _ _. apply int64_add_assoc.
  - unfold int64_range. simpl. repeat constructor; lia.
  - reflexivity.
  - reflexivity.
  - reflexivity.
  - exists 1. split; reflexivity.
  - lia.
  - simpl. repeat constructor; lia.
Defined.

Lemma foldl_add_perm {A : Type} {dtype : Additive A} (P : A -> Prop) (l l' : list A) (a : A) :
  (forall x y, P x -> P y -> P (add x y)) ->
  (forall x y, P x -> P y -> add x y = add y x) ->
  (forall x y z, P x -> P y -> P z -> add (add x y) z = add x (add y z)) ->
  l ≡ₚ l' -> P a -> Forall P l -> foldl add a l = foldl add a l'.
Proof.
  intros P_add add_comm add_assoc Hperm. revert a.
  induction Hperm as [|x l l' Hperm IH|x y l|l l' l'' Hperm IH Hperm' IH'];
    intros a Ha Hl; simpl.
  - done.
  - apply Forall_cons in Hl as [Hx Hl]. apply IH; [by apply P_add|done].
  - apply Forall_cons in Hl as [Hy Hl]. apply Forall_cons in Hl as [Hx Hl].
    f_equal. rewrite !add_assoc by done. f_equal. by apply add_comm.
  - rewrite IH by done. apply IH'; [done|]. by rewrite <- Hperm.
Qed.

(** X10. Under the same laws the result of [scatter_sum] does not depend
    on the order of accumulation: each output is the sum of the
    elements of its group, as [index] defines it, taken in any
    order. *)
Theorem scatter_sum_order_independent {A : Type} {dtype : Additive A} (P : A -> Prop)
    (src : tensor A) (index : tensor Z) (dim G : Z) (d : nat) :
  P zero -> (forall x y, P x -> P y -> P (add x y)) ->
  (forall x y, P x -> P y -> add x y = add y x) ->
  (forall x y z, P x -> P y -> P z -> add (add x y) z = add x (add y z)) ->
  Forall P (data src) ->
  wf src -> wf index -> Py.index (ndim src) dim = Ok d -> expands_to index src dim ->
  (0 <= G)%Z -> Forall (fun v => (0 <= v < G)%Z) (data index) ->
  exists out,
    scatter_sum src index dim (Some G) = Ok out /\
    forall c l, in_bounds (shape out) c ->
      l ≡ₚ tget src <$> group_of index (shape src) d c ->
      tget out c = foldl add zero l.
Proof.
  intros P_zero P_add add_comm add_assoc HP Hwf Hwfx Hd [Hcompat _] HG Hrange.
  pose proof (py_index_ok _ _ _ Hd) as [Hlt _].
  destruct (expand_index_compatible index src dim Hcompat) as (idx & Hidx & Hsh & Hwfi).
  destruct (scatter_sum_value src index dim G d idx) as (out & Hout & Hshape & Hval);
    [done..|].
  exists out. split; [done|].
  intros c l Hc Hperm. rewrite (Hval c Hc).
  rewrite <- (group_of_expanded index src dim d (Z.to_nat G) idx c) in Hperm
    by (done || by rewrite <- Hshape).
  apply (foldl_add_perm P); [done|done|done|done|done|].
  apply Forall_fmap, Forall_forall. intros c' (i & Hi & -> & _)%elem_of_group. simpl.
  rewrite Forall_forall in HP. apply HP.
  apply list_elem_of_lookup_total_2. rewrite Hwf. apply ravel_lt.
  rewrite Hshape in Hc. rewrite <- Hsh.
  apply (in_bounds_insert_back _ _ _ (Z.to_nat G)); [by rewrite Hsh|by rewrite Hsh|done].
Qed.

Lemma scatter_sum_order_independent_witness :
  exists out,
    scatter_sum (dtype := int64) (Tensor [2; 3] [1; 2; 3; 4; 5; 6]%Z)
      (Tensor [3] [1; 0; 1]%Z) (-1) (Some 3%Z) = Ok out /\
    forall c l, in_bounds (shape out) c ->
      l ≡ₚ tget (H := Additive_inhabited (dtype := int64))
             (Tensor [2; 3] [1; 2; 3; 4; 5; 6]%Z)
             <$> group_of (Tensor [3] [1; 0; 1]%Z) [2; 3] 1 c ->
      tget (H := Additive_inhabited (dtype := int64)) out c
      = foldl (add (Additive := int64)) 0%Z l.
Proof.
  apply (scatter_sum_order_independent (dtype := int64) int64_range
           (Tensor [2; 3] [1; 2; 3; 4; 5; 6]%Z) (Tensor [3] [1; 0; 1]%Z) (-1) 3 1).
  - unfold int64_range. simpl. lia.
  - intros x y _ _. apply wrap64_range.
  - intros x y _ _. simpl. f_equal. lia.
  - intros x y z _ _ _. apply int64_add_assoc.
  - unfold int64_range. simpl. repeat constructor; lia.
  - reflexivity.
  - reflexivity.
  - reflexivity.
  - split; [exists 1; split; reflexivity|]. right. vm_compute. lia.
  - lia.
  - simpl. repeat constructor; lia.
Defined.

(** ** [scatter_max] never returns negative infinity *)

(** X11. No successful call of [scatter_max] on floating-point tensors
    returns negative infinity in its first output. *)
Theorem scatter_max_never_neg_inf (prec emax : Z) (exp_impl : spec_float -> spec_float)
    (src : tensor spec_float) (index : tensor Z) (dim : Z) (dim_size : option Z)
    (out : tensor spec_float) (arg : tensor Z) :
  scatter_max (dtype := IEEE.floating prec emax exp_impl) src index dim dim_size
    = Ok (out, arg) ->
  Forall (fun v => v <> S754_infinity true) (data out).
Proof.
  unfold scatter_max.
  intros (n & _ & (shp & _ & (idx & _ &
            (out0 & _ & (o & _ & [= <- _])%bind_ok)%bind_ok)%bind_ok)%bind_ok)%bind_ok.
  apply Forall_forall. intros v Hv.
  unfold Torch.where_, Torch.eq_scalar, Torch.tmap, Torch.zeros_like in Hv. simpl in Hv.
  apply list_elem_of_lookup in Hv as (i & Hi).
  apply lookup_zip_with_Some in Hi as (b & [z x] & -> & Hb & Hzx).
  apply lookup_zip_Some in Hzx as [Hz Hx]. simpl in *.
  rewrite list_lookup_fmap, Hx in Hb. injection Hb as <-.
  apply lookup_replicate in Hz as [-> _].
  destruct (SFeqb x (S754_infinity true)) eqn:E; [done|].
  intros ->. done.
Qed.

Lemma scatter_max_never_neg_inf_witness :
  Forall (fun v => v <> S754_infinity true)
    (data (Tensor [3] [S754_zero false; S754_zero false; f32 2])).
Proof.
  apply (scatter_max_never_neg_inf 24 128 (IEEE.sf_exp 24 128)
           (Tensor [3] [S754_infinity true; f32 2; S754_infinity true])
           (Tensor [3] [0; 2; 0]%Z) 0 None _ (Tensor [3] [0; 0; 0]%Z)).
  vm_compute. reflexivity.
Defined.

(** ** The values of [scatter_max] *)

(** X21. On floating-point tensors of any IEEE format, for an index with
    all values in [[0, G)] and every dimension [dim] of [src], the first
    output of [scatter_max] holds at each position [c]: zero when the
    group of [c] is empty; otherwise the maximum [m] of the elements of
    the group, except that a maximum equal to negative infinity is
    replaced by zero. *)
Theorem scatter_max_values (prec emax : Z) (exp_impl : spec_float -> spec_float)
    (src : tensor spec_float) (index : tensor Z) (dim G : Z) (d : nat) :
  wf index -> Py.index (ndim src) dim = Ok d -> expands_to index src dim ->
  (0 <= G)%Z -> Forall (fun v => (0 <= v < G)%Z) (data index) ->
  exists out arg,
    scatter_max (dtype := IEEE.floating prec emax exp_impl) src index dim (Some G)
      = Ok (out, arg) /\
    forall c, in_bounds (shape out) c ->
      let xs := tget src <$> group_of index (shape src) d c in
      (xs = [] -> tget out c = S754_zero false) /\
      (xs <> [] -> exists m, is_maximum m xs /\
         (m = S754_infinity true -> tget out c = S754_zero false) /\
         (m <> S754_infinity true -> tget out c = m)).
Proof.
  intros Hwf Hd [Hcompat _] HG Hrange.
  destruct (scatter_max_value (dtype := IEEE.floating prec emax exp_impl) src index dim G d
              Hwf Hd Hcompat HG Hrange) as (out & arg & idx & Hmax & Hidx & Hshape & Hval).
  destruct (expand_index_compatible index src dim Hcompat) as (idx' & Hidx' & Hsh & _).
  rewrite Hidx in Hidx'. injection Hidx' as <-.
  exists out, arg. split; [done|].
  intros c Hc.
  rewrite <- (group_of_expanded index src dim d (Z.to_nat G) idx c)
    by (done || by rewrite <- Hshape).
  intros xs.
  set (m := foldl (Torch.amax (dtype := IEEE.floating prec emax exp_impl)) (S754_infinity true) xs).
  assert (tget out c = if SFeqb m (S754_infinity true) then S754_zero false else m)
    as Hm by exact (Hval c Hc).
  clear Hval. split.
  - intros Hnil. subst m. rewrite Hnil in Hm. exact Hm.
  - intros Hne. exists m. rename Hm into Hval. split; [|split].
    + apply (is_amax_is_maximum prec emax exp_impl).
      apply (amax_fold_is_amax (dtype := IEEE.floating prec emax exp_impl)); try done.
      * apply SFltb_nan_l.
      * apply SFltb_irrefl.
      * apply SFltb_trans.
      * apply SFltb_neg_trans.
      * apply SFltb_neg_inf_least.
    + intros Hm. by rewrite Hval, Hm.
    + intros Hm. rewrite Hval.
      destruct (SFeqb _ _) eqn:E; [|done]. by apply SFeqb_neg_inf in E.
Qed.

Lemma scatter_max_values_witness :
  exists out arg,
    scatter_max (dtype := float32) (Tensor [4] (f32 <$> [1; 2; 3; 4]%Z))
      (Tensor [4] [0; 0; 1; 1]%Z) 0 (Some 2%Z) = Ok (out, arg) /\
    forall c, in_bounds (shape out) c ->
      let xs := tget (Tensor [4] (f32 <$> [1; 2; 3; 4]%Z))
                  <$> group_of (Tensor [4] [0; 0; 1; 1]%Z) [4] 0 c in
      (xs = [] -> tget out c = S754_zero false) /\
      (xs <> [] -> exists m, is_maximum m xs /\
         (m = S754_infinity true -> tget out c = S754_zero false) /\
         (m <> S754_infinity true -> tget out c = m)).
Proof.
  apply (scatter_max_values 24 128 (IEEE.sf_exp 24 128)
           (Tensor [4] (f32 <$> [1; 2; 3; 4]%Z)) (Tensor [4] [0; 0; 1; 1]%Z) 0 2 0).
  - reflexivity.
  - reflexivity.
  - split; [reflexivity|]. by left.
  - lia.
  - repeat constructor; lia.
Defined.

(** ** [scatter_softmax], element by element *)

(** The group of an element is the group of each of its members. *)
Lemma members_group (idx : tensor Z) (d : nat) (c c' : list nat) :
  d < length c -> c' ∈ group idx d c -> members idx d c' = group idx d c.
Proof.
  intros Hd (i & Hi & -> & Hv)%elem_of_group. unfold members.
  rewrite Hv, Nat2Z.id, list_insert_insert_eq.
  f_equal. apply list_insert_id. by apply list_lookup_lookup_total_lt.
Qed.


Section SoftmaxValue.

Context {A : Type} {additive : Additive A} {dtype : Floating A}.

(** The value gathered for element [q] from the output of a reduction
    is the value at the position of its group. *)
Lemma gather_target (src : tensor A) (idx : tensor Z) (d G : nat) (c : list nat) :
  wf idx -> shape idx = shape src -> d < ndim src ->
  Forall (fun v => (0 <= v < Z.of_nat G)%Z) (data idx) -> in_bounds (shape src) c ->
  Torch.scatter_target (<[d := G]> (shape src)) d idx (ravel (shape src) c)
  = ravel (<[d := G]> (shape src)) (<[d := Z.to_nat (tget idx c)]> c) /\
  in_bounds (<[d := G]> (shape src)) (<[d := Z.to_nat (tget idx c)]> c).
Proof.
  intros Hwfi Hsh Hlt Hrange Hc. unfold Torch.scatter_target, tget.
  rewrite Hsh, unravel_ravel by done. split; [done|].
  apply in_bounds_insert; [done|].
  rewrite Forall_forall in Hrange.
  assert (0 <= data idx !!! ravel (shape src) c < Z.of_nat G)%Z; [|lia].
  apply Hrange, list_elem_of_lookup_total_2. rewrite Hwfi. unfold numel. rewrite Hsh.
  by apply ravel_lt.
Qed.

Lemma scatter_softmax_run (src : tensor A) (index : tensor Z) (dim G : Z) (d : nat)
    (idx : tensor Z) :
  wf src -> wf index -> Py.index (ndim src) dim = Ok d ->
  _expand_index index src dim = Ok idx -> shape idx = shape src -> wf idx ->
  (0 <= G)%Z -> Forall (fun v => (0 <= v < G)%Z) (data index) ->
  exists out, scatter_softmax src index dim (Some G) = Ok out /\
    shape out = shape src /\ wf out /\
    forall c, in_bounds (shape src) c ->
      tget out c = softmax_group_value (tget src <$> members idx d c) (tget src c).
Proof.
  intros Hwf Hwfx Hd Hidx Hsh Hwfi HG Hrange.
  pose proof (py_index_ok _ _ _ Hd) as [Hlt _].
  assert (Forall (fun v => (0 <= v < G)%Z) (data idx)) as Hrange_idx.
  { apply Forall_forall. intros v Hv. rewrite Forall_forall in Hrange.
    apply Hrange. by eapply expand_index_elem_of. }
  assert (Forall (fun x => (0 <= x < Z.of_nat (Z.to_nat G))%Z) (data idx)) as Hrange'
    by by rewrite Z2Nat.id.
  set (sh := <[d := Z.to_nat G]> (shape src)).
  set (N := numel idx).
  assert (length (data src) = N) as Hlen by (subst N; unfold numel; by rewrite Hsh).
  rewrite scatter_softmax_factor. simpl. rewrite Hidx. simpl.
  rewrite (scatter_max_run src index dim G d idx) by done. simpl.
  rewrite (gather_ok src idx dim d (Z.to_nat G)) by done. simpl.
  rewrite binop_same_shape;
    [|done|unfold wf, numel; simpl; by rewrite length_fmap, length_seq, Hsh|done].
  simpl.
  set (Mx := (fun x => if eqb x neg_inf then zero else x) <$> amax_reduced src idx sh d).
  set (centered := zip_with sub (data src)
                     ((fun q => Mx !!! Torch.scatter_target sh d idx q) <$> seq 0 N)).
  set (src_exp := Torch.tmap exp (Tensor (shape src) centered)).
  assert (length centered = N) as Hlenc.
  { subst centered. by rewrite length_zip_with, length_fmap, length_seq, Hlen, Nat.min_id. }
  assert (wf src_exp) as Hwfe.
  { unfold wf, numel. simpl. rewrite length_fmap, Hlenc. subst N. unfold numel.
    by rewrite Hsh. }
  rewrite (scatter_sum_run src_exp index dim G d idx); [|done|done| |done|done|done].
  2:{ by rewrite (expand_index_shape_only index src src_exp). }
  simpl.
  rewrite (gather_ok src_exp idx dim d (Z.to_nat G)) by done. simpl.
  rewrite binop_same_shape;
    [|done|unfold wf, numel; simpl; by rewrite !length_fmap, length_seq, Hsh|done].
  simpl. eexists. split; [done|]. simpl. split; [done|]. split.
  { unfold wf, numel. simpl.
    repeat (rewrite length_zip_with || rewrite length_fmap || rewrite length_seq).
    rewrite Hwf. unfold numel. rewrite Hsh. lia. }
  assert (forall c, in_bounds (shape src) c ->
            tget src_exp c
            = exp (sub (tget src c) (amax_group_value (tget src <$> members idx d c))))
    as Hexp.
  { intros c Hc. pose proof (ravel_lt _ _ Hc) as Hq.
    assert (ravel (shape src) c < N) as HqN by (subst N; unfold numel; by rewrite Hsh).
    unfold tget at 1. simpl.
    rewrite (@list_lookup_total_fmap _ _ exp _ _) by by rewrite Hlenc.
    f_equal. subst centered.
    rewrite (@lookup_total_zip_with _ _ _ sub _ _ _);
      [|by rewrite Hlen|by rewrite length_fmap, length_seq].
    f_equal.
    rewrite (@list_lookup_total_fmap _ _ _ _ _) by by rewrite length_seq.
    rewrite lookup_total_seq_lt by done. simpl. subst Mx sh.
    destruct (gather_target src idx d (Z.to_nat G) c Hwfi Hsh Hlt Hrange' Hc) as [-> Hc'].
    exact (scatter_max_data_lookup src idx d (Z.to_nat G) _ Hwfi Hsh Hlt Hrange' Hc'). }
  intros c Hc.
  pose proof (ravel_lt _ _ Hc) as Hq. set (q := ravel (shape src) c) in *.
  assert (q < N) as HqN by (subst N; unfold numel; by rewrite Hsh).
  unfold tget at 1. simpl. fold q.
  rewrite (@lookup_total_zip_with _ _ _ div _ _ _).
  2:{ repeat (rewrite length_zip_with || rewrite length_fmap || rewrite length_seq).
      fold N. lia. }
  2:{ repeat (rewrite length_zip_with || rewrite length_fmap || rewrite length_seq).
      by fold N. }
  unfold softmax_group_value. f_equal.
  - exact (Hexp c Hc).
  - rewrite (@list_lookup_total_fmap _ _ _ _ _) by by rewrite length_fmap, length_seq.
    rewrite (@list_lookup_total_fmap _ _ _ _ _) by by rewrite length_seq.
    rewrite lookup_total_seq_lt by done. simpl. subst q.
    destruct (gather_target src idx d (Z.to_nat G) c Hwfi Hsh Hlt Hrange' Hc) as [-> Hc'].
    pose proof (scatter_sum_data_lookup src_exp idx d (Z.to_nat G) _ Hwfi Hsh Hlt Hrange' Hc')
      as Hsum.
    cbv zeta in Hsum. change (shape src_exp) with (shape src) in Hsum. rewrite Hsum.
    fold (members idx d c).
    assert (tget src_exp <$> members idx d c
            = (fun y => exp (sub y (amax_group_value (tget src <$> members idx d c))))
                <$> (tget src <$> members idx d c)) as ->; [|done].
    rewrite <- list_fmap_compose. apply list_fmap_ext. intros k c' Hk. simpl.
    apply list_elem_of_lookup_2 in Hk.
    assert (members idx d c' = members idx d c) as Hm.
    { apply members_group; [|done]. rewrite length_insert, (in_bounds_length _ _ Hc).
      done. }
    rewrite <- Hm. apply Hexp.
    apply elem_of_group in Hk as (i & Hi & -> & _).
    rewrite list_insert_insert_eq. rewrite <- Hsh.
    apply (in_bounds_insert_back _ _ _ (shape idx !!! d)).
    + rewrite list_insert_id; [by rewrite Hsh|].
      apply list_lookup_lookup_total_lt. by rewrite Hsh.
    + by rewrite Hsh.
    + done.
Qed.

End SoftmaxValue.



(** Two well-formed tensors of one shape that agree at every coordinate
    are equal. *)
Lemma tensor_ext {X : Type} `{Inhabited X} (t t' : tensor X) :
  shape t' = shape t -> wf t -> wf t' ->
  (forall c, in_bounds (shape t) c -> tget t' c = tget t c) -> t' = t.
Proof.
  destruct t as [sh l], t' as [sh' l']. unfold wf, numel, tget. simpl.
  intros -> Hl Hl' Hext. f_equal.
  apply (list_eq_same_length _ _ (volume sh)); [done|done|].
  intros q x y Hq Hx Hy.
  specialize (Hext (unravel sh q) (unravel_in_bounds _ _ Hq)).
  rewrite ravel_unravel in Hext by done.
  rewrite (list_lookup_total_correct _ _ _ Hx), (list_lookup_total_correct _ _ _ Hy) in Hext.
  done.
Qed.

Lemma scatter_softmax_some_eq {A : Type} {additive : Additive A} {dtype : Floating A}
    (src : tensor A) (index : tensor Z) (dim G G' : Z) (d : nat) :
  wf src -> wf index -> Py.index (ndim src) dim = Ok d -> compatible index src dim ->
  (0 <= G)%Z -> (0 <= G')%Z ->
  Forall (fun v => (0 <= v < G)%Z) (data index) ->
  Forall (fun v => (0 <= v < G')%Z) (data index) ->
  scatter_softmax src index dim (Some G') = scatter_softmax src index dim (Some G).
Proof.
  intros Hwf Hwfx Hd Hcompat HG HG' Hrange Hrange'.
  destruct (expand_index_compatible index src dim Hcompat) as (idx & Hidx & Hsh & Hwfi).
  destruct (scatter_softmax_run src index dim G d idx Hwf Hwfx Hd Hidx Hsh Hwfi HG Hrange)
    as (out & -> & Hshape & Hwfo & Hval).
  destruct (scatter_softmax_run src index dim G' d idx Hwf Hwfx Hd Hidx Hsh Hwfi HG' Hrange')
    as (out' & -> & Hshape' & Hwfo' & Hval').
  f_equal. apply tensor_ext; [by rewrite Hshape, Hshape'|done|done|].
  intros c Hc. rewrite Hshape in Hc. by rewrite Hval, Hval'.
Qed.

Lemma infer_dim_size_none (index : tensor Z) :
  data index <> [] ->
  exists m, infer_dim_size index None = Ok (m + 1)%Z /\ m ∈ data index /\
            Forall (fun v => (v <= m)%Z) (data index).
Proof.
  intros Hne. unfold infer_dim_size.
  destruct (Torch.max_item index) as [m|e] eqn:E.
  - exists m. split; [done|]. by apply max_item_ok.
  - unfold Torch.max_item in E. by destruct (data index).
Qed.

(** X13. [dim_size] does not change the result of [scatter_softmax]: on
    a compatible index that is not empty, every [dim_size] that the
    index values fit in gives the result of the call without
    [dim_size]. *)
Theorem scatter_softmax_any_dim_size {A : Type} {additive : Additive A}
    {dtype : Floating A} (src : tensor A) (index : tensor Z) (dim G : Z) (d : nat) :
  wf src -> wf index -> Py.index (ndim src) dim = Ok d -> compatible index src dim ->
  data index <> [] -> Forall (fun v => (0 <= v < G)%Z) (data index) ->
  scatter_softmax src index dim (Some G) = scatter_softmax src index dim None.
Proof.
  intros Hwf Hwfx Hd Hcompat Hne Hrange.
  destruct (infer_dim_size_none index Hne) as (m & Hm & Hin & Hmax).
  rewrite Forall_forall in Hrange. pose proof (Hrange m Hin) as HmG.
  assert (scatter_softmax src index dim None = scatter_softmax src index dim (Some (m + 1)%Z))
    as ->.
  { unfold scatter_softmax. by rewrite Hm. }
  apply (scatter_softmax_some_eq src index dim (m + 1) G d); try done; try lia.
  - apply Forall_forall. intros v Hv. rewrite Forall_forall in Hmax.
    specialize (Hrange v Hv). specialize (Hmax v Hv). lia.
  - by apply Forall_forall.
Qed.

Lemma scatter_softmax_any_dim_size_witness :
  scatter_softmax (dtype := float32) (Tensor [4] (f32 <$> [1; 2; 3; 4]%Z))
    (Tensor [4] [0; 0; 1; 1]%Z) 0 (Some 5%Z)
  = scatter_softmax (dtype := float32) (Tensor [4] (f32 <$> [1; 2; 3; 4]%Z))
      (Tensor [4] [0; 0; 1; 1]%Z) 0 None.
Proof.
  apply (scatter_softmax_any_dim_size (dtype := float32)
           (Tensor [4] (f32 <$> [1; 2; 3; 4]%Z)) (Tensor [4] [0; 0; 1; 1]%Z) 0 5 0).
  - reflexivity.
  - reflexivity.
  - reflexivity.
  - reflexivity.
  - simpl. discriminate.
  - simpl. repeat constructor; lia.
Defined.

(** X14. With [dim_size] left out, the three functions succeed on every
    compatible index that is not empty and holds no negative value: the
    group count is one more than the largest index value [m], and
    [scatter_softmax] returns a tensor of the shape of [src]. *)
Theorem default_dim_size_succeeds {A B : Type} {dtype_sum : Additive A}
    {additive : Additive B} {dtype : Floating B}
    (src : tensor A) (src' : tensor B) (index : tensor Z) (dim : Z) (d : nat) :
  wf src' -> wf index -> Py.index (ndim src) dim = Ok d -> compatible index src dim ->
  shape src' = shape src -> data index <> [] ->
  Forall (fun v => (0 <= v)%Z) (data index) ->
  exists m out_sum out_max arg out_softmax,
    m ∈ data index /\ Forall (fun v => (v <= m)%Z) (data index) /\
    scatter_sum src index dim None = Ok out_sum /\
    shape out_sum = <[d := Z.to_nat (m + 1)]> (shape src) /\
    scatter_max src' index dim None = Ok (out_max, arg) /\
    shape out_max = <[d := Z.to_nat (m + 1)]> (shape src) /\
    scatter_softmax src' index dim None = Ok out_softmax /\
    shape out_softmax = shape src.
Proof.
  intros Hwf Hwfx Hd Hcompat Hshape Hne Hpos.
  assert (compatible index src' dim) as Hcompat'.
  { unfold compatible, ndim in *. by rewrite Hshape. }
  assert (Py.index (ndim src') dim = Ok d) as Hd' by (unfold ndim; by rewrite Hshape).
  destruct (infer_dim_size_none index Hne) as (m & Hm & Hin & Hmax).
  assert (0 <= m + 1)%Z as HG.
  { rewrite Forall_forall in Hpos. specialize (Hpos m Hin). lia. }
  assert (Forall (fun v => (0 <= v < m + 1)%Z) (data index)) as Hrange.
  { apply Forall_forall. intros v Hv. rewrite Forall_forall in Hpos, Hmax.
    specialize (Hpos v Hv). specialize (Hmax v Hv). lia. }
  destruct (expand_index_compatible index src dim Hcompat) as (idx & Hidx & Hsh & Hwfi).
  destruct (scatter_sum_value src index dim (m + 1) d idx)
    as (out_sum & Hsum & Hshs & _); [done..|].
  destruct (scatter_max_value src' index dim (m + 1) d)
    as (out_max & arg & idx' & Hmx & _ & Hshm & _); [done..|].
  assert (_expand_index index src' dim = Ok idx) as Hidx'
    by by rewrite (expand_index_shape_only index src src').
  assert (shape idx = shape src') as Hsh' by by rewrite Hshape.
  destruct (scatter_softmax_run src' index dim (m + 1) d idx
              Hwf Hwfx Hd' Hidx' Hsh' Hwfi HG Hrange)
    as (out_softmax & Hsoft & Hshx & _).
  exists m, out_sum, out_max, arg, out_softmax.
  split; [done|]. split; [done|]. split.
  { unfold scatter_sum in *. by rewrite Hm. }
  split; [done|]. split.
  { unfold scatter_max in *. by rewrite Hm. }
  split; [by rewrite Hshm, Hshape|]. split.
  { unfold scatter_softmax in *. by rewrite Hm. }
  by rewrite Hshx.
Qed.

Lemma default_dim_size_succeeds_witness :
  exists m out_sum out_max arg out_softmax,
    m ∈ [1; 0; 1]%Z /\ Forall (fun v => (v <= m)%Z) [1; 0; 1]%Z /\
    scatter_sum (dtype := int64) (Tensor [2; 3] [1; 2; 3; 4; 5; 6]%Z)
      (Tensor [3] [1; 0; 1]%Z) (-1) None = Ok out_sum /\
    shape out_sum = <[1 := Z.to_nat (m + 1)]> [2; 3] /\
    scatter_max (dtype := float32) (Tensor [2; 3] (f32 <$> [1; 2; 3; 4; 5; 6]%Z))
      (Tensor [3] [1; 0; 1]%Z) (-1) None = Ok (out_max, arg) /\
    shape out_max = <[1 := Z.to_nat (m + 1)]> [2; 3] /\
    scatter_softmax (dtype := float32) (Tensor [2; 3] (f32 <$> [1; 2; 3; 4; 5; 6]%Z))
      (Tensor [3] [1; 0; 1]%Z) (-1) None = Ok out_softmax /\
    shape out_softmax = [2; 3].
Proof.
  apply (default_dim_size_succeeds (dtype_sum := int64) (dtype := float32)
           (Tensor [2; 3] [1; 2; 3; 4; 5; 6]%Z) (Tensor [2; 3] (f32 <$> [1; 2; 3; 4; 5; 6]%Z))
           (Tensor [3] [1; 0; 1]%Z) (-1) 1).
  - reflexivity.
  - reflexivity.
  - reflexivity.
  - exists 1. split; reflexivity.
  - reflexivity.
  - simpl. discriminate.
  - simpl. repeat constructor; lia.
Defined.

(** ** Relabelling the groups *)

(** The group of an element is decided by the index values that equal
    its own. *)
Lemma members_line (idx : tensor Z) (d : nat) (c : list nat) :
  d < length c -> (0 <= tget idx c)%Z ->
  members idx d c
  = (fun i => <[d := i]> c)
      <$> filter (fun i => tget idx (<[d := i]> c) = tget idx c) (seq 0 (shape idx !!! d)).
Proof.
  intros Hd Hv. unfold members. rewrite group_line by done.
  by rewrite Z2Nat.id.
Qed.

(** X20. [scatter_softmax] depends on the grouping, not on the values
    of the group ids: two indices of one shape without negative values
    that put the same elements together give the same result when
    [dim_size] is left out. *)
Theorem scatter_softmax_relabel {A : Type} {additive : Additive A} {dtype : Floating A}
    (src : tensor A) (index index' : tensor Z) (dim : Z) (d : nat) :
  wf src -> wf index -> wf index' -> shape index' = shape index ->
  Py.index (ndim src) dim = Ok d -> compatible index src dim -> data index <> [] ->
  Forall (fun v => (0 <= v)%Z) (data index) ->
  Forall (fun v => (0 <= v)%Z) (data index') ->
  (forall i j, i < numel index -> j < numel index ->
     data index !!! i = data index !!! j <-> data index' !!! i = data index' !!! j) ->
  scatter_softmax src index' dim None = scatter_softmax src index dim None.
Proof.
  intros Hwf Hwfx Hwfx' Hshx Hd Hcompat Hne Hpos Hpos' Hsame.
  pose proof (py_index_ok _ _ _ Hd) as [Hlt _].
  assert (compatible index' src dim) as Hcompat'.
  { unfold compatible, ndim, numel in *. by rewrite Hshx. }
  assert (data index' <> []) as Hne'.
  { intros Hnil. apply Hne. apply nil_length_inv.
    rewrite Hwfx. unfold numel. rewrite <- Hshx. fold (numel index').
    by rewrite <- Hwfx', Hnil. }
  destruct (infer_dim_size_none index Hne) as (m & Hm & Hin & Hmax).
  destruct (infer_dim_size_none index' Hne') as (m' & Hm' & Hin' & Hmax').
  assert (forall ix mx, Forall (fun v => (0 <= v)%Z) (data ix) ->
            Forall (fun v => (v <= mx)%Z) (data ix) ->
            Forall (fun v => (0 <= v < mx + 1)%Z) (data ix)) as Hfit.
  { intros ix mx H0 H1. apply Forall_forall. intros v Hv. rewrite Forall_forall in H0, H1.
    specialize (H0 v Hv). specialize (H1 v Hv). lia. }
  pose proof (Hfit index m Hpos Hmax) as Hrange.
  pose proof (Hfit index' m' Hpos' Hmax') as Hrange'.
  assert (0 <= m + 1)%Z as HG by (rewrite Forall_forall in Hpos; specialize (Hpos m Hin); lia).
  assert (0 <= m' + 1)%Z as HG'
    by (rewrite Forall_forall in Hpos'; specialize (Hpos' m' Hin'); lia).
  destruct (expand_index_compatible index src dim Hcompat) as (idx & Hidx & Hsh & Hwfi).
  destruct (expand_index_compatible index' src dim Hcompat') as (idx' & Hidx' & Hsh' & Hwfi').
  destruct (scatter_softmax_run src index dim (m + 1) d idx
              Hwf Hwfx Hd Hidx Hsh Hwfi HG Hrange) as (out & Hout & Hshape & Hwfo & Hval).
  destruct (scatter_softmax_run src index' dim (m' + 1) d idx'
              Hwf Hwfx' Hd Hidx' Hsh' Hwfi' HG' Hrange')
    as (out' & Hout' & Hshape' & Hwfo' & Hval').
  assert (scatter_softmax src index dim None = Ok out) as ->.
  { unfold scatter_softmax in *. by rewrite Hm. }
  assert (scatter_softmax src index' dim None = Ok out') as ->.
  { unfold scatter_softmax in *. by rewrite Hm'. }
  f_equal. apply tensor_ext; [by rewrite Hshape, Hshape'|done|done|].
  intros c Hc. rewrite Hshape in Hc. rewrite Hval, Hval' by done.
  assert (members idx' d c = members idx d c) as ->; [|done].
  pose proof (in_bounds_length _ _ Hc) as Hlen.
  assert (forall a, in_bounds (shape src) a ->
            read_offset (shape index) (shape src) d a < numel index /\
            tget idx a = data index !!! read_offset (shape index) (shape src) d a /\
            tget idx' a = data index' !!! read_offset (shape index) (shape src) d a)
    as Hread.
  { intros a Ha.
    destruct (expand_index_reads index src dim d idx a Hcompat Hd Hidx Ha) as [Hlo Hr].
    destruct (expand_index_reads index' src dim d idx' a Hcompat' Hd Hidx' Ha) as [_ Hr'].
    rewrite Hshx in Hr'. done. }
  destruct (Hread c Hc) as (Hoc & Hrc & Hrc').
  assert (0 <= tget idx c)%Z as Hvc.
  { rewrite Hrc. rewrite Forall_forall in Hpos. apply Hpos.
    apply list_elem_of_lookup_total_2. by rewrite Hwfx. }
  assert (0 <= tget idx' c)%Z as Hvc'.
  { rewrite Hrc'. rewrite Forall_forall in Hpos'. apply Hpos'.
    apply list_elem_of_lookup_total_2. rewrite Hwfx'. unfold numel. rewrite Hshx.
    exact Hoc. }
  rewrite !members_line by (done || by rewrite Hlen).
  rewrite Hsh, Hsh'. f_equal. apply filter_ext_elem. intros i Hi%elem_of_seq.
  assert (in_bounds (shape src) (<[d := i]> c)) as Hic.
  { rewrite <- (list_insert_id (shape src) d (shape src !!! d)).
    - apply in_bounds_insert; [done|lia].
    - by apply list_lookup_lookup_total_lt. }
  destruct (Hread _ Hic) as (Hoi & Hri & Hri').
  rewrite Hri, Hri', Hrc, Hrc'. symmetry. by apply Hsame.
Qed.

Lemma scatter_softmax_relabel_witness :
  scatter_softmax (dtype := float32) (Tensor [4] (f32 <$> [1; 2; 3; 4]%Z))
    (Tensor [4] [5; 5; 2; 2]%Z) 0 None
  = scatter_softmax (dtype := float32) (Tensor [4] (f32 <$> [1; 2; 3; 4]%Z))
      (Tensor [4] [0; 0; 1; 1]%Z) 0 None.
Proof.
  apply (scatter_softmax_relabel (dtype := float32) (Tensor [4] (f32 <$> [1; 2; 3; 4]%Z))
           (Tensor [4] [0; 0; 1; 1]%Z) (Tensor [4] [5; 5; 2; 2]%Z) 0 0).
  - reflexivity.
  - reflexivity.
  - reflexivity.
  - reflexivity.
  - reflexivity.
  - reflexivity.
  - simpl. discriminate.
  - simpl. repeat constructor; lia.
  - simpl. repeat constructor; lia.
  - intros i j Hi Hj. vm_compute in Hi, Hj.
    destruct i as [|[|[|[|i]]]]; [| | | |lia];
      (destruct j as [|[|[|[|j]]]]; [| | | |lia]); by vm_compute.
Defined.

(** ** [scatter_softmax] on floating-point tensors *)

Lemma softmax_group_value_ieee (prec emax : Z) (exp_impl : spec_float -> spec_float)
    (xs : list spec_float) (x : spec_float) :
  softmax_group_value (dtype := IEEE.floating prec emax exp_impl) xs x
  = let m := amax_group_value (dtype := IEEE.floating prec emax exp_impl) xs in
    let s := foldl (SFadd prec emax) (S754_zero false)
               ((fun y => exp_impl (SFsub prec emax y m)) <$> xs) in
    let eps := IEEE.of_double prec emax IEEE.double_1e_12 in
    SFdiv prec emax (exp_impl (SFsub prec emax x m))
      (if IEEE.sf_is_nan s then s else if SFltb s eps then eps else s).
Proof. reflexivity. Qed.











(** *** Signs *)

Lemma binary_round_aux_nonneg (prec emax mx ex : Z) (lx : location) :
  sf_nonneg (binary_round_aux prec emax false mx ex lx) = true.
Proof.
  unfold binary_round_aux.
  destruct (shr_fexp prec emax mx ex lx) as [mrs' e'].
  destruct (shr_fexp prec emax _ e' loc_Exact) as [mrs'' e''].
  destruct (shr_m mrs''); [done| |done]. by destruct (_ <=? _)%Z.
Qed.

Lemma binary_round_nonneg (prec emax : Z) (m : positive) (e : Z) :
  sf_nonneg (binary_round prec emax false m e) = true.
Proof.
  unfold binary_round. destruct (shl_align _ _ _) as [mz ez].
  apply binary_round_aux_nonneg.
Qed.

Lemma SFadd_nonneg (prec emax : Z) (x y : spec_float) :
  sf_nonneg x = true -> sf_nonneg y = true -> sf_nonneg (SFadd prec emax x y) = true.
Proof.
  destruct x as [[]|[]| |[] mx ex], y as [[]|[]| |[] my ey]; try done. intros _ _.
  unfold SFadd. cbn [cond_Zopp Z.add binary_normalize]. apply binary_round_nonneg.
Qed.

Lemma SFdiv_nonneg (prec emax : Z) (x y : spec_float) :
  sf_nonneg x = true -> sf_nonneg y = true -> sf_nonneg (SFdiv prec emax x y) = true.
Proof.
  destruct x as [[]|[]| |[] mx ex], y as [[]|[]| |[] my ey]; try done. intros _ _.
  unfold SFdiv. destruct (SFdiv_core_binary _ _ _ _ _ _) as [[mz ez] lz].
  apply binary_round_aux_nonneg.
Qed.

Lemma of_double_1e_12_nonneg (prec emax : Z) :
  sf_nonneg (IEEE.of_double prec emax IEEE.double_1e_12) = true.
Proof.
  assert (exists m e, IEEE.double_1e_12 = S754_finite false m e) as (m & e & ->)
    by (vm_compute; eauto).
  apply binary_round_nonneg.
Qed.

Lemma sf_nonneg_spec (x : spec_float) :
  sf_nonneg x = true -> x = S754_nan \/ SFleb (S754_zero false) x = true.
Proof. destruct x as [[]|[]| |[] m e]; try done; auto. Qed.

Lemma foldl_SFadd_nonneg (prec emax : Z) (xs : list spec_float) (a : spec_float) :
  sf_nonneg a = true -> Forall (fun x => sf_nonneg x = true) xs ->
  sf_nonneg (foldl (SFadd prec emax) a xs) = true.
Proof.
  intros Ha Hxs. revert a Ha.
  induction Hxs as [|x xs Hx _ IH]; intros a Ha; simpl; [done|].
  apply IH. by apply SFadd_nonneg.
Qed.

Lemma softmax_group_value_nonneg (prec emax : Z) (exp_impl : spec_float -> spec_float)
    (xs : list spec_float) (x : spec_float) :
  (forall y, sf_nonneg (exp_impl y) = true) ->
  sf_nonneg (softmax_group_value (dtype := IEEE.floating prec emax exp_impl) xs x) = true.
Proof.
  intros Hexp. rewrite softmax_group_value_ieee. cbv zeta.
  apply SFdiv_nonneg; [done|].
  set (s := foldl _ _ _).
  assert (sf_nonneg s = true) as Hs.
  { apply foldl_SFadd_nonneg; [done|]. apply Forall_fmap, Forall_forall. intros y _. apply Hexp. }
  destruct (IEEE.sf_is_nan s); [done|].
  destruct (SFltb s _); [apply of_double_1e_12_nonneg|done].
Qed.

(** The modelled exponential returns no negative value. *)

Lemma div_half_bound (a b T : Z) :
  (0 < b)%Z -> (- (T * b) <= 2 * a <= T * b)%Z -> (- T - 2 <= 2 * (a / b) <= T)%Z.
Proof.
  intros Hb Ha. pose proof (Z.div_mod a b ltac:(lia)) as Hdm.
  pose proof (Z.mod_pos_bound a b Hb) as Hm. nia.
Qed.

Lemma exp_series_lower (n : nat) (i r term acc T : Z) :
  (1 <= i)%Z -> (2 * Z.abs r <= 2 ^ IEEE.bits)%Z -> (Z.abs term <= T)%Z ->
  (acc - T - 2 * Z.of_nat n <= IEEE.exp_series n i r term acc)%Z.
Proof.
  revert i term acc T. induction n as [|n IH]; intros i term acc T Hi Hr Hterm.
  - simpl. lia.
  - cbn [IEEE.exp_series]. cbv zeta.
    set (B := (2 ^ IEEE.bits)%Z) in *.
    assert (0 < B)%Z as HB by (subst B; by vm_compute).
    set (term' := (term * r / (B * i))%Z).
    assert (- T - 2 <= 2 * term' <= T)%Z as Hterm'.
    { apply div_half_bound; [nia|].
      assert (Z.abs term * (2 * Z.abs r) <= T * B)%Z as H1
        by (apply Z.mul_le_mono_nonneg; lia).
      assert (T * B <= T * (B * i))%Z as H2 by nia.
      pose proof (Z.abs_mul term r) as H3. lia. }
    specialize (IH (i + 1)%Z term' (acc + term')%Z ((T + 2) / 2)%Z ltac:(lia) Hr).
    pose proof (Z.div_mod (T + 2) 2 ltac:(lia)) as Hdm.
    pose proof (Z.mod_pos_bound (T + 2) 2 ltac:(lia)) as Hm.
    specialize (IH ltac:(lia)). lia.
Qed.

Lemma exp_series_S (n : nat) (i r term acc : Z) :
  IEEE.exp_series (S n) i r term acc
  = IEEE.exp_series n (i + 1) r (term * r / (2 ^ IEEE.bits * i))
      (acc + term * r / (2 ^ IEEE.bits * i)).
Proof. reflexivity. Qed.

Lemma exp_finite_nonneg (prec emax : Z) (s : bool) (m : positive) (e : Z) :
  sf_nonneg (IEEE.exp_finite prec emax s m e) = true.
Proof.
  unfold IEEE.exp_finite. cbv zeta.
  set (x := cond_Zopp s (Z.shiftl (Z.pos m) (e + IEEE.bits))).
  destruct (_ <=? x)%Z; [done|]. destruct (x <=? _)%Z; [done|].
  set (L := IEEE.ln2_fixed).
  set (k := ((2 * x + L) / (2 * L))%Z). set (r := (x - k * L)%Z).
  assert (0 < L)%Z as HL by by vm_compute.
  assert (- L <= 2 * r < L)%Z as Hr.
  { pose proof (Z.div_mod (2 * x + L) (2 * L) ltac:(lia)) as Hdm.
    pose proof (Z.mod_pos_bound (2 * x + L) (2 * L) ltac:(lia)) as Hm.
    fold k in Hdm. subst r. lia. }
  assert (0 < IEEE.exp_series 40 1 r (2 ^ IEEE.bits) (2 ^ IEEE.bits))%Z as Hpos.
  { change 40 with (S 39). rewrite exp_series_S.
    set (B := (2 ^ IEEE.bits)%Z).
    assert (0 < B)%Z as HB by (subst B; by vm_compute).
    assert (L + 80 < B)%Z as HLB by (subst B L; by vm_compute).
    assert (B * r / (B * 1) = r)%Z as ->.
    { rewrite Z.mul_1_r, Z.mul_comm. apply Z.div_mul. lia. }
    assert (2 * Z.abs r <= B)%Z as Hr' by lia.
    pose proof (exp_series_lower 39 (1 + 1) r r (B + r) (Z.abs r) ltac:(lia) Hr'
                  ltac:(lia)) as Hlow.
    fold B in Hlow. lia. }
  destruct (IEEE.exp_series _ _ _ _ _) as [|p|p]; [done| |lia].
  apply binary_round_nonneg.
Qed.

Lemma sf_exp_nonneg (prec emax : Z) (x : spec_float) :
  sf_nonneg (IEEE.sf_exp prec emax x) = true.
Proof.
  destruct x as [s|[]| |s m e]; try done.
  - apply binary_round_nonneg.
  - apply exp_finite_nonneg.
Qed.

(** X17. For an exponential that returns no negative value, no output of
    [scatter_softmax] is negative: each is NaN or at least zero, in
    every IEEE format. *)
Theorem scatter_softmax_nonneg (prec emax : Z) (exp_impl : spec_float -> spec_float)
    (src : tensor spec_float) (index : tensor Z) (dim G : Z) (d : nat) :
  (forall y, sf_nonneg (exp_impl y) = true) ->
  wf src -> wf index -> Py.index (ndim src) dim = Ok d -> compatible index src dim ->
  (0 <= G)%Z -> Forall (fun v => (0 <= v < G)%Z) (data index) ->
  exists out,
    scatter_softmax (dtype := IEEE.floating prec emax exp_impl) src index dim (Some G)
      = Ok out /\
    forall c, in_bounds (shape src) c ->
      tget out c = S754_nan \/ SFleb (S754_zero false) (tget out c) = true.
Proof.
  intros Hexp Hwf Hwfx Hd Hcompat HG Hrange.
  destruct (expand_index_compatible index src dim Hcompat) as (idx & Hidx & Hsh & Hwfi).
  destruct (scatter_softmax_run (dtype := IEEE.floating prec emax exp_impl)
              src index dim G d idx Hwf Hwfx Hd Hidx Hsh Hwfi HG Hrange)
    as (out & Hout & _ & _ & Hval).
  exists out. split; [done|].
  intros c Hc.
  assert (tget out c
          = softmax_group_value (dtype := IEEE.floating prec emax exp_impl)
              (tget src <$> members idx d c) (tget src c)) as -> by exact (Hval c Hc).
  by apply sf_nonneg_spec, softmax_group_value_nonneg.
Qed.

Lemma scatter_softmax_nonneg_witness :
  exists out,
    scatter_softmax (dtype := float32) (Tensor [4] (f32 <$> [1; 2; 3; 4]%Z))
      (Tensor [4] [0; 0; 1; 1]%Z) 0 (Some 2%Z) = Ok out /\
    forall c, in_bounds [4] c ->
      tget out c = S754_nan \/ SFleb (S754_zero false) (tget out c) = true.
Proof.
  apply (scatter_softmax_nonneg 24 128 (IEEE.sf_exp 24 128)
           (Tensor [4] (f32 <$> [1; 2; 3; 4]%Z)) (Tensor [4] [0; 0; 1; 1]%Z) 0 2 0).
  - apply sf_exp_nonneg.
  - reflexivity.
  - reflexivity.
  - reflexivity.
  - reflexivity.
  - lia.
  - simpl. repeat constructor; lia.
Defined.

(** *** NaN and positive infinity *)







